(** * Viu.js reactivity core: a shallow embedding and its properties

    The development follows [src/viu.js].  Library code (effects, the
    dependency registry, the proxy handlers, refs, computed values and the
    job queue) is written as Rocq functions over an explicit state, one for
    each function of the source and under its name.  The functions a user
    hands to the library (effect bodies, getters, setters, schedulers) are the
    operations of a [Host]: arbitrary transformers of that state, which may
    return or throw.

    Modelled fragment of JavaScript:
    - property keys are strings of ASCII characters (symbol keys are left out);
    - numbers are NaN, the infinities, the two zeros and the integers;
    - an ordinary object is a finite map of own, writable data properties,
      and its prototype is the initial [Object.prototype], or
      [Array.prototype] for an array, which carries its [length]; an inherited
      property has no value in the model, so a read that reaches the
      prototype has no result, and so has a write to [__proto__], which
      reaches the accessor of [Object.prototype]; an object that is not
      extensible is one closed by [Object.preventExtensions], whose
      properties stay writable and configurable (sealed and frozen objects
      are left out);
    - the [__v_] marker keys are reserved: an ordinary object carries only
      [__v_skip], written by [markRaw];
    - object identity is an address in a heap; effects and dependency sets
      have identities of their own, so that a set shared by a dependency map
      and by the [deps] of an effect is one object.

    A computation has no result ([None]) when the source does not terminate
    (a cyclic chain of parents or of proxies, a chain of computed values that
    invalidate each other without end: the recursion of [triggerEffect] takes
    a bound) or when the state is outside the fragment.

    Part I holds the definitions, Part II the properties. *)

From Stdlib Require Import ZArith NArith Lia Ascii String.
From stdpp Require Import base option list gmap strings.


Local Open Scope string_scope.
Local Open Scope list_scope.
Local Open Scope nat_scope.

(** ** JavaScript values *)

Definition addr := nat.
Definition eid := nat.
Definition depid := nat.
Definition fnid := nat.
Definition scopeid := nat.

Inductive number :=
| NaN
| Inf (neg : bool)
| NegZero
| Int (z : Z).

Inductive value :=
| VUndef
| VNull
| VBool (b : bool)
| VNum (x : number)
| VStr (s : string)
| VObj (a : addr).

#[global] Instance number_eq_dec : EqDecision number.
Proof. solve_decision. Defined.

#[global] Instance value_eq_dec : EqDecision value.
Proof. solve_decision. Defined.

(** [Object.is] on numbers: NaN is itself, the two zeros differ. *)
Definition SameValueNumber (x y : number) : bool :=
  match x, y with
  | NaN, NaN => true
  | Inf a, Inf b => Bool.eqb a b
  | NegZero, NegZero => true
  | Int a, Int b => (a =? b)%Z
  | _, _ => false
  end.

(** [===] on numbers, for contrast: NaN differs from itself, the zeros agree. *)
Definition NumberEqual (x y : number) : bool :=
  match x, y with
  | NaN, _ | _, NaN => false
  | Inf a, Inf b => Bool.eqb a b
  | NegZero, NegZero => true
  | NegZero, Int z | Int z, NegZero => (z =? 0)%Z
  | Int a, Int b => (a =? b)%Z
  | _, _ => false
  end.

Definition Object_is (a b : value) : bool :=
  match a, b with
  | VUndef, VUndef => true
  | VNull, VNull => true
  | VBool x, VBool y => Bool.eqb x y
  | VNum x, VNum y => SameValueNumber x y
  | VStr x, VStr y => bool_decide (x = y)
  | VObj x, VObj y => Nat.eqb x y
  | _, _ => false
  end.

Definition StrictEquals (a b : value) : bool :=
  match a, b with
  | VNum x, VNum y => NumberEqual x y
  | _, _ => Object_is a b
  end.

(** [const hasChanged = (value, oldValue) => !Object.is(value, oldValue)] *)
Definition hasChanged (v oldValue : value) : bool := negb (Object_is v oldValue).

(** Truthiness, as [if (v)] and [!!v] read it. *)
Definition truthy (v : value) : bool :=
  match v with
  | VUndef | VNull => false
  | VBool b => b
  | VNum NaN | VNum NegZero => false
  | VNum (Int z) => negb (z =? 0)%Z
  | VNum (Inf _) => true
  | VStr s => negb (bool_decide (s = ""))
  | VObj _ => true
  end.

(** ** Property keys

    [digits_value] reads a string of decimal digits.  Integers are exact as
    JavaScript numbers up to [2^53]; a key that denotes a larger integer, or a
    numeric literal that is not a plain digit string, is outside the modelled
    fragment and the conversions answer [None] there. *)

Definition digit_of (c : ascii) : option N :=
  let n := Ascii.N_of_ascii c in
  if ((48 <=? n) && (n <=? 57))%N then Some (n - 48)%N else None.

Fixpoint digits_aux (s : string) (acc : N) : option N :=
  match s with
  | EmptyString => Some acc
  | String c r =>
      match digit_of c with
      | Some d => digits_aux r (10 * acc + d)%N
      | None => None
      end
  end.

Definition digits_value (s : string) : option N :=
  match s with
  | EmptyString => None
  | _ => digits_aux s 0%N
  end.

(** No leading zero, unless the string is ["0"] itself. *)
Definition canonical (s : string) : bool :=
  match s with
  | String c EmptyString => true
  | String c _ => negb (bool_decide (c = "0"%char))
  | EmptyString => false
  end.

Definition is_letter (c : ascii) : bool :=
  let n := Ascii.N_of_ascii c in
  (((65 <=? n) && (n <=? 90)) || ((97 <=? n) && (n <=? 122))
   || (n =? 95) || (n =? 36))%N.

Fixpoint all_letters (s : string) : bool :=
  match s with
  | EmptyString => true
  | String c r => is_letter c && all_letters r
  end.

Definition MAX_EXACT : N := (2 ^ 53)%N.

(** [Number(key)] for a string key. *)
Definition StringToNumber (s : string) : option number :=
  match s with
  | EmptyString => Some (Int 0)
  | _ =>
      match digits_value s with
      | Some n => if (n <=? MAX_EXACT)%N then Some (Int (Z.of_N n)) else None
      | None =>
          if all_letters s
          then Some (if bool_decide (s = "Infinity") then Inf false else NaN)
          else None
      end
  end.

(** [isIntegerKey]: a string, not ['NaN'], not starting with ['-'], equal to
    the decimal print of its [parseInt].  Only a canonical digit string passes. *)
Definition isIntegerKey (key : string) : option bool :=
  match digits_value key with
  | Some n =>
      if canonical key
      then (if (n <=? MAX_EXACT)%N then Some true else None)
      else Some false
  | None => Some false
  end.

(** The integer a canonical digit key denotes. *)
Definition index_of_key (key : string) : option N :=
  match digits_value key with
  | Some n => if canonical key && (n <=? MAX_EXACT)%N then Some n else None
  | None => None
  end.

(** [x >= y] on numbers: false as soon as one side is NaN. *)
Definition number_ge (x y : number) : bool :=
  match x, y with
  | NaN, _ | _, NaN => false
  | Inf false, _ => true
  | _, Inf true => true
  | Inf true, _ => false
  | _, Inf false => false
  | NegZero, NegZero => true
  | NegZero, Int b => (b <=? 0)%Z
  | Int a, NegZero => (0 <=? a)%Z
  | Int a, Int b => (b <=? a)%Z
  end.

Definition number_lt (x y : number) : bool :=
  match x, y with
  | NaN, _ | _, NaN => false
  | _, _ => negb (number_ge x y)
  end.

(** [ToNumber] on the primitive values other than strings. *)
Definition PrimToNumber (v : value) : option number :=
  match v with
  | VUndef => Some NaN
  | VNull => Some (Int 0)
  | VBool b => Some (Int (if b then 1 else 0))
  | VNum x => Some x
  | VStr s => StringToNumber s
  | VObj _ => None
  end.

Fixpoint string_leb (a b : string) : bool :=
  match a, b with
  | EmptyString, _ => true
  | String _ _, EmptyString => false
  | String x a', String y b' =>
      let nx := Ascii.N_of_ascii x in
      let ny := Ascii.N_of_ascii y in
      if (nx <? ny)%N then true
      else if (ny <? nx)%N then false
      else string_leb a' b'
  end.

(** [key >= newValue] with a string on the left: two strings compare by code
    units, anything else through [ToNumber]. *)
Definition key_ge (key : string) (newValue : value) : option bool :=
  match newValue with
  | VStr s => Some (string_leb s key)
  | VObj _ => None
  | _ =>
      match StringToNumber key, PrimToNumber newValue with
      | Some x, Some y => Some (number_ge x y)
      | _, _ => None
      end
  end.


(** ** Heap objects *)

(** What [toRawType] reports. *)
Inductive rawType := TObject | TArray | TMap | TSet | TWeakMap | TWeakSet | TOther.

#[global] Instance rawType_eq_dec : EqDecision rawType.
Proof. solve_decision. Defined.

(** An ordinary object or an array. *)
Record jsobj := {
  o_type : rawType;
  o_extensible : bool;
  o_skip : bool;
  o_length : N;
  o_props : gmap string value }.

(** The [_setter] of a computed value: the warning closure [computed] builds
    for a bare getter, the user's [set], or [undefined]. *)
Inductive csetter := SetterWarn | SetterFn (f : fnid) | SetterUndefined.

Record refimpl := {
  r_isShallow : bool;
  r_dep : option depid;
  r_rawValue : value;
  r_value : value }.

Record computedimpl := {
  c_setter : csetter;
  c_dep : option depid;
  c_isReadonly : bool;
  c_dirty : bool;
  c_effect : eid;
  c_cacheable : bool;
  c_value : value }.

Inductive hobj :=
| HObj (o : jsobj)
| HProxy (target : addr) (isReadonly shallow : bool)
| HRef (r : refimpl)
| HComputed (c : computedimpl)
| HFun (f : fnid)
| HRunner (e : eid).

(** ** Effects *)

(** The scheduler of an effect: the closure of [ComputedRefImpl], or a
    function supplied by the caller. *)
Inductive scheduler := SchedComputed (c : addr) | SchedFn (f : fnid).

Record ReactiveEffect := {
  e_fn : fnid;
  e_scheduler : option scheduler;
  e_active : bool;
  e_deps : list depid;
  e_parent : option eid;
  e_computed : option addr;
  e_allowRecurse : bool;
  e_onStop : option fnid }.

Record scope := {
  sc_active : bool;
  sc_effects : list eid }.

(** ** The state of the module

    The module-level variables of the IIFE, the heap, and two observation
    logs: [console] collects the calls of [console.warn], [calls] the calls
    the library makes to the functions of the caller, in the order in which
    they are entered. *)

Inductive warning :=
| WarnNotReactive (v : value)
| WarnSetReadonly (key : string) (target : addr)
| WarnDeleteReadonly (key : string) (target : addr)
| WarnComputedReadonly.

Record state := {
  heap : gmap addr hobj;
  effects : gmap eid ReactiveEffect;
  deps : gmap depid (list eid);
  targetMap : gmap addr (list (string * depid));
  reactiveMap : gmap addr addr;
  shallowReactiveMap : gmap addr addr;
  readonlyMap : gmap addr addr;
  shallowReadonlyMap : gmap addr addr;
  activeEffect : option eid;
  shouldTrack : bool;
  trackStack : list bool;
  activeEffectScope : option scopeid;
  scopes : gmap scopeid scope;
  console : list warning;
  calls : list (fnid * list value) }.

Definition upd_heap (f : gmap addr hobj -> gmap addr hobj) (s : state) : state :=
  {| heap := f (heap s);
     effects := effects s;
     deps := deps s;
     targetMap := targetMap s;
     reactiveMap := reactiveMap s;
     shallowReactiveMap := shallowReactiveMap s;
     readonlyMap := readonlyMap s;
     shallowReadonlyMap := shallowReadonlyMap s;
     activeEffect := activeEffect s;
     shouldTrack := shouldTrack s;
     trackStack := trackStack s;
     activeEffectScope := activeEffectScope s;
     scopes := scopes s;
     console := console s;
     calls := calls s |}.

Definition upd_effects (f : gmap eid ReactiveEffect -> gmap eid ReactiveEffect) (s : state) : state :=
  {| heap := heap s;
     effects := f (effects s);
     deps := deps s;
     targetMap := targetMap s;
     reactiveMap := reactiveMap s;
     shallowReactiveMap := shallowReactiveMap s;
     readonlyMap := readonlyMap s;
     shallowReadonlyMap := shallowReadonlyMap s;
     activeEffect := activeEffect s;
     shouldTrack := shouldTrack s;
     trackStack := trackStack s;
     activeEffectScope := activeEffectScope s;
     scopes := scopes s;
     console := console s;
     calls := calls s |}.

Definition upd_deps (f : gmap depid (list eid) -> gmap depid (list eid)) (s : state) : state :=
  {| heap := heap s;
     effects := effects s;
     deps := f (deps s);
     targetMap := targetMap s;
     reactiveMap := reactiveMap s;
     shallowReactiveMap := shallowReactiveMap s;
     readonlyMap := readonlyMap s;
     shallowReadonlyMap := shallowReadonlyMap s;
     activeEffect := activeEffect s;
     shouldTrack := shouldTrack s;
     trackStack := trackStack s;
     activeEffectScope := activeEffectScope s;
     scopes := scopes s;
     console := console s;
     calls := calls s |}.

Definition upd_targetMap (f : gmap addr (list (string * depid)) -> gmap addr (list (string * depid))) (s : state) : state :=
  {| heap := heap s;
     effects := effects s;
     deps := deps s;
     targetMap := f (targetMap s);
     reactiveMap := reactiveMap s;
     shallowReactiveMap := shallowReactiveMap s;
     readonlyMap := readonlyMap s;
     shallowReadonlyMap := shallowReadonlyMap s;
     activeEffect := activeEffect s;
     shouldTrack := shouldTrack s;
     trackStack := trackStack s;
     activeEffectScope := activeEffectScope s;
     scopes := scopes s;
     console := console s;
     calls := calls s |}.

Definition upd_reactiveMap (f : gmap addr addr -> gmap addr addr) (s : state) : state :=
  {| heap := heap s;
     effects := effects s;
     deps := deps s;
     targetMap := targetMap s;
     reactiveMap := f (reactiveMap s);
     shallowReactiveMap := shallowReactiveMap s;
     readonlyMap := readonlyMap s;
     shallowReadonlyMap := shallowReadonlyMap s;
     activeEffect := activeEffect s;
     shouldTrack := shouldTrack s;
     trackStack := trackStack s;
     activeEffectScope := activeEffectScope s;
     scopes := scopes s;
     console := console s;
     calls := calls s |}.

Definition upd_shallowReactiveMap (f : gmap addr addr -> gmap addr addr) (s : state) : state :=
  {| heap := heap s;
     effects := effects s;
     deps := deps s;
     targetMap := targetMap s;
     reactiveMap := reactiveMap s;
     shallowReactiveMap := f (shallowReactiveMap s);
     readonlyMap := readonlyMap s;
     shallowReadonlyMap := shallowReadonlyMap s;
     activeEffect := activeEffect s;
     shouldTrack := shouldTrack s;
     trackStack := trackStack s;
     activeEffectScope := activeEffectScope s;
     scopes := scopes s;
     console := console s;
     calls := calls s |}.

Definition upd_readonlyMap (f : gmap addr addr -> gmap addr addr) (s : state) : state :=
  {| heap := heap s;
     effects := effects s;
     deps := deps s;
     targetMap := targetMap s;
     reactiveMap := reactiveMap s;
     shallowReactiveMap := shallowReactiveMap s;
     readonlyMap := f (readonlyMap s);
     shallowReadonlyMap := shallowReadonlyMap s;
     activeEffect := activeEffect s;
     shouldTrack := shouldTrack s;
     trackStack := trackStack s;
     activeEffectScope := activeEffectScope s;
     scopes := scopes s;
     console := console s;
     calls := calls s |}.

Definition upd_shallowReadonlyMap (f : gmap addr addr -> gmap addr addr) (s : state) : state :=
  {| heap := heap s;
     effects := effects s;
     deps := deps s;
     targetMap := targetMap s;
     reactiveMap := reactiveMap s;
     shallowReactiveMap := shallowReactiveMap s;
     readonlyMap := readonlyMap s;
     shallowReadonlyMap := f (shallowReadonlyMap s);
     activeEffect := activeEffect s;
     shouldTrack := shouldTrack s;
     trackStack := trackStack s;
     activeEffectScope := activeEffectScope s;
     scopes := scopes s;
     console := console s;
     calls := calls s |}.

Definition upd_activeEffect (f : option eid -> option eid) (s : state) : state :=
  {| heap := heap s;
     effects := effects s;
     deps := deps s;
     targetMap := targetMap s;
     reactiveMap := reactiveMap s;
     shallowReactiveMap := shallowReactiveMap s;
     readonlyMap := readonlyMap s;
     shallowReadonlyMap := shallowReadonlyMap s;
     activeEffect := f (activeEffect s);
     shouldTrack := shouldTrack s;
     trackStack := trackStack s;
     activeEffectScope := activeEffectScope s;
     scopes := scopes s;
     console := console s;
     calls := calls s |}.

Definition upd_shouldTrack (f : bool -> bool) (s : state) : state :=
  {| heap := heap s;
     effects := effects s;
     deps := deps s;
     targetMap := targetMap s;
     reactiveMap := reactiveMap s;
     shallowReactiveMap := shallowReactiveMap s;
     readonlyMap := readonlyMap s;
     shallowReadonlyMap := shallowReadonlyMap s;
     activeEffect := activeEffect s;
     shouldTrack := f (shouldTrack s);
     trackStack := trackStack s;
     activeEffectScope := activeEffectScope s;
     scopes := scopes s;
     console := console s;
     calls := calls s |}.

Definition upd_trackStack (f : list bool -> list bool) (s : state) : state :=
  {| heap := heap s;
     effects := effects s;
     deps := deps s;
     targetMap := targetMap s;
     reactiveMap := reactiveMap s;
     shallowReactiveMap := shallowReactiveMap s;
     readonlyMap := readonlyMap s;
     shallowReadonlyMap := shallowReadonlyMap s;
     activeEffect := activeEffect s;
     shouldTrack := shouldTrack s;
     trackStack := f (trackStack s);
     activeEffectScope := activeEffectScope s;
     scopes := scopes s;
     console := console s;
     calls := calls s |}.

Definition upd_activeEffectScope (f : option scopeid -> option scopeid) (s : state) : state :=
  {| heap := heap s;
     effects := effects s;
     deps := deps s;
     targetMap := targetMap s;
     reactiveMap := reactiveMap s;
     shallowReactiveMap := shallowReactiveMap s;
     readonlyMap := readonlyMap s;
     shallowReadonlyMap := shallowReadonlyMap s;
     activeEffect := activeEffect s;
     shouldTrack := shouldTrack s;
     trackStack := trackStack s;
     activeEffectScope := f (activeEffectScope s);
     scopes := scopes s;
     console := console s;
     calls := calls s |}.

Definition upd_scopes (f : gmap scopeid scope -> gmap scopeid scope) (s : state) : state :=
  {| heap := heap s;
     effects := effects s;
     deps := deps s;
     targetMap := targetMap s;
     reactiveMap := reactiveMap s;
     shallowReactiveMap := shallowReactiveMap s;
     readonlyMap := readonlyMap s;
     shallowReadonlyMap := shallowReadonlyMap s;
     activeEffect := activeEffect s;
     shouldTrack := shouldTrack s;
     trackStack := trackStack s;
     activeEffectScope := activeEffectScope s;
     scopes := f (scopes s);
     console := console s;
     calls := calls s |}.

Definition upd_console (f : list warning -> list warning) (s : state) : state :=
  {| heap := heap s;
     effects := effects s;
     deps := deps s;
     targetMap := targetMap s;
     reactiveMap := reactiveMap s;
     shallowReactiveMap := shallowReactiveMap s;
     readonlyMap := readonlyMap s;
     shallowReadonlyMap := shallowReadonlyMap s;
     activeEffect := activeEffect s;
     shouldTrack := shouldTrack s;
     trackStack := trackStack s;
     activeEffectScope := activeEffectScope s;
     scopes := scopes s;
     console := f (console s);
     calls := calls s |}.

Definition upd_calls (f : list (fnid * list value) -> list (fnid * list value)) (s : state) : state :=
  {| heap := heap s;
     effects := effects s;
     deps := deps s;
     targetMap := targetMap s;
     reactiveMap := reactiveMap s;
     shallowReactiveMap := shallowReactiveMap s;
     readonlyMap := readonlyMap s;
     shallowReadonlyMap := shallowReadonlyMap s;
     activeEffect := activeEffect s;
     shouldTrack := shouldTrack s;
     trackStack := trackStack s;
     activeEffectScope := activeEffectScope s;
     scopes := scopes s;
     console := console s;
     calls := f (calls s) |}.

Definition initial_state : state :=
  {| heap := ∅; effects := ∅; deps := ∅; targetMap := ∅;
     reactiveMap := ∅; shallowReactiveMap := ∅; readonlyMap := ∅;
     shallowReadonlyMap := ∅;
     activeEffect := None; shouldTrack := true; trackStack := [];
     activeEffectScope := None; scopes := ∅; console := []; calls := [] |}.

(** ** Computations

    A library function either completes normally, throws, or has no result
    ([None]): it does not terminate, or the state is outside the modelled
    fragment. *)

Inductive completion (A : Type) :=
| Normal (a : A)
| Throw (exn : value).
Arguments Normal {A} a.
Arguments Throw {A} exn.

Definition M (A : Type) : Type := state -> option (completion A * state).

Definition ret {A} (a : A) : M A := fun s => Some (Normal a, s).
Definition throw {A} (exn : value) : M A := fun s => Some (Throw exn, s).
Definition stuck {A} : M A := fun _ => None.

Definition bind {A B} (m : M A) (k : A -> M B) : M B :=
  fun s =>
    match m s with
    | Some (Normal a, s') => k a s'
    | Some (Throw exn, s') => Some (Throw exn, s')
    | None => None
    end.

Notation "'let*' x ':=' c 'in' k" := (bind c (fun x => k))
  (at level 10, x pattern, c at level 100, k at level 200).
Notation "c ';;' k" := (bind c (fun _ => k))
  (at level 100, k at level 200, right associativity).

Definition gets {A} (f : state -> A) : M A := fun s => Some (Normal (f s), s).
Definition modify (f : state -> state) : M unit := fun s => Some (Normal tt, f s).
Definition liftO {A} (f : state -> option A) : M A :=
  fun s => match f s with Some a => Some (Normal a, s) | None => None end.

(** [try { body } finally { fin }] *)
Definition finally {A} (body : M A) (fin : M unit) : M A :=
  fun s =>
    match body s with
    | None => None
    | Some (c, s') =>
        match fin s' with
        | Some (Normal _, s'') => Some (c, s'')
        | Some (Throw exn, s'') => Some (Throw exn, s'')
        | None => None
        end
    end.

(** [for (const x of xs) body(x)] *)
Fixpoint for_each {A} (xs : list A) (body : A -> M unit) : M unit :=
  match xs with
  | [] => ret tt
  | x :: rest => body x ;; for_each rest body
  end.

Definition when (b : bool) (m : M unit) : M unit := if b then m else ret tt.

(** The functions of the caller.  [apply_fn f args] is what calling the
    function [f] does to the state and what it returns or throws. *)
Class Host := {
  apply_fn : fnid -> list value -> state -> completion value * state }.

Definition TypeError (msg : string) : value :=
  VStr (String.append "TypeError: " msg).

Definition warn (line : warning) : M unit :=
  modify (upd_console (fun l => l ++ [line])).

(** ** Dependency sets and maps

    A [Set] of effects is the list of its members in insertion order; a [Map]
    from keys to sets is an association list in insertion order. *)

Definition set_add (e : eid) (l : list eid) : list eid :=
  if bool_decide (e ∈ l) then l else l ++ [e].

Definition set_delete (e : eid) (l : list eid) : list eid :=
  filter (fun x => x ≠ e) l.

(** [new Set(effects)] *)
Definition createDep (effs : list eid) : list eid :=
  foldl (fun acc e => set_add e acc) [] effs.

Fixpoint map_get {V} (m : list (string * V)) (k : string) : option V :=
  match m with
  | [] => None
  | (k', v) :: rest => if bool_decide (k' = k) then Some v else map_get rest k
  end.

Fixpoint map_set {V} (m : list (string * V)) (k : string) (v : V) : list (string * V) :=
  match m with
  | [] => [(k, v)]
  | (k', v') :: rest =>
      if bool_decide (k' = k) then (k, v) :: rest else (k', v') :: map_set rest k v
  end.

(** ** Access to the heap *)

Definition set_e_parent (p : option eid) (E : ReactiveEffect) : ReactiveEffect :=
  {| e_fn := e_fn E; e_scheduler := e_scheduler E; e_active := e_active E;
     e_deps := e_deps E; e_parent := p; e_computed := e_computed E;
     e_allowRecurse := e_allowRecurse E; e_onStop := e_onStop E |}.

Definition set_e_active (b : bool) (E : ReactiveEffect) : ReactiveEffect :=
  {| e_fn := e_fn E; e_scheduler := e_scheduler E; e_active := b;
     e_deps := e_deps E; e_parent := e_parent E; e_computed := e_computed E;
     e_allowRecurse := e_allowRecurse E; e_onStop := e_onStop E |}.

Definition set_e_deps (l : list depid) (E : ReactiveEffect) : ReactiveEffect :=
  {| e_fn := e_fn E; e_scheduler := e_scheduler E; e_active := e_active E;
     e_deps := l; e_parent := e_parent E; e_computed := e_computed E;
     e_allowRecurse := e_allowRecurse E; e_onStop := e_onStop E |}.

Definition set_c_dirty (b : bool) (C : computedimpl) : computedimpl :=
  {| c_setter := c_setter C; c_dep := c_dep C; c_isReadonly := c_isReadonly C;
     c_dirty := b; c_effect := c_effect C; c_cacheable := c_cacheable C;
     c_value := c_value C |}.

Definition set_c_value (v : value) (C : computedimpl) : computedimpl :=
  {| c_setter := c_setter C; c_dep := c_dep C; c_isReadonly := c_isReadonly C;
     c_dirty := c_dirty C; c_effect := c_effect C; c_cacheable := c_cacheable C;
     c_value := v |}.

Definition set_c_dep (d : option depid) (C : computedimpl) : computedimpl :=
  {| c_setter := c_setter C; c_dep := d; c_isReadonly := c_isReadonly C;
     c_dirty := c_dirty C; c_effect := c_effect C; c_cacheable := c_cacheable C;
     c_value := c_value C |}.

Definition set_r_dep (d : option depid) (r : refimpl) : refimpl :=
  {| r_isShallow := r_isShallow r; r_dep := d; r_rawValue := r_rawValue r;
     r_value := r_value r |}.

Definition set_r_values (raw v : value) (r : refimpl) : refimpl :=
  {| r_isShallow := r_isShallow r; r_dep := r_dep r; r_rawValue := raw;
     r_value := v |}.

Definition get_effect (e : eid) : M ReactiveEffect := liftO (fun s => effects s !! e).

Definition upd_effect (e : eid) (f : ReactiveEffect -> ReactiveEffect) : M unit :=
  let* _ := get_effect e in modify (upd_effects (alter f e)).

Definition get_dep (d : depid) : M (list eid) := liftO (fun s => deps s !! d).

Definition get_computed (c : addr) : M computedimpl :=
  liftO (fun s => match heap s !! c with Some (HComputed C) => Some C | _ => None end).

Definition upd_computed (c : addr) (f : computedimpl -> computedimpl) : M unit :=
  let* C := get_computed c in modify (upd_heap (insert c (HComputed (f C)))).

Definition get_ref (a : addr) : M refimpl :=
  liftO (fun s => match heap s !! a with Some (HRef r) => Some r | _ => None end).

Definition upd_ref (a : addr) (f : refimpl -> refimpl) : M unit :=
  let* r := get_ref a in modify (upd_heap (insert a (HRef (f r)))).

(** Allocation: a fresh identity. *)
Definition alloc (o : hobj) : M addr :=
  fun s => let a := fresh (dom (heap s)) in
           Some (Normal a, upd_heap (insert a o) s).

Definition new_dep (content : list eid) : M depid :=
  fun s => let d := fresh (dom (deps s)) in
           Some (Normal d, upd_deps (insert d content) s).

Definition new_effect (E : ReactiveEffect) : M eid :=
  fun s => let e := fresh (dom (effects s)) in
           Some (Normal e, upd_effects (insert e E) s).

(** ** Marker reads

    [value["__v_isReadonly"]], [value["__v_isShallow"]], [r.__v_isRef] and
    [observed["__v_raw"]] go through the [get] trap when the value is a proxy;
    the trap answers the first two from its own flags, hands [__v_isRef] to
    its target untracked, and answers [__v_raw] with the target when the
    receiver is the cached proxy of that target. *)

Definition isReadonly (s : state) (v : value) : bool :=
  match v with
  | VObj a =>
      match heap s !! a with
      | Some (HProxy _ ro _) => ro
      | Some (HComputed C) => c_isReadonly C
      | _ => false
      end
  | _ => false
  end.

Definition isShallow (s : state) (v : value) : bool :=
  match v with
  | VObj a =>
      match heap s !! a with
      | Some (HProxy _ _ sh) => sh
      | Some (HRef r) => r_isShallow r
      | _ => false
      end
  | _ => false
  end.

Fixpoint isRef_fuel (n : nat) (s : state) (v : value) : option bool :=
  match v with
  | VObj a =>
      match heap s !! a with
      | Some (HRef _) | Some (HComputed _) => Some true
      | Some (HProxy t _ _) =>
          match n with
          | O => None
          | S n' => isRef_fuel n' s (VObj t)
          end
      | Some _ => Some false
      | None => None
      end
  | _ => Some false
  end.

Definition isRef (s : state) (v : value) : option bool :=
  isRef_fuel (size (heap s)) s v.

Definition proxyMapOf (s : state) (ro sh : bool) : gmap addr addr :=
  if ro then (if sh then shallowReadonlyMap s else readonlyMap s)
  else (if sh then shallowReactiveMap s else reactiveMap s).

Definition upd_proxyMap (ro sh : bool) (f : gmap addr addr -> gmap addr addr)
    : state -> state :=
  if ro then (if sh then upd_shallowReadonlyMap f else upd_readonlyMap f)
  else (if sh then upd_shallowReactiveMap f else upd_reactiveMap f).

(** [observed["__v_raw"]] *)
Definition get_v_raw (s : state) (a : addr) : option value :=
  match heap s !! a with
  | Some (HProxy t ro sh) =>
      if bool_decide (proxyMapOf s ro sh !! t = Some a) then Some (VObj t) else None
  | Some _ => Some VUndef
  | None => None
  end.

Fixpoint toRaw_fuel (n : nat) (s : state) (observed : value) : option value :=
  match observed with
  | VObj a =>
      match get_v_raw s a with
      | Some raw =>
          if truthy raw
          then match n with
               | O => None
               | S n' => toRaw_fuel n' s raw
               end
          else Some observed
      | None => None
      end
  | _ => Some observed
  end.

Definition toRaw (s : state) (observed : value) : option value :=
  toRaw_fuel (size (heap s)) s observed.

(** [toRawType], through proxies. *)
Fixpoint rawType_fuel (n : nat) (s : state) (a : addr) : option rawType :=
  match heap s !! a with
  | Some (HObj o) => Some (o_type o)
  | Some (HRef _) | Some (HComputed _) => Some TObject
  | Some (HFun _) | Some (HRunner _) => Some TOther
  | Some (HProxy t _ _) =>
      match n with
      | O => None
      | S n' =>
          match rawType_fuel n' s t with
          | Some TOther => None
          | r => r
          end
      end
  | None => None
  end.

Definition toRawType (s : state) (a : addr) : option rawType :=
  rawType_fuel (size (heap s)) s a.

Definition isObject (s : state) (v : value) : option bool :=
  match v with
  | VObj a =>
      match heap s !! a with
      | Some (HFun _) | Some (HRunner _) => Some false
      | Some _ => Some true
      | None => None
      end
  | _ => Some false
  end.

(** ** ReactiveEffect *)

(** The log with one more call. *)
Definition logged (f : fnid) (args : list value) (s : state) : state :=
  upd_calls (fun l => l ++ [(f, args)]) s.

(** A call of a function of the caller.  The call is entered in [calls]
    before the function runs: the calls the function makes in turn, through
    the library, follow it in the log. *)
Definition invoke `{Host} (f : fnid) (args : list value) : M value :=
  fun s => Some (apply_fn f args (logged f args s)).

(** [while (parent) { if (parent === this) return; parent = parent.parent }] *)
Fixpoint isAncestor (n : nat) (s : state) (parent : option eid) (this : eid)
    : option bool :=
  match parent with
  | None => Some false
  | Some p =>
      if bool_decide (p = this) then Some true
      else match n with
           | O => None
           | S n' =>
               match effects s !! p with
               | Some P => isAncestor n' s (e_parent P) this
               | None => None
               end
           end
  end.

(** [ReactiveEffect.prototype.run] *)
Definition run `{Host} (this : eid) : M value :=
  let* E := get_effect this in
  if negb (e_active E) then invoke (e_fn E) []
  else
    let* parent := gets activeEffect in
    let* lastShouldTrack := gets shouldTrack in
    let* found := liftO (fun s => isAncestor (size (effects s)) s parent this) in
    if found then ret VUndef
    else
      finally
        (upd_effect this (set_e_parent parent) ;;
         modify (upd_activeEffect (fun _ => Some this)) ;;
         modify (upd_shouldTrack (fun _ => true)) ;;
         let* E' := get_effect this in
         invoke (e_fn E') [])
        (let* E' := get_effect this in
         modify (upd_activeEffect (fun _ => e_parent E')) ;;
         modify (upd_shouldTrack (fun _ => lastShouldTrack)) ;;
         upd_effect this (set_e_parent None)).

(** [cleanupEffect] *)
Definition cleanupEffect (e : eid) : M unit :=
  let* E := get_effect e in
  for_each (e_deps E) (fun d =>
    let* _ := get_dep d in modify (upd_deps (alter (set_delete e) d))) ;;
  upd_effect e (set_e_deps []).

(** [ReactiveEffect.prototype.stop] *)
Definition stop_effect `{Host} (this : eid) : M unit :=
  let* E := get_effect this in
  if e_active E then
    cleanupEffect this ;;
    let* E' := get_effect this in
    match e_onStop E' with
    | Some f => invoke f [] ;; ret tt
    | None => ret tt
    end ;;
    upd_effect this (set_e_active false)
  else ret tt.

(** ** track *)

(** [trackEffects(dep)]; both callers have tested [activeEffect]. *)
Definition trackEffects (d : depid) : M unit :=
  let* ae := gets activeEffect in
  match ae with
  | None => stuck
  | Some e =>
      let* content := get_dep d in
      if bool_decide (e ∈ content) then ret tt
      else
        modify (upd_deps (insert d (content ++ [e]))) ;;
        let* E := get_effect e in
        upd_effect e (set_e_deps (e_deps E ++ [d]))
  end.

(** [track(target, type, key)] *)
Definition track (target : addr) (key : string) : M unit :=
  let* st := gets shouldTrack in
  let* ae := gets activeEffect in
  match st, ae with
  | true, Some _ =>
      let* found := gets (fun s => targetMap s !! target) in
      let depsMap := default [] found in
      match map_get depsMap key with
      | Some d => trackEffects d
      | None =>
          let* d := new_dep [] in
          modify (upd_targetMap (insert target (map_set depsMap key d))) ;;
          trackEffects d
      end
  | _, _ => ret tt
  end.

(** [ref.dep] of a ref or a computed value *)
Definition dep_of (a : addr) : M (option depid) :=
  liftO (fun s =>
    match heap s !! a with
    | Some (HRef r) => Some (r_dep r)
    | Some (HComputed C) => Some (c_dep C)
    | _ => None
    end).

Definition set_dep_of (a : addr) (d : depid) : M unit :=
  let* o := liftO (fun s => heap s !! a) in
  match o with
  | HRef r => modify (upd_heap (insert a (HRef (set_r_dep (Some d) r))))
  | HComputed C => modify (upd_heap (insert a (HComputed (set_c_dep (Some d) C))))
  | _ => stuck
  end.

(** [trackRefValue(ref)] *)
Definition trackRefValue (ref : value) : M unit :=
  let* st := gets shouldTrack in
  let* ae := gets activeEffect in
  match st, ae with
  | true, Some _ =>
      let* raw := liftO (fun s => toRaw s ref) in
      match raw with
      | VObj a =>
          let* d := dep_of a in
          match d with
          | Some d => trackEffects d
          | None => let* d := new_dep [] in set_dep_of a d ;; trackEffects d
          end
      | _ => stuck
      end
  | _, _ => ret tt
  end.

(** ** trigger *)

Definition is_computed_effect (E : ReactiveEffect) : bool :=
  match e_computed E with Some _ => true | None => false end.

(** [triggerEffects], over the reaction [te] of one effect: two passes over
    the same snapshot of the set. *)
Definition triggerEffects_with (te : eid -> M unit) (effs : list eid) : M unit :=
  for_each effs (fun e =>
    let* E := get_effect e in when (is_computed_effect E) (te e)) ;;
  for_each effs (fun e =>
    let* E := get_effect e in when (negb (is_computed_effect E)) (te e)).

(** [triggerRefValue], over the reaction [te] of one effect. *)
Definition triggerRefValue_with (te : eid -> M unit) (ref : value) : M unit :=
  let* raw := liftO (fun s => toRaw s ref) in
  match raw with
  | VObj a =>
      let* d := dep_of a in
      match d with
      | Some d => let* effs := get_dep d in triggerEffects_with te effs
      | None => ret tt
      end
  | _ => stuck
  end.

(** The scheduler closure of [ComputedRefImpl]:
    [() => { if (!this._dirty) { this._dirty = true; triggerRefValue(this) } }] *)
Definition computed_scheduler_with (te : eid -> M unit) (c : addr) : M unit :=
  let* C := get_computed c in
  if negb (c_dirty C) then
    upd_computed c (set_c_dirty true) ;;
    triggerRefValue_with te (VObj c)
  else ret tt.

(** [triggerEffect].  A computed scheduler notifies the dependents of its
    computed value, which may be computed effects in turn: the recursion is
    bounded by [n]. *)
Fixpoint triggerEffect `{Host} (n : nat) (e : eid) : M unit :=
  match n with
  | O => stuck
  | S n' =>
      let* E := get_effect e in
      let* ae := gets activeEffect in
      if negb (bool_decide (ae = Some e)) || e_allowRecurse E then
        match e_scheduler E with
        | Some (SchedFn f) => invoke f [] ;; ret tt
        | Some (SchedComputed c) => computed_scheduler_with (triggerEffect n') c
        | None => run e ;; ret tt
        end
      else ret tt
  end.

Definition triggerEffects `{Host} (n : nat) (effs : list eid) : M unit :=
  triggerEffects_with (triggerEffect n) effs.

Definition triggerRefValue `{Host} (n : nat) (ref : value) : M unit :=
  triggerRefValue_with (triggerEffect n) ref.

Definition computed_scheduler `{Host} (n : nat) (c : addr) : M unit :=
  computed_scheduler_with (triggerEffect n) c.

Inductive TriggerOp := OpSet | OpAdd | OpDelete | OpClear.

(** The body of [depsMap.forEach] in the length branch of [trigger]. *)
Fixpoint length_deps (depsMap : list (string * depid)) (newValue : value)
    : option (list (option depid)) :=
  match depsMap with
  | [] => Some []
  | (key, dep) :: rest =>
      match (if bool_decide (key = "length") then Some true else key_ge key newValue) with
      | Some b =>
          match length_deps rest newValue with
          | Some l => Some (if b then Some dep :: l else l)
          | None => None
          end
      | None => None
      end
  end.

(** The [deps] array [trigger] builds. *)
Definition trigger_deps (depsMap : list (string * depid)) (isArr isMap : bool)
    (type : TriggerOp) (key : option string) (newValue : value)
    : option (list (option depid)) :=
  match type with
  | OpClear => Some (map (fun kd => Some (snd kd)) depsMap)
  | _ =>
      if bool_decide (key = Some "length") && isArr
      then length_deps depsMap newValue
      else
        let first :=
          match key with
          | Some k => [map_get depsMap k]
          | None => []
          end in
        match type with
        | OpAdd =>
            if negb isArr then
              Some (first ++ [map_get depsMap ""]
                          ++ (if isMap then [map_get depsMap ""] else []))
            else
              match key with
              | Some k =>
                  match isIntegerKey k with
                  | Some true => Some (first ++ [map_get depsMap "length"])
                  | Some false => Some first
                  | None => None
                  end
              | None => Some first
              end
        | OpDelete =>
            if negb isArr then
              Some (first ++ [map_get depsMap ""]
                          ++ (if isMap then [map_get depsMap ""] else []))
            else Some first
        | OpSet => Some (first ++ (if isMap then [map_get depsMap ""] else []))
        | OpClear => Some first
        end
  end.

(** [for (const dep of deps) if (dep) effects.push(...dep)] *)
Fixpoint collect_effects (ds : list (option depid)) : M (list eid) :=
  match ds with
  | [] => ret []
  | None :: rest => collect_effects rest
  | Some d :: rest =>
      let* effs := get_dep d in
      let* more := collect_effects rest in
      ret (effs ++ more)
  end.

(** [trigger(target, type, key, newValue)] *)
Definition trigger `{Host} (n : nat) (target : addr) (type : TriggerOp)
    (key : option string) (newValue : value) : M unit :=
  let* found := gets (fun s => targetMap s !! target) in
  match found with
  | None => ret tt
  | Some depsMap =>
      let* ty := liftO (fun s => toRawType s target) in
      let* ds := liftO (fun _ =>
        trigger_deps depsMap (bool_decide (ty = TArray)) (bool_decide (ty = TMap))
                     type key newValue) in
      match ds with
      | [d] =>
          match d with
          | Some d => let* effs := get_dep d in triggerEffects n effs
          | None => ret tt
          end
      | _ =>
          let* effs := collect_effects ds in
          triggerEffects n (createDep effs)
      end
  end.

(** ** Ordinary objects and arrays *)

Definition set_o_props (f : gmap string value -> gmap string value) (o : jsobj) : jsobj :=
  {| o_type := o_type o; o_extensible := o_extensible o; o_skip := o_skip o;
     o_length := o_length o; o_props := f (o_props o) |}.

Definition set_o_length (n : N) (o : jsobj) : jsobj :=
  {| o_type := o_type o; o_extensible := o_extensible o; o_skip := o_skip o;
     o_length := n; o_props := o_props o |}.

Definition set_o_skip (b : bool) (o : jsobj) : jsobj :=
  {| o_type := o_type o; o_extensible := o_extensible o; o_skip := b;
     o_length := o_length o; o_props := o_props o |}.

Definition isArrayObj (o : jsobj) : bool := bool_decide (o_type o = TArray).

(** An array index: a canonical digit string below [2^32 - 1]. *)
Definition array_index (key : string) : option N :=
  match digits_value key with
  | Some n => if canonical key && (n <? 4294967295)%N then Some n else None
  | None => None
  end.

(** The names of the properties of the initial [Object.prototype]; all are
    writable data properties but [__proto__], which is an accessor. *)
Definition Object_prototype_keys : list string :=
  ["constructor"; "hasOwnProperty"; "isPrototypeOf"; "propertyIsEnumerable";
   "toLocaleString"; "toString"; "valueOf"; "__proto__";
   "__defineGetter__"; "__defineSetter__"; "__lookupGetter__";
   "__lookupSetter__"].

(** The names of the properties of the initial [Array.prototype]; all are
    writable data properties. *)
Definition Array_prototype_keys : list string :=
  ["length"; "constructor"; "at"; "concat"; "copyWithin"; "entries"; "every";
   "fill"; "filter"; "find"; "findIndex"; "findLast"; "findLastIndex"; "flat";
   "flatMap"; "forEach"; "includes"; "indexOf"; "join"; "keys"; "lastIndexOf";
   "map"; "pop"; "push"; "reduce"; "reduceRight"; "reverse"; "shift"; "slice";
   "some"; "sort"; "splice"; "toLocaleString"; "toReversed"; "toSorted";
   "toSpliced"; "toString"; "unshift"; "values"; "with"].

(** [key in Object.getPrototypeOf(target)] *)
Definition inherited (o : jsobj) (key : string) : bool :=
  bool_decide (key ∈ Object_prototype_keys)
  || (isArrayObj o && bool_decide (key ∈ Array_prototype_keys)).

(** The own property [key], with the [length] of an array. *)
Definition obj_get_own (o : jsobj) (key : string) : option value :=
  if isArrayObj o && bool_decide (key = "length")
  then Some (VNum (Int (Z.of_N (o_length o))))
  else o_props o !! key.

(** [hasOwn(target, key)] *)
Definition obj_hasOwn (o : jsobj) (key : string) : bool :=
  match obj_get_own o key with Some _ => true | None => false end.

(** [target[key]], for a key that the target has or that its prototype has
    not: the own property, or [undefined]. *)
Definition obj_get (o : jsobj) (key : string) : value :=
  default VUndef (obj_get_own o key).

(** The read [target[key]] stays within the target: the key is an own
    property, or it is nowhere on the prototype chain. *)
Definition reads_own (o : jsobj) (key : string) : bool :=
  obj_hasOwn o key || negb (inherited o key).

(** [Reflect.get(target, key, receiver)]; a property of the prototype has no
    value in the model. *)
Definition Reflect_get (o : jsobj) (key : string) : option value :=
  if reads_own o key then Some (obj_get o key) else None.

(** The length a value denotes in [array.length = v]: [Some None] is the
    RangeError of an invalid length. *)
Definition ToArrayLength (v : value) : option (option N) :=
  match PrimToNumber v with
  | Some (Int z) =>
      if ((0 <=? z) && (z <? 4294967296))%Z then Some (Some (Z.to_N z)) else Some None
  | Some NegZero => Some (Some 0%N)
  | Some _ => Some None
  | None => None
  end.

Definition RangeError : value := VStr "RangeError: Invalid array length".

(** [Reflect.set(target, key, value, receiver)] when the receiver stands for
    the target itself.  A key the target has not is looked up on the
    prototype: over a data property, which is writable, or over nothing, the
    write makes an own property of the target if the target is extensible;
    [__proto__] is an accessor, and calling it is outside the model. *)
Definition obj_set (o : jsobj) (key : string) (v : value)
    : option (completion bool * jsobj) :=
  if isArrayObj o && bool_decide (key = "length") then
    match ToArrayLength v with
    | None => None
    | Some None => Some (Throw RangeError, o)
    | Some (Some n) =>
        let keep (kv : string * value) :=
          match array_index kv.1 with
          | Some i => (i <? n)%N
          | None => true
          end in
        Some (Normal true,
              set_o_length n (set_o_props (filter (fun kv => keep kv = true)) o))
    end
  else
    match o_props o !! key with
    | Some _ => Some (Normal true, set_o_props (insert key v) o)
    | None =>
        if bool_decide (key = "__proto__") then None
        else if o_extensible o then
          let o' := set_o_props (insert key v) o in
          Some (Normal true,
                match array_index key with
                | Some i =>
                    if isArrayObj o && (o_length o <=? i)%N
                    then set_o_length (i + 1)%N o' else o'
                | None => o'
                end)
        else Some (Normal false, o)
    end.

Definition get_obj (a : addr) : M jsobj :=
  liftO (fun s => match heap s !! a with Some (HObj o) => Some o | _ => None end).

(** ** Wrapping: reactive, shallowReactive, readonly, shallowReadonly *)

Definition targetTypeMap (rawType : rawType) : nat :=
  match rawType with
  | TObject | TArray => 1
  | TMap | TSet | TWeakMap | TWeakSet => 2
  | TOther => 0
  end.

(** [value["__v_skip"]]: a ordinary read; through a proxy it passes the [get]
    trap of every layer, which tracks the key unless the layer is read-only. *)
Fixpoint get_v_skip (n : nat) (a : addr) : M value :=
  let* o := liftO (fun s => heap s !! a) in
  match o with
  | HObj ob => ret (if o_skip ob then VBool true else VUndef)
  | HProxy t ro _ =>
      match n with
      | O => stuck
      | S n' =>
          let* res := get_v_skip n' t in
          (if ro then ret tt else track t "__v_skip") ;;
          ret res
      end
  | _ => ret VUndef
  end.

(** [Object.isExtensible(value)] *)
Fixpoint isExtensible_fuel (n : nat) (s : state) (a : addr) : option bool :=
  match heap s !! a with
  | Some (HObj o) => Some (o_extensible o)
  | Some (HProxy t _ _) =>
      match n with
      | O => None
      | S n' => isExtensible_fuel n' s t
      end
  | Some _ => Some true
  | None => None
  end.

(** [getTargetType(value)] *)
Definition getTargetType (a : addr) : M nat :=
  let* n := gets (fun s => size (heap s)) in
  let* skip := get_v_skip n a in
  if truthy skip then ret 0
  else
    let* ext := liftO (fun s => isExtensible_fuel (size (heap s)) s a) in
    if negb ext then ret 0
    else
      let* ty := liftO (fun s => toRawType s a) in
      ret (targetTypeMap ty).

(** [target["__v_isReactive"]] *)
Definition get_v_isReactive (s : state) (a : addr) : bool :=
  match heap s !! a with
  | Some (HProxy _ ro _) => negb ro
  | _ => false
  end.

(** [createReactiveObject(target, isReadonly, baseHandlers, collectionHandlers,
    proxyMap)].  The four callers fix the handlers and the cache by the two
    flags; [collectionHandlers] is [null] in all four, so a collection target
    makes [new Proxy] throw. *)
Definition createReactiveObject (target : value) (ro sh : bool) : M value :=
  let* isObj := liftO (fun s => isObject s target) in
  if negb isObj then warn (WarnNotReactive target) ;; ret target
  else
    match target with
    | VObj a =>
        let* raw := liftO (fun s => get_v_raw s a) in
        let* isReactiveMark := gets (fun s => get_v_isReactive s a) in
        if truthy raw && negb (ro && isReactiveMark) then ret target
        else
          let* existingProxy := gets (fun s => proxyMapOf s ro sh !! a) in
          match existingProxy with
          | Some p => ret (VObj p)
          | None =>
              let* targetType := getTargetType a in
              match targetType with
              | 0 => ret target
              | 2 => throw (TypeError "Cannot create proxy with a non-object as target or handler")
              | _ =>
                  let* p := alloc (HProxy a ro sh) in
                  modify (upd_proxyMap ro sh (insert a p)) ;;
                  ret (VObj p)
              end
          end
    | _ => stuck
    end.

Definition reactive (target : value) : M value :=
  let* ro := gets (fun s => isReadonly s target) in
  if ro then ret target else createReactiveObject target false false.

Definition shallowReactive (target : value) : M value :=
  createReactiveObject target false true.

Definition readonly (target : value) : M value :=
  createReactiveObject target true false.

Definition shallowReadonly (target : value) : M value :=
  createReactiveObject target true true.

(** [markRaw(value)] on an ordinary object: [Object.defineProperty] adds
    [__v_skip], or sets it again when the object has it, and throws when it
    is to add it to an object that is not extensible. *)
Definition markRaw (a : addr) : M value :=
  let* o := get_obj a in
  if o_extensible o || o_skip o then
    modify (upd_heap (insert a (HObj (set_o_skip true o)))) ;;
    ret (VObj a)
  else throw (TypeError "Cannot define property __v_skip, object is not extensible").

Definition toReactive (v : value) : M value :=
  let* isObj := liftO (fun s => isObject s v) in
  if isObj then reactive v else ret v.

(** ** Refs *)

(** [new RefImpl(value, __v_isShallow)] *)
Definition RefImpl_new (v : value) (shallow : bool) : M value :=
  let* raw := if shallow then ret v else liftO (fun s => toRaw s v) in
  let* wrapped := if shallow then ret v else toReactive v in
  let* a := alloc (HRef {| r_isShallow := shallow; r_dep := None;
                           r_rawValue := raw; r_value := wrapped |}) in
  ret (VObj a).

(** [createRef(rawValue, shallow)] *)
Definition createRef (rawValue : value) (shallow : bool) : M value :=
  let* isR := liftO (fun s => isRef s rawValue) in
  if isR then ret rawValue else RefImpl_new rawValue shallow.

Definition ref (v : value) : M value := createRef v false.

(** [get value()] of [RefImpl] *)
Definition ref_get_value (this : addr) : M value :=
  trackRefValue (VObj this) ;;
  let* r := get_ref this in
  ret (r_value r).

(** [set value(newVal)] of [RefImpl] *)
Definition ref_set_value `{Host} (n : nat) (this : addr) (newVal : value) : M unit :=
  let* r := get_ref this in
  let* sh := gets (fun s => isShallow s newVal) in
  let* ro := gets (fun s => isReadonly s newVal) in
  let useDirectValue := r_isShallow r || sh || ro in
  let* newVal := if useDirectValue then ret newVal else liftO (fun s => toRaw s newVal) in
  if hasChanged newVal (r_rawValue r) then
    let* wrapped := if useDirectValue then ret newVal else toReactive newVal in
    upd_ref this (set_r_values newVal wrapped) ;;
    triggerRefValue n (VObj this)
  else ret tt.

(** ** Computed values *)

(** [recordEffectScope(effect, scope = activeEffectScope)] *)
Definition recordEffectScope (e : eid) : M unit :=
  let* cur := gets activeEffectScope in
  match cur with
  | Some sc =>
      let* sco := liftO (fun s => scopes s !! sc) in
      if sc_active sco then
        modify (upd_scopes (insert sc {| sc_active := sc_active sco;
                                         sc_effects := sc_effects sco ++ [e] |}))
      else ret tt
  | None => ret tt
  end.

(** The fields the constructor of [ReactiveEffect] sets. *)
Definition constructed (fn : fnid) (sched : option scheduler) : ReactiveEffect :=
  {| e_fn := fn; e_scheduler := sched; e_active := true;
     e_deps := []; e_parent := None; e_computed := None;
     e_allowRecurse := false; e_onStop := None |}.

(** [new ReactiveEffect(fn, scheduler)] *)
Definition ReactiveEffect_new (fn : fnid) (sched : option scheduler) : M eid :=
  let* e := new_effect (constructed fn sched) in
  recordEffectScope e ;;
  ret e.

Definition set_e_computed (c : option addr) (E : ReactiveEffect) : ReactiveEffect :=
  {| e_fn := e_fn E; e_scheduler := e_scheduler E; e_active := e_active E;
     e_deps := e_deps E; e_parent := e_parent E; e_computed := c;
     e_allowRecurse := e_allowRecurse E; e_onStop := e_onStop E |}.

(** The argument of [computed]: a getter function, or an options object with
    [get] and possibly [set]. *)
Inductive getterOrOptions :=
| GetterFn (getter : fnid)
| GetterSetter (get : fnid) (set : option fnid).

(** [new ComputedRefImpl(getter, _setter, isReadonly, isSSR)] *)
Definition ComputedRefImpl_new (getter : fnid) (setter : csetter)
    (isReadonly isSSR : bool) : M addr :=
  let* this := gets (fun s => fresh (dom (heap s))) in
  let* e := ReactiveEffect_new getter (Some (SchedComputed this)) in
  upd_effect e (set_e_computed (Some this)) ;;
  upd_effect e (set_e_active (negb isSSR)) ;;
  modify (upd_heap (insert this (HComputed
    {| c_setter := setter; c_dep := None; c_isReadonly := isReadonly;
       c_dirty := true; c_effect := e; c_cacheable := negb isSSR;
       c_value := VUndef |}))) ;;
  ret this.

(** [computed(getterOrOptions, debugOptions, isSSR = false)] *)
Definition computed (arg : getterOrOptions) (isSSR : bool) : M addr :=
  match arg with
  | GetterFn getter =>
      (* onlyGetter: the setter is the warning closure *)
      ComputedRefImpl_new getter SetterWarn true isSSR
  | GetterSetter get (Some set) =>
      ComputedRefImpl_new get (SetterFn set) false isSSR
  | GetterSetter get None =>
      (* setter = getterOrOptions.set = undefined; isReadonly = !setter *)
      ComputedRefImpl_new get SetterUndefined true isSSR
  end.

(** [get value()] of [ComputedRefImpl] *)
Definition computed_get_value `{Host} (this : addr) : M value :=
  trackRefValue (VObj this) ;;
  let* C := get_computed this in
  (if c_dirty C || negb (c_cacheable C) then
     upd_computed this (set_c_dirty false) ;;
     let* C' := get_computed this in
     let* v := run (c_effect C') in
     upd_computed this (set_c_value v)
   else ret tt) ;;
  let* C' := get_computed this in
  ret (c_value C').

(** [set value(newValue) { this._setter(newValue) }] *)
Definition computed_set_value `{Host} (this : addr) (newValue : value) : M unit :=
  let* C := get_computed this in
  match c_setter C with
  | SetterWarn => warn WarnComputedReadonly
  | SetterFn f => invoke f [newValue] ;; ret tt
  | SetterUndefined => throw (TypeError "this._setter is not a function")
  end.

(** ** The [set] trap of the mutable handlers *)

(** [oldValue.value = value], for the value a property holds. *)
Definition assign_value `{Host} (n : nat) (box : value) (v : value) : M unit :=
  match box with
  | VObj a =>
      let* o := liftO (fun s => heap s !! a) in
      match o with
      | HRef _ => ref_set_value n a v
      | HComputed _ => computed_set_value a v
      | _ => stuck
      end
  | _ => stuck
  end.

(** [isArray(target) && isIntegerKey(key) ? Number(key) < target.length
                                          : hasOwn(target, key)] *)
Definition hadKey (o : jsobj) (key : string) : option bool :=
  if isArrayObj o then
    match isIntegerKey key with
    | Some true =>
        match StringToNumber key with
        | Some k => Some (number_lt k (Int (Z.of_N (o_length o))))
        | None => None
        end
    | Some false => Some (obj_hasOwn o key)
    | None => None
    end
  else Some (obj_hasOwn o key).

(** [Reflect.set(target, key, value, receiver)] on the heap *)
Definition Reflect_set (target : addr) (o : jsobj) (key : string) (v : value) : M bool :=
  fun s =>
    match obj_set o key v with
    | Some (Normal b, o') => Some (Normal b, upd_heap (insert target (HObj o')) s)
    | Some (Throw exn, _) => Some (Throw exn, s)
    | None => None
    end.

(** [createSetter(shallow)]: the trap, for an ordinary object or array as the
    target. *)
Definition set_trap `{Host} (shallow : bool) (n : nat) (target : addr)
    (key : string) (value receiver : value) : M bool :=
  let* o := get_obj target in
  (* [target[key]]: a property of the prototype is a built-in object, which
     is neither read-only nor a ref, and [hadKey] is false for its key, so
     that what the trap does with it is what it does with [undefined] *)
  let oldValue := obj_get o key in
  let* oldReadonly := gets (fun s => isReadonly s oldValue) in
  let* oldIsRef := liftO (fun s => isRef s oldValue) in
  let* newIsRef := liftO (fun s => isRef s value) in
  if oldReadonly && oldIsRef && negb newIsRef then ret false
  else
    let* unwrap :=
      if shallow then ret false
      else gets (fun s => negb (isShallow s value) && negb (isReadonly s value)) in
    let* oldValue := if unwrap then liftO (fun s => toRaw s oldValue) else ret oldValue in
    let* value := if unwrap then liftO (fun s => toRaw s value) else ret value in
    let* oldIsRef := liftO (fun s => isRef s oldValue) in
    let* newIsRef := liftO (fun s => isRef s value) in
    if negb shallow && negb (isArrayObj o) && oldIsRef && negb newIsRef then
      assign_value n oldValue value ;; ret true
    else
      let* hadKey := liftO (fun _ => hadKey o key) in
      let* result := Reflect_set target o key value in
      let* rawReceiver := liftO (fun s => toRaw s receiver) in
      (if bool_decide (rawReceiver = VObj target) then
         if negb hadKey then trigger n target OpAdd (Some key) value
         else if hasChanged value oldValue
              then trigger n target OpSet (Some key) value
              else ret tt
       else ret tt) ;;
      ret result.

(** ** The [get] trap

    [createGetter(isReadonly, shallow)], for an ordinary object or array as
    the target.  The array methods of [arrayInstrumentations] are function
    values and are left out. *)

Definition isNonTrackableKeys (key : string) : bool :=
  bool_decide (key = "__proto__") || bool_decide (key = "__v_isRef")
  || bool_decide (key = "__isVue").

Definition instrumented (key : string) : bool :=
  bool_decide (key ∈ ["includes"; "indexOf"; "lastIndexOf"; "push"; "pop";
                      "shift"; "unshift"; "splice"]).

(** [res.value] *)
Definition read_value `{Host} (box : value) : M value :=
  match box with
  | VObj a =>
      let* o := liftO (fun s => heap s !! a) in
      match o with
      | HRef _ => ref_get_value a
      | HComputed _ => computed_get_value a
      | _ => stuck
      end
  | _ => stuck
  end.

Definition get_trap `{Host} (isReadonly shallow : bool) (target : addr)
    (key : string) (receiver : value) : M value :=
  let* cached := gets (fun s => proxyMapOf s isReadonly shallow !! target) in
  if bool_decide (key = "__v_isReactive") then ret (VBool (negb isReadonly))
  else if bool_decide (key = "__v_isReadonly") then ret (VBool isReadonly)
  else if bool_decide (key = "__v_isShallow") then ret (VBool shallow)
  else if bool_decide (key = "__v_raw")
          && bool_decide (Some receiver = (VObj <$> cached))
  then ret (VObj target)
  else
    let* o := get_obj target in
    if negb isReadonly && isArrayObj o && instrumented key then stuck
    else
      let* res := liftO (fun _ => Reflect_get o key) in
      if isNonTrackableKeys key then ret res
      else
        (if negb isReadonly then track target key else ret tt) ;;
        if shallow then ret res
        else
          let* resIsRef := liftO (fun s => isRef s res) in
          if resIsRef then
            let* isInt :=
              if isArrayObj o then liftO (fun _ => isIntegerKey key) else ret false in
            if isInt then ret res else read_value res
          else
            let* isObj := liftO (fun s => isObject s res) in
            if isObj then (if isReadonly then readonly res else reactive res)
            else ret res.


(** ** effect *)

(** The options object of [effect], by the own properties that
    [Object.assign] copies onto the new effect: [lazy], [scheduler],
    [allowRecurse] and [onStop], and also [fn] and [active], which replace
    what the constructor has set.  [opt_other] says that the object has an own
    property named [run], [stop], [deps], [parent] or [computed]: it replaces
    a method or a field the library relies on, and [effect] is outside the
    model then.  Any other property is copied and never read. *)
Record effect_options := {
  opt_lazy : bool;
  opt_scheduler : option fnid;
  opt_allowRecurse : bool;
  opt_onStop : option fnid;
  opt_fn : option fnid;
  opt_active : option bool;
  opt_other : bool }.

(** [extend(_effect, options)] *)
Definition extend_effect (options : effect_options) (E : ReactiveEffect) : ReactiveEffect :=
  {| e_fn := default (e_fn E) (opt_fn options);
     e_scheduler :=
       match opt_scheduler options with
       | Some f => Some (SchedFn f)
       | None => e_scheduler E
       end;
     e_active := default (e_active E) (opt_active options);
     e_deps := e_deps E; e_parent := e_parent E;
     e_computed := e_computed E;
     e_allowRecurse := opt_allowRecurse options;
     e_onStop :=
       match opt_onStop options with
       | Some f => Some f
       | None => e_onStop E
       end |}.

(** The function an argument of [effect] stands for: [fn] itself, or
    [fn.effect.fn] when [fn] is the runner of an effect. *)
Definition callee (s : state) (fn : value) : option fnid :=
  match fn with
  | VObj a =>
      match heap s !! a with
      | Some (HFun f) => Some f
      | Some (HRunner e) => e_fn <$> effects s !! e
      | _ => None
      end
  | _ => None
  end.

(** [effect(fn, options = {})] *)
Definition effect `{Host} (fn : value) (options : effect_options) : M value :=
  let* f := liftO (fun s => callee s fn) in
  let* _effect := ReactiveEffect_new f None in
  (if opt_other options then stuck
   else upd_effect _effect (extend_effect options)) ;;
  (if negb (opt_lazy options) then run _effect ;; ret tt else ret tt) ;;
  let* runner := alloc (HRunner _effect) in
  ret (VObj runner).

(** Calling a runner: [_effect.run.bind(_effect)] *)
Definition call_runner `{Host} (runner : addr) : M value :=
  let* o := liftO (fun s => heap s !! runner) in
  match o with
  | HRunner e => run e
  | _ => stuck
  end.

(** ** The job queue of the scheduler

    A job is a function object: [j_ref] is its identity, the other fields
    are the properties the scheduler reads. *)

Record job := {
  j_ref : nat;
  j_id : option Z;
  j_allowRecurse : bool;
  j_pre : bool }.

Record sched := {
  queue : list job;
  isFlushing : bool;
  isFlushPending : bool;
  flushIndex : nat;
  currentPreFlushParentJob : option nat;
  (** the flushes handed to [resolvedPromise.then] so far *)
  flushRequests : nat }.

Definition sched_init : sched :=
  {| queue := []; isFlushing := false; isFlushPending := false;
     flushIndex := 0; currentPreFlushParentJob := None; flushRequests := 0 |}.

Definition set_queue (q : list job) (s : sched) : sched :=
  {| queue := q; isFlushing := isFlushing s; isFlushPending := isFlushPending s;
     flushIndex := flushIndex s;
     currentPreFlushParentJob := currentPreFlushParentJob s;
     flushRequests := flushRequests s |}.

(** [const getId = (job) => job.id == null ? Infinity : job.id] *)
Definition getId (j : job) : number :=
  match j_id j with
  | None => Inf false
  | Some id => Int id
  end.

(** [x >>> 1] on a non-negative integer *)
Definition ushr1 (x : nat) : nat :=
  Z.to_nat (Z.shiftr (Z.of_nat x mod 2 ^ 32) 1).

(** The loop of [findInsertionIndex]; [queue[middle]] beyond the end of the
    queue has no [id] to read. *)
Fixpoint findInsertionIndex_loop (fuel : nat) (q : list job) (id : Z)
    (start end_ : nat) : option nat :=
  if start <? end_ then
    match fuel with
    | O => None
    | S fuel' =>
        let middle := ushr1 (start + end_) in
        match q !! middle with
        | Some j =>
            if number_lt (getId j) (Int id)
            then findInsertionIndex_loop fuel' q id (middle + 1) end_
            else findInsertionIndex_loop fuel' q id start middle
        | None => None
        end
    end
  else Some start.

(** [findInsertionIndex(id)] *)
Definition findInsertionIndex (id : Z) (s : sched) : option nat :=
  findInsertionIndex_loop (length (queue s)) (queue s) id
    (flushIndex s + 1) (length (queue s)).

(** [queue.includes(job, fromIndex)] *)
Definition includes (q : list job) (j : job) (fromIndex : nat) : bool :=
  existsb (fun x => Nat.eqb (j_ref x) (j_ref j)) (drop fromIndex q).

(** [queue.splice(i, 0, job)] *)
Definition splice_in (i : nat) (j : job) (q : list job) : list job :=
  take i q ++ j :: drop i q.

(** [queueFlush()] *)
Definition queueFlush (s : sched) : sched :=
  if negb (isFlushing s) && negb (isFlushPending s) then
    {| queue := queue s; isFlushing := isFlushing s; isFlushPending := true;
       flushIndex := flushIndex s;
       currentPreFlushParentJob := currentPreFlushParentJob s;
       flushRequests := S (flushRequests s) |}
  else s.

(** [queueJob(job)] *)
Definition queueJob (j : job) (s : sched) : option sched :=
  let fromIndex :=
    if isFlushing s && j_allowRecurse j then flushIndex s + 1 else flushIndex s in
  if (Nat.eqb (length (queue s)) 0 || negb (includes (queue s) j fromIndex))
     && negb (bool_decide (currentPreFlushParentJob s = Some (j_ref j)))
  then
    match j_id j with
    | None => Some (queueFlush (set_queue (queue s ++ [j]) s))
    | Some id =>
        match findInsertionIndex id s with
        | Some i => Some (queueFlush (set_queue (splice_in i j (queue s)) s))
        | None => None
        end
    end
  else Some s.

(** No flush is in progress: [flushJobs] resets [flushIndex] before it clears
    [isFlushing]. *)
Definition idle (s : sched) : Prop :=
  isFlushing s = false /\ flushIndex s = 0.

(** Ascending order of [getId], adjacent pair by adjacent pair. *)
Fixpoint ascending (q : list job) : bool :=
  match q with
  | [] => true
  | a :: rest =>
      match rest with
      | [] => true
      | b :: _ => number_ge (getId b) (getId a) && ascending rest
      end
  end.

Definition job_refs (q : list job) : list nat := map j_ref q.

(** ** Vocabulary of the statements *)

(** A computation keeps a relation between the state it starts from and the
    state it ends in. *)
Definition preserves {A} (R : state -> state -> Prop) (m : M A) : Prop :=
  forall s c s', m s = Some (c, s') -> R s s'.

(** [effect.computed], read in a state. *)
Definition marker (s : state) (e : eid) : bool :=
  match effects s !! e with
  | Some E => is_computed_effect E
  | None => false
  end.

(** The effects of [s] are still there in [s'], each with its [computed]
    marker. *)
Definition markers_kept (s s' : state) : Prop :=
  forall e E, effects s !! e = Some E ->
    exists E', effects s' !! e = Some E' /\ is_computed_effect E' = is_computed_effect E.

(** The functions of the host do not rewrite the [computed] marker of an
    effect (the library sets it once, in the constructor of a computed). *)
Definition host_keeps_markers `{Host} : Prop :=
  forall f args s, markers_kept s (apply_fn f args s).2.

(** The members of a set, the computed effects first. *)
Definition computed_first (s : state) (effs : list eid) : list eid :=
  filter (fun e => marker s e = true) effs
  ++ filter (fun e => negb (marker s e) = true) effs.

(** The effects on the call stack, innermost first: the chain of [parent]
    that starts at [p] and ends at an effect with no parent. *)
Fixpoint chain_from (s : state) (p : option eid) (l : list eid) : Prop :=
  match l with
  | [] => p = None
  | x :: l' =>
      p = Some x /\
      exists X, effects s !! x = Some X /\ chain_from s (e_parent X) l'
  end.

Definition call_stack (s : state) (l : list eid) : Prop :=
  chain_from s (activeEffect s) l.

(** The ambient scope, when there is one, is a scope of the state. *)
Definition scope_ok (s : state) : Prop :=
  match activeEffectScope s with
  | Some sc => is_Some (scopes s !! sc)
  | None => True
  end.

(** The function [f] returns normally, and leaves every effect in place with
    its function. *)
Definition fn_returns `{Host} (f : fnid) : Prop :=
  forall args s, exists v, (apply_fn f args s).1 = Normal v.

Definition fn_keeps_effects `{Host} (f : fnid) : Prop :=
  forall args s e E, effects s !! e = Some E ->
    exists E', effects (apply_fn f args s).2 !! e = Some E' /\ e_fn E' = e_fn E.

(** The function [f] leaves the log of calls as it finds it: it calls no
    function through the library, that is, it starts no effect, stops none
    that has [onStop], and writes nothing that an effect without scheduler
    has read. *)
Definition fn_silent `{Host} (f : fnid) : Prop :=
  forall args s, calls (apply_fn f args s).2 = calls s.

(** Between [s] and [s'] the library has made at most one call: the log is
    as it was, or it is what one call of a function, entered in the log, has
    left. *)
Definition at_most_one_call `{Host} (s s' : state) : Prop :=
  calls s' = calls s \/
  exists f s_pre,
    calls s_pre = calls s ++ [(f, [])] /\ calls s' = calls (apply_fn f [] s_pre).2.

(** [run()] of an active effect [e], before the call of its function: [e] is
    the running effect, the effect that was running is its parent, and
    tracking is on. *)
Definition entered (e : eid) (s : state) : state :=
  upd_shouldTrack (fun _ => true)
    (upd_activeEffect (fun _ => Some e)
      (upd_effects (alter (set_e_parent (activeEffect s)) e) s)).

(** The [finally] block of [run()], in the state the function has left; [st]
    is [shouldTrack] as it was before the run. *)
Definition resumed (e : eid) (st : bool) (s : state) : state :=
  upd_effects (alter (set_e_parent None) e)
    (upd_shouldTrack (fun _ => st)
      (upd_activeEffect (fun _ => effects s !! e ≫= e_parent) s)).

(** The state after [recordEffectScope(e)]. *)
Definition recorded (e : eid) (s : state) : state :=
  match activeEffectScope s with
  | Some sc =>
      match scopes s !! sc with
      | Some sco =>
          if sc_active sco
          then upd_scopes (insert sc {| sc_active := sc_active sco;
                                        sc_effects := sc_effects sco ++ [e] |}) s
          else s
      | None => s
      end
  | None => s
  end.

(** The state after [new ReactiveEffect(f)] and [extend(_effect, options)]. *)
Definition created (f : fnid) (options : effect_options) (s : state) : state :=
  let e := fresh (dom (effects s)) in
  upd_effects (alter (extend_effect options) e)
    (recorded e (upd_effects (insert e (constructed f None)) s)).

(** ** Sample hosts and states *)

(** A host whose functions do nothing and return [undefined]. *)
Definition quiet_host : Host :=
  {| apply_fn := fun _ _ s => (Normal VUndef, s) |}.

(** A host whose functions all throw. *)
Definition throwing_host : Host :=
  {| apply_fn := fun _ _ s => (Throw (VStr "boom"), s) |}.

Definition plain_effect (fn : fnid) : ReactiveEffect :=
  {| e_fn := fn; e_scheduler := None; e_active := true; e_deps := [];
     e_parent := None; e_computed := None; e_allowRecurse := false;
     e_onStop := None |}.

(** Effect [0] is running. *)
Definition s_running : state :=
  upd_activeEffect (fun _ => Some 0)
    (upd_effects (insert 0 (plain_effect 7)) initial_state).

(** Effect [0] is running and was stopped by its own body: the state after
    [stop(runner)] inside the function of [runner]. *)
Definition s_stopped_running : state :=
  upd_activeEffect (fun _ => Some 0)
    (upd_effects (insert 0 (set_e_active false (plain_effect 7))) initial_state).


(** A heap with one function object, at address [0], for the function [7]. *)
Definition s_one_fun : state := upd_heap (insert 0 (HFun 7)) initial_state.

(** [{}] and [{ lazy: true }] *)
Definition eager : effect_options :=
  {| opt_lazy := false; opt_scheduler := None; opt_allowRecurse := false;
     opt_onStop := None; opt_fn := None; opt_active := None;
     opt_other := false |}.

(** [{ fn: g }], for the function [8] as [g] *)
Definition replacing_fn : effect_options :=
  {| opt_lazy := false; opt_scheduler := None; opt_allowRecurse := false;
     opt_onStop := None; opt_fn := Some 8; opt_active := None;
     opt_other := false |}.

Definition lazy : effect_options :=
  {| opt_lazy := true; opt_scheduler := None; opt_allowRecurse := false;
     opt_onStop := None; opt_fn := None; opt_active := None;
     opt_other := false |}.

(** Reading [c] can record the read: the running effect, if tracking is on,
    is an effect of the state, and the dependency set of [c], if it has one,
    is a set of the state. *)
Definition tracking_ok (s : state) (C : computedimpl) : Prop :=
  shouldTrack s = true ->
  forall e, activeEffect s = Some e ->
    is_Some (effects s !! e) /\
    forall d, c_dep C = Some d -> is_Some (deps s !! d).

(** Two records of a computed value that differ at most in [dep]. *)
Definition same_cache (C C' : computedimpl) : Prop :=
  c_dirty C' = c_dirty C /\ c_value C' = c_value C /\
  c_cacheable C' = c_cacheable C /\ c_effect C' = c_effect C /\
  c_setter C' = c_setter C /\ c_isReadonly C' = c_isReadonly C.

(** A computed value for the getter [3], at address [0], with effect [0]:
    fresh, then read once. *)
Definition s_computed : state :=
  match computed (GetterFn 3) false initial_state with
  | Some (_, s) => s
  | None => initial_state
  end.

Definition s_computed_read : state :=
  match @computed_get_value quiet_host 0 s_computed with
  | Some (_, s) => s
  | None => initial_state
  end.

(** A host for the reactive proxy of the object at address [0]: the function
    [7] is [() => proxy.foo], the function [8] is
    [() => { proxy.nan; proxy.zero }]; every other function does nothing. *)
Definition reading_host : Host :=
  {| apply_fn := fun f _ s =>
       let read key s :=
         match @get_trap quiet_host false false 0 key (VObj 2) s with
         | Some (_, s') => s'
         | None => s
         end in
       if Nat.eqb f 7 then (Normal VUndef, read "foo" s)
       else if Nat.eqb f 8 then (Normal VUndef, read "zero" (read "nan" s))
       else (Normal VUndef, s) |}.

Definition empty_object : jsobj :=
  {| o_type := TObject; o_extensible := true; o_skip := false; o_length := 0;
     o_props := ∅ |}.

(** The object [{}] at address [0], the function [7] at address [1]; then
    [proxy = reactive(obj)] at address [2] and [effect(() => proxy.foo)]. *)
Definition s_watching_foo : state :=
  let s0 := upd_heap (insert 1 (HFun 7))
              (upd_heap (insert 0 (HObj empty_object)) initial_state) in
  match reactive (VObj 0) s0 with
  | Some (_, s1) =>
      match @effect reading_host (VObj 1) eager s1 with
      | Some (_, s2) => s2
      | None => s1
      end
  | None => s0
  end.

(** The length of an array is below [2^32]. *)
Definition array_ok (o : jsobj) : Prop := (o_length o < 4294967296)%N.

(** What the [set] trap stores for [v]: its raw form, unless the trap is
    shallow or [v] is itself shallow or read-only. *)
Definition stored_form (shallow : bool) (s : state) (v raw : value) : value :=
  if negb shallow && negb (isShallow s v) && negb (isReadonly s v) then raw else v.

Definition numbers_object : jsobj :=
  {| o_type := TObject; o_extensible := true; o_skip := false; o_length := 0;
     o_props := <["nan" := VNum NaN]> (<["zero" := VNum (Int 0)]> ∅) |}.

(** The object [{ nan: NaN, zero: 0 }] at address [0], the function [8] at
    address [1]; then [proxy = reactive(obj)] at address [2] and
    [effect(() => { proxy.nan; proxy.zero })]. *)
Definition s_watching_numbers : state :=
  let s0 := upd_heap (insert 1 (HFun 8))
              (upd_heap (insert 0 (HObj numbers_object)) initial_state) in
  match reactive (VObj 0) s0 with
  | Some (_, s1) =>
      match @effect reading_host (VObj 1) eager s1 with
      | Some (_, s2) => s2
      | None => s1
      end
  | None => s0
  end.

(** The entries of a [depsMap] that the length branch of [trigger] keeps:
    the key is ['length'], or [key >= newValue] holds. *)
Definition kept_by_length (newValue : value) (kd : string * depid) : Prop :=
  kd.1 = "length" \/ key_ge kd.1 newValue = Some true.

#[global] Instance kept_by_length_dec newValue kd : Decision (kept_by_length newValue kd).
Proof. unfold kept_by_length. apply _. Defined.











(** The four wrapping functions, by their two flags. *)
Definition wrap (ro sh : bool) : value -> M value :=
  match ro, sh with
  | false, false => reactive
  | false, true => shallowReactive
  | true, false => readonly
  | true, true => shallowReadonly
  end.


(** The object [{}] at address [0]. *)
Definition s_one_object : state :=
  upd_heap (insert 0 (HObj empty_object)) initial_state.

(** Three effects: [0] is the effect of a computed value (getter [3]), [1]
    and [2] are ordinary effects (functions [7] and [8]). *)
Definition s_three_effects : state :=
  let s0 := upd_heap (insert 1 (HFun 8))
              (upd_heap (insert 0 (HFun 7)) initial_state) in
  let prog :=
    let* c := computed (GetterFn 3) false in
    let* r1 := @effect quiet_host (VObj 0) lazy in
    let* r2 := @effect quiet_host (VObj 1) lazy in
    ret tt in
  match prog s0 with
  | Some (_, s) => s
  | None => s0
  end.

(** Two jobs with ids: [job_five] is queued first, [job_three] second. *)
Definition job_five : job :=
  {| j_ref := 1; j_id := Some 5%Z; j_allowRecurse := false; j_pre := false |}.

Definition job_three : job :=
  {| j_ref := 2; j_id := Some 3%Z; j_allowRecurse := false; j_pre := false |}.

(** [a] comes no later than [b] in the order of [getId]. *)
Definition id_le (a b : job) : Prop := number_ge (getId b) (getId a) = true.

(** The queue is in ascending order from index [lo] on. *)
Definition ascending_from (lo : nat) (q : list job) : Prop :=
  forall a b ja jb,
    lo <= a -> a <= b -> q !! a = Some ja -> q !! b = Some jb -> id_le ja jb.

(** The function [f] leaves the computed value at [c] a computed value. *)
Definition fn_keeps_computed `{Host} (f : fnid) (c : addr) : Prop :=
  forall args s C, heap s !! c = Some (HComputed C) ->
    exists C', heap (apply_fn f args s).2 !! c = Some (HComputed C').

(** Two records of an effect that differ at most in [deps]. *)
Definition same_effect (E E' : ReactiveEffect) : Prop :=
  e_fn E' = e_fn E /\ e_active E' = e_active E /\ e_parent E' = e_parent E /\
  e_scheduler E' = e_scheduler E.
(** ** Pausing and resuming tracking *)

(** [pauseTracking()] *)
Definition pauseTracking : M unit :=
  let* st := gets shouldTrack in
  modify (upd_trackStack (fun l => l ++ [st])) ;;
  modify (upd_shouldTrack (fun _ => false)).

(** [enableTracking()] *)
Definition enableTracking : M unit :=
  let* st := gets shouldTrack in
  modify (upd_trackStack (fun l => l ++ [st])) ;;
  modify (upd_shouldTrack (fun _ => true)).

(** [resetTracking()]: [pop] on an empty array answers [undefined] and leaves
    the array empty. *)
Definition resetTracking : M unit :=
  let* l := gets trackStack in
  match last l with
  | Some b =>
      modify (upd_trackStack (fun l => removelast l)) ;;
      modify (upd_shouldTrack (fun _ => b))
  | None => modify (upd_shouldTrack (fun _ => true))
  end.

(** ** stop *)

(** [stop(runner)] *)
Definition stop `{Host} (runner : addr) : M unit :=
  let* o := liftO (fun s => heap s !! runner) in
  match o with
  | HRunner e => stop_effect e
  | _ => stuck
  end.

(** ** isReactive, isProxy *)




(** ** The other traps of the handlers *)






(** ** unref and the handlers of proxyRefs *)

(** [unref(ref)] *)
Definition unref `{Host} (r : value) : M value :=
  let* isR := liftO (fun s => isRef s r) in
  if isR then read_value r else ret r.



(** ** Vocabulary of the further statements *)

(** A value that is not an object. *)
Definition primitive (v : value) : Prop :=
  match v with VObj _ => False | _ => True end.

(** The two directions of a subscription agree: a member of a dependency set
    lists the set among its [deps], and a set an effect lists holds the
    effect. *)
Definition links_ok (s : state) : Prop :=
  (forall d content e, deps s !! d = Some content -> e ∈ content ->
     exists E, effects s !! e = Some E /\ d ∈ e_deps E) /\
  (forall e E d, effects s !! e = Some E -> d ∈ e_deps E ->
     exists content, deps s !! d = Some content /\ e ∈ content).

(** The state after [cleanupEffect(e)]: [e] is taken out of every set, and
    its own list is empty. *)
Definition unsubscribed (e : eid) (s : state) : state :=
  upd_effects (alter (set_e_deps []) e) (upd_deps (fmap (set_delete e)) s).

(** Two records of an effect that differ at most in [deps]. *)
Definition same_shape (E E' : ReactiveEffect) : Prop :=
  same_effect E E' /\ e_computed E' = e_computed E /\
  e_allowRecurse E' = e_allowRecurse E /\ e_onStop E' = e_onStop E.

(** The functions of the host leave the effects in place; what they change
    of an effect, by reading reactive data, is its [deps]. *)
Definition host_keeps_shapes `{Host} : Prop :=
  forall f args s e E, effects s !! e = Some E ->
    exists E', effects (apply_fn f args s).2 !! e = Some E' /\ same_shape E E'.

(** An effect with no scheduler, as [effect(fn)] builds it. *)
Definition plain_subscriber (s : state) (e : eid) : Prop :=
  exists E, effects s !! e = Some E /\ e_active E = true /\
            e_scheduler E = None /\ e_computed E = None /\ e_parent E = None.

(** The function of an effect. *)
Definition fn_of (s : state) (e : eid) : fnid :=
  match effects s !! e with
  | Some E => e_fn E
  | None => 0
  end.

(** The state after [trackEffects(dep)] has added the running effect. *)
Definition subscribed (e : eid) (d : depid) (s : state) : state :=
  match deps s !! d, effects s !! e with
  | Some content, Some E =>
      upd_effects (alter (set_e_deps (e_deps E ++ [d])) e)
        (upd_deps (insert d (content ++ [e])) s)
  | _, _ => s
  end.

(** The sets the dependency maps name are sets of the state. *)
Definition registry_ok (s : state) : Prop :=
  forall target depsMap key d,
    targetMap s !! target = Some depsMap -> map_get depsMap key = Some d ->
    is_Some (deps s !! d).

(** ** Further sample states *)

(** The effect [0] (function [7]) is a member of the dependency set [0]; its
    runner is at address [1]. *)
Definition s_subscribed : state :=
  upd_heap (insert 1 (HRunner 0))
    (upd_deps (insert 0 [0])
      (upd_effects (insert 0 (set_e_deps [0] (plain_effect 7))) initial_state)).

(** The effects of [s] are still there in [s'], each in its shape. *)
Definition shapes_kept (s s' : state) : Prop :=
  forall e E, effects s !! e = Some E ->
    exists E', effects s' !! e = Some E' /\ same_shape E E'.

(** What [run()] gives for an active effect that is not on the call stack:
    the outcome of the one call of its function, made with the effect as the
    running one, and the state that call has left, after the [finally]
    block. *)
Definition run_result `{Host} (e : eid) (s : state) : completion value * state :=
  let r := apply_fn (fn_of s e) [] (logged (fn_of s e) [] (entered e s)) in
  (r.1, resumed e (shouldTrack s) r.2).

(** The state after the effects [effs] have been run one after the other,
    each once. *)
Fixpoint ran_in_turn `{Host} (effs : list eid) (s : state) : state :=
  match effs with
  | [] => s
  | e :: rest => ran_in_turn rest (run_result e s).2
  end.

(** A write to [key] makes or changes an own property of the object: the
    object has the key, or it is extensible and the key is not [__proto__],
    which would reach the accessor of the prototype. *)
Definition writable_key (o : jsobj) (key : string) : Prop :=
  obj_hasOwn o key = true \/ (o_extensible o = true /\ key <> "__proto__").

(** The calls of the functions of the effects [effs], in order. *)
Definition calls_of (s : state) (effs : list eid) : list (fnid * list value) :=
  map (fun e => (fn_of s e, [])) effs.

(** The object [{ count: 0 }] at address [0] and its reactive proxy at
    address [1].  The effect [0] (function [7]) has read [foo], has iterated
    over the keys and has read [count]; the effect [1] (function [8]) has
    iterated over the keys and has read [count] before the effect [0] did. *)
Definition s_two_readers : state :=
  upd_heap (insert 1 (HProxy 0 false false))
    (upd_heap (insert 0 (HObj (set_o_props (insert "count" (VNum (Int 0))) empty_object)))
      (upd_reactiveMap (insert 0 1)
        (upd_effects (insert 1 (set_e_deps [1; 2] (plain_effect 8)))
          (upd_effects (insert 0 (set_e_deps [0; 1; 2] (plain_effect 7)))
            (upd_deps (insert 2 [1; 0])
              (upd_deps (insert 1 [0; 1])
                (upd_deps (insert 0 [0])
                  (upd_targetMap (insert 0 [("foo", 0); ("", 1); ("count", 2)])
                    initial_state)))))))).

(** The members of the set a dependency map answers for a key: none when the
    map has no set for the key. *)
Definition members (s : state) (d : option depid) : option (list eid) :=
  match d with
  | Some d => deps s !! d
  | None => Some []
  end.





(** The object [Object.preventExtensions({})] at address [0]. *)
Definition s_closed_object : state :=
  upd_heap (insert 0 (HObj {| o_type := TObject; o_extensible := false;
                              o_skip := false; o_length := 0; o_props := ∅ |}))
    initial_state.


(** The ref of the number [1] at address [0]; the effect [0] (function [7])
    has read its value. *)
Definition s_ref_watched : state :=
  upd_heap (insert 0 (HRef {| r_isShallow := false; r_dep := Some 0;
                              r_rawValue := VNum (Int 1);
                              r_value := VNum (Int 1) |}))
    (upd_deps (insert 0 [0])
      (upd_effects (insert 0 (set_e_deps [0] (plain_effect 7))) initial_state)).

(** Effect [0] is running; the ref of the number [1], not yet read by any
    effect, is at address [0]. *)
Definition s_running_ref : state :=
  upd_heap (insert 0 (HRef {| r_isShallow := false; r_dep := None;
                              r_rawValue := VNum (Int 1);
                              r_value := VNum (Int 1) |})) s_running.


(** The function [f] does not touch the record of a computed value. *)
Definition fn_leaves_computed `{Host} (f : fnid) : Prop :=
  forall c args s C, heap s !! c = Some (HComputed C) ->
    heap (apply_fn f args s).2 !! c = Some (HComputed C).

(** ** Flushing the job queue

    The state of the scheduler during a flush: the queue and its flags, the
    callbacks that wait for the end of the flush, the callbacks the running
    post-flush pass is going through, and three records: the jobs whose
    [active] property is [false], the jobs called so far, and the lines of
    [console.error]. *)

Record flush_state := {
  fs_sched : sched;
  pendingPostFlushCbs : list job;
  currentPostFlushParentJob : option (list job);
  postFlushIndex : nat;
  inactive : list nat;
  ran : list nat;
  reported : list (value * string) }.

Definition upd_sched (f : sched -> sched) (fs : flush_state) : flush_state :=
  {| fs_sched := f (fs_sched fs);
     pendingPostFlushCbs := pendingPostFlushCbs fs;
     currentPostFlushParentJob := currentPostFlushParentJob fs;
     postFlushIndex := postFlushIndex fs; inactive := inactive fs;
     ran := ran fs; reported := reported fs |}.

Definition set_pending (l : list job) (fs : flush_state) : flush_state :=
  {| fs_sched := fs_sched fs; pendingPostFlushCbs := l;
     currentPostFlushParentJob := currentPostFlushParentJob fs;
     postFlushIndex := postFlushIndex fs; inactive := inactive fs;
     ran := ran fs; reported := reported fs |}.

Definition set_parent (p : option (list job)) (fs : flush_state) : flush_state :=
  {| fs_sched := fs_sched fs; pendingPostFlushCbs := pendingPostFlushCbs fs;
     currentPostFlushParentJob := p;
     postFlushIndex := postFlushIndex fs; inactive := inactive fs;
     ran := ran fs; reported := reported fs |}.

Definition set_postFlushIndex (i : nat) (fs : flush_state) : flush_state :=
  {| fs_sched := fs_sched fs; pendingPostFlushCbs := pendingPostFlushCbs fs;
     currentPostFlushParentJob := currentPostFlushParentJob fs;
     postFlushIndex := i; inactive := inactive fs;
     ran := ran fs; reported := reported fs |}.

Definition set_ran (l : list nat) (fs : flush_state) : flush_state :=
  {| fs_sched := fs_sched fs; pendingPostFlushCbs := pendingPostFlushCbs fs;
     currentPostFlushParentJob := currentPostFlushParentJob fs;
     postFlushIndex := postFlushIndex fs; inactive := inactive fs;
     ran := l; reported := reported fs |}.

Definition set_reported (l : list (value * string)) (fs : flush_state) : flush_state :=
  {| fs_sched := fs_sched fs; pendingPostFlushCbs := pendingPostFlushCbs fs;
     currentPostFlushParentJob := currentPostFlushParentJob fs;
     postFlushIndex := postFlushIndex fs; inactive := inactive fs;
     ran := ran fs; reported := l |}.

Definition set_flushIndex (i : nat) (s : sched) : sched :=
  {| queue := queue s; isFlushing := isFlushing s;
     isFlushPending := isFlushPending s; flushIndex := i;
     currentPreFlushParentJob := currentPreFlushParentJob s;
     flushRequests := flushRequests s |}.

Definition set_flags (flushing pending : bool) (s : sched) : sched :=
  {| queue := queue s; isFlushing := flushing; isFlushPending := pending;
     flushIndex := flushIndex s;
     currentPreFlushParentJob := currentPreFlushParentJob s;
     flushRequests := flushRequests s |}.

(** The jobs, as functions: what calling the job with identity [r] does to
    the scheduler. *)
Class Jobs := {
  call_job : nat -> flush_state -> completion unit * flush_state }.

(** [job()] *)
Definition run_job `{Jobs} (j : job) (fs : flush_state)
    : completion unit * flush_state :=
  call_job (j_ref j) (set_ran (ran fs ++ [j_ref j]) fs).

(** [handleError(err, type)] *)
Definition handleError (err : value) (type : string) (fs : flush_state) : flush_state :=
  set_reported (reported fs ++ [(err, type)]) fs.

(** [callWithErrorHandling(fn, type)] *)
Definition callWithErrorHandling `{Jobs} (j : job) (type : string)
    (fs : flush_state) : flush_state :=
  match run_job j fs with
  | (Normal _, fs') => fs'
  | (Throw err, fs') => handleError err type fs'
  end.

(** [array.sort((a, b) => getId(a) - getId(b))]: the difference of two ids is
    negative when the first is the smaller, and [Infinity - Infinity] is NaN,
    which [sort] takes for zero; the sort is stable. *)
Fixpoint insert_by_id (j : job) (l : list job) : list job :=
  match l with
  | [] => [j]
  | x :: rest =>
      if number_lt (getId x) (getId j) then x :: insert_by_id j rest
      else j :: x :: rest
  end.

Definition sort_by_id (l : list job) : list job := foldr insert_by_id [] l.

(** [[...new Set(array)]] *)
Definition dedupe_jobs (l : list job) : list job :=
  foldl (fun acc j =>
           if existsb (fun x => Nat.eqb (j_ref x) (j_ref j)) acc then acc
           else acc ++ [j]) [] l.

(** [queuePostFlushCb(cb)] for a function [cb]: [indexOf] does not find the
    array of the running pass among the pending functions, so the search
    starts at index [0]. *)
Definition queuePostFlushCb (cb : job) (fs : flush_state) : flush_state :=
  let p := pendingPostFlushCbs fs in
  upd_sched queueFlush
    (if Nat.eqb (length p) 0 || negb (includes p cb 0)
     then set_pending (p ++ [cb]) fs else fs).

(** [queuePostFlushCb(cbs)] for an array *)
Definition queuePostFlushCbs (cbs : list job) (fs : flush_state) : flush_state :=
  upd_sched queueFlush (set_pending (pendingPostFlushCbs fs ++ cbs) fs).

(** The loop of [flushPreFlushCbs]: a job marked [pre] is taken out of the
    queue and called. *)
Fixpoint flushPreFlushCbs_loop `{Jobs} (fuel i : nat) (fs : flush_state)
    : option (completion unit * flush_state) :=
  match queue (fs_sched fs) !! i with
  | None => Some (Normal tt, fs)
  | Some cb =>
      match fuel with
      | O => None
      | S fuel' =>
          if j_pre cb then
            match run_job cb (upd_sched (fun s => set_queue (delete i (queue s)) s) fs) with
            | (Normal _, fs') => flushPreFlushCbs_loop fuel' i fs'
            | (Throw err, fs') => Some (Throw err, fs')
            end
          else flushPreFlushCbs_loop fuel' (i + 1) fs
      end
  end.

(** [flushPreFlushCbs(seen, i = isFlushing ? flushIndex + 1 : 0)] *)
Definition flushPreFlushCbs `{Jobs} (fuel : nat) (fs : flush_state)
    : option (completion unit * flush_state) :=
  flushPreFlushCbs_loop fuel
    (if isFlushing (fs_sched fs) then flushIndex (fs_sched fs) + 1 else 0) fs.

(** The loop of [flushPostFlushCbs], over the array that
    [currentPostFlushParentJob] names. *)
Fixpoint flushPostFlushCbs_loop `{Jobs} (fuel : nat) (fs : flush_state)
    : option (completion unit * flush_state) :=
  match currentPostFlushParentJob fs with
  | None => None
  | Some deduped =>
      match deduped !! postFlushIndex fs with
      | None => Some (Normal tt, fs)
      | Some cb =>
          match fuel with
          | O => None
          | S fuel' =>
              match run_job cb fs with
              | (Normal _, fs') =>
                  flushPostFlushCbs_loop fuel'
                    (set_postFlushIndex (S (postFlushIndex fs')) fs')
              | (Throw err, fs') => Some (Throw err, fs')
              end
          end
      end
  end.

(** [flushPostFlushCbs(seen)] *)
Definition flushPostFlushCbs `{Jobs} (fuel : nat) (fs : flush_state)
    : option (completion unit * flush_state) :=
  match pendingPostFlushCbs fs with
  | [] => Some (Normal tt, fs)
  | p =>
      let deduped := dedupe_jobs p in
      let fs1 := set_pending [] fs in
      match currentPostFlushParentJob fs1 with
      | Some parent => Some (Normal tt, set_parent (Some (parent ++ deduped)) fs1)
      | None =>
          match flushPostFlushCbs_loop fuel
                  (set_postFlushIndex 0 (set_parent (Some (sort_by_id deduped)) fs1)) with
          | Some (Normal _, fs') =>
              Some (Normal tt, set_postFlushIndex 0 (set_parent None fs'))
          | r => r
          end
      end
  end.

(** The loop of [flushJobs]: a job is called unless its [active] is [false];
    what it throws is reported and the loop goes on. *)
Fixpoint flushJobs_loop `{Jobs} (fuel : nat) (fs : flush_state) : option flush_state :=
  match queue (fs_sched fs) !! flushIndex (fs_sched fs) with
  | None => Some fs
  | Some j =>
      match fuel with
      | O => None
      | S fuel' =>
          let fs' := if bool_decide (j_ref j ∈ inactive fs) then fs
                     else callWithErrorHandling j "scheduler flush" fs in
          flushJobs_loop fuel'
            (upd_sched (fun s => set_flushIndex (S (flushIndex s)) s) fs')
      end
  end.

(** [flushJobs(seen)] *)
Fixpoint flushJobs `{Jobs} (fuel : nat) (fs : flush_state)
    : option (completion unit * flush_state) :=
  match fuel with
  | O => None
  | S fuel' =>
      match flushPreFlushCbs fuel' (upd_sched (set_flags true false) fs) with
      | Some (Normal _, fs1) =>
          match flushJobs_loop fuel'
                  (upd_sched (fun s => set_flushIndex 0 (set_queue (sort_by_id (queue s)) s))
                     fs1) with
          | Some fs2 =>
              match flushPostFlushCbs fuel'
                      (upd_sched (fun s => set_queue [] (set_flushIndex 0 s)) fs2) with
              | Some (Normal _, fs3) =>
                  let fs4 := upd_sched (fun s => set_flags false (isFlushPending s) s) fs3 in
                  if negb (Nat.eqb (length (queue (fs_sched fs4))) 0)
                     || negb (Nat.eqb (length (pendingPostFlushCbs fs4)) 0)
                  then flushJobs fuel' fs4
                  else Some (Normal tt, fs4)
              | r => r
              end
          | None => None
          end
      | r => r
      end
  end.

(** Jobs that do nothing to the scheduler: each returns, or throws, always
    the same. *)
Definition constant_jobs `{Jobs} (outcome : nat -> completion unit) : Prop :=
  forall r fs, call_job r fs = (outcome r, fs).

(** The jobs [flushJobs] calls in its first pass: those marked [pre], from
    index [1] on. *)
Definition pre_jobs (q : list job) : list job :=
  filter (fun j => j_pre j = true) (drop 1 q).

(** The jobs left for the main pass. *)
Definition main_jobs (q : list job) : list job :=
  take 1 q ++ filter (fun j => j_pre j <> true) (drop 1 q).

(** What the main pass reports for the jobs [l]. *)
Definition flush_errors (outcome : nat -> completion unit) (l : list job)
    : list (value * string) :=
  flat_map (fun j => match outcome (j_ref j) with
                     | Throw err => [(err, "scheduler flush")]
                     | Normal _ => []
                     end) l.

(** A host of jobs by their outcomes. *)
Definition jobs_of (outcome : nat -> completion unit) : Jobs :=
  {| call_job := fun r fs => (outcome r, fs) |}.

(** A queue to flush: job 1 with id 5, job 3 marked [pre] and without id,
    job 2 with id 3, which throws, job 4 with id 3, whose [active] is
    [false], and job 6 without id. *)
Definition sample_outcome (r : nat) : completion unit :=
  if Nat.eqb r 2 then Throw (VStr "boom") else Normal tt.

Definition sample_queue : list job :=
  [ {| j_ref := 1; j_id := Some 5%Z; j_allowRecurse := false; j_pre := false |};
    {| j_ref := 6; j_id := None; j_allowRecurse := false; j_pre := false |};
    {| j_ref := 3; j_id := None; j_allowRecurse := false; j_pre := true |};
    {| j_ref := 2; j_id := Some 3%Z; j_allowRecurse := false; j_pre := false |};
    {| j_ref := 4; j_id := Some 3%Z; j_allowRecurse := false; j_pre := false |} ].

Definition fs_sample : flush_state :=
  {| fs_sched := set_queue sample_queue sched_init;
     pendingPostFlushCbs := []; currentPostFlushParentJob := None;
     postFlushIndex := 0; inactive := [4]; ran := []; reported := [] |}.

(** The same queue with job 2 marked [pre]. *)
Definition fs_pre_throws : flush_state :=
  {| fs_sched :=
       set_queue
         [ {| j_ref := 1; j_id := Some 5%Z; j_allowRecurse := false; j_pre := false |};
           {| j_ref := 6; j_id := None; j_allowRecurse := false; j_pre := false |};
           {| j_ref := 3; j_id := None; j_allowRecurse := false; j_pre := true |};
           {| j_ref := 2; j_id := Some 3%Z; j_allowRecurse := false; j_pre := true |};
           {| j_ref := 4; j_id := Some 3%Z; j_allowRecurse := false; j_pre := false |} ]
         sched_init;
     pendingPostFlushCbs := []; currentPostFlushParentJob := None;
     postFlushIndex := 0; inactive := [4]; ran := []; reported := [] |}.

(** Three functions pending, one of them queued twice. *)
Definition fs_post_sample : flush_state :=
  {| fs_sched := sched_init;
     pendingPostFlushCbs :=
       [ {| j_ref := 1; j_id := Some 5%Z; j_allowRecurse := false; j_pre := false |};
         {| j_ref := 6; j_id := None; j_allowRecurse := false; j_pre := false |};
         {| j_ref := 1; j_id := Some 5%Z; j_allowRecurse := false; j_pre := false |};
         {| j_ref := 4; j_id := Some 3%Z; j_allowRecurse := false; j_pre := false |} ];
     currentPostFlushParentJob := None;
     postFlushIndex := 0; inactive := []; ran := []; reported := [] |}.

(** * Properties *)

Lemma Object_is_spec a b : Object_is a b = true <-> a = b.
Proof.
  destruct a, b; simpl; try (split; [discriminate | congruence]); try tauto.
  - rewrite Bool.eqb_true_iff. split; congruence.
  - destruct x, x0; simpl; try (split; [discriminate | congruence]); try tauto.
    + rewrite Bool.eqb_true_iff. split; congruence.
    + rewrite Z.eqb_eq. split; congruence.
  - rewrite bool_decide_eq_true. split; congruence.
  - rewrite Nat.eqb_eq. split; congruence.
Qed.

(** Projections of an updated state. *)
Ltac simpl_state :=
  cbn [heap effects deps targetMap reactiveMap shallowReactiveMap readonlyMap shallowReadonlyMap activeEffect shouldTrack trackStack activeEffectScope scopes console calls upd_heap upd_effects upd_deps upd_targetMap upd_reactiveMap upd_shallowReactiveMap upd_readonlyMap upd_shallowReadonlyMap upd_activeEffect upd_shouldTrack upd_trackStack upd_activeEffectScope upd_scopes upd_console upd_calls
       upd_proxyMap proxyMapOf negb andb orb truthy] in *.

(** Unfolding of the monadic primitives. *)
Ltac munfold :=
  repeat (progress (unfold bind, ret, gets, liftO, modify, stuck, throw,
                      get_effect, upd_effect, get_dep, get_computed,
                      upd_computed, get_ref, upd_ref, get_obj, when, warn in *);
          simpl_state).

(** ** Reasoning about computations *)

Section Preserves.
Context (R : state -> state -> Prop) `{!PreOrder R}.

Lemma preserves_ret {A} (a : A) : preserves R (ret a).
Proof. intros s c s' [= <- <-]. reflexivity. Qed.

Lemma preserves_throw {A} exn : preserves R (@throw A exn).
Proof. intros s c s' [= <- <-]. reflexivity. Qed.

Lemma preserves_stuck {A} : preserves R (@stuck A).
Proof. intros s c s' [=]. Qed.

Lemma preserves_gets {A} (f : state -> A) : preserves R (gets f).
Proof. intros s c s' [= <- <-]. reflexivity. Qed.

Lemma preserves_liftO {A} (f : state -> option A) : preserves R (liftO f).
Proof. intros s c s'. unfold liftO. destruct (f s); intros [= <- <-]. reflexivity. Qed.

Lemma preserves_modify f : (forall s, R s (f s)) -> preserves R (modify f).
Proof. intros Hf s c s' [= <- <-]. apply Hf. Qed.

Lemma preserves_bind {A B} (m : M A) (k : A -> M B) :
  preserves R m -> (forall a, preserves R (k a)) -> preserves R (bind m k).
Proof.
  intros Hm Hk s c s'. unfold bind.
  destruct (m s) as [[[a|exn] s1]|] eqn:E; try discriminate.
  - intros Hka. etransitivity; [ eapply Hm, E | eapply Hk, Hka ].
  - intros [= <- <-]. eapply Hm, E.
Qed.

Lemma preserves_finally {A} (body : M A) (fin : M unit) :
  preserves R body -> preserves R fin -> preserves R (finally body fin).
Proof.
  intros Hb Hf s c s'. unfold finally.
  destruct (body s) as [[c1 s1]|] eqn:E; try discriminate.
  destruct (fin s1) as [[[[]|exn] s2]|] eqn:E2; try discriminate;
    intros [= <- <-]; (etransitivity; [ eapply Hb, E | eapply Hf, E2 ]).
Qed.

Lemma preserves_for_each {A} (xs : list A) (body : A -> M unit) :
  (forall x, preserves R (body x)) -> preserves R (for_each xs body).
Proof.
  intros Hb. induction xs as [|x xs IH]; simpl.
  - apply preserves_ret.
  - apply preserves_bind; [ apply Hb | intros _; apply IH ].
Qed.

Lemma preserves_when b (m : M unit) : preserves R m -> preserves R (when b m).
Proof. intros Hm. destruct b; simpl; [ done | apply preserves_ret ]. Qed.
End Preserves.



#[local] Instance markers_kept_preorder : PreOrder markers_kept.
Proof.
  split.
  - intros s e E HE. eauto.
  - intros s1 s2 s3 H12 H23 e E HE.
    destruct (H12 e E HE) as (E2 & HE2 & Hm2).
    destruct (H23 e E2 HE2) as (E3 & HE3 & Hm3).
    exists E3. split; [ done | congruence ].
Qed.

Lemma for_each_app {A} (l1 l2 : list A) (f : A -> M unit) s :
  for_each (l1 ++ l2) f s = (for_each l1 f ;; for_each l2 f) s.
Proof.
  revert s. induction l1 as [|x l1 IH]; intros s; simpl.
  - reflexivity.
  - unfold bind. destruct (f x s) as [[[[]|exn] s1]|]; try reflexivity.
    rewrite IH. reflexivity.
Qed.

Lemma bind_ext_at {A B} (m m' : M A) (k k' : A -> M B) s :
  m s = m' s ->
  (forall a s1, m s = Some (Normal a, s1) -> k a s1 = k' a s1) ->
  bind m k s = bind m' k' s.
Proof.
  intros Hm Hk. unfold bind. rewrite <- Hm.
  destruct (m s) as [[[a|exn] s1]|]; try done. by apply Hk.
Qed.


Lemma bind_normal {A B} (m : M A) (k : A -> M B) s a s1 :
  m s = Some (Normal a, s1) -> bind m k s = k a s1.
Proof. intros Hm. unfold bind. by rewrite Hm. Qed.

Lemma bind_throw {A B} (m : M A) (k : A -> M B) s exn s1 :
  m s = Some (Throw exn, s1) -> bind m k s = Some (Throw exn, s1).
Proof. intros Hm. unfold bind. by rewrite Hm. Qed.

Lemma get_effect_at e E s :
  effects s !! e = Some E -> get_effect e s = Some (Normal E, s).
Proof. intros HE. unfold get_effect, liftO. by rewrite HE. Qed.


Section Markers.
Context `{Host}.
Hypothesis Hhost : host_keeps_markers.

Lemma markers_upd_effect e f :
  (forall E, is_computed_effect (f E) = is_computed_effect E) ->
  preserves markers_kept (upd_effect e f).
Proof.
  intros Hf. apply preserves_bind; [ apply _ | apply preserves_liftO; apply _ |].
  intros _. apply preserves_modify. intros s e' E' HE'. simpl.
  destruct (decide (e' = e)) as [->|Hne].
  - exists (f E'). rewrite lookup_alter_eq, HE'. simpl. auto.
  - exists E'. rewrite lookup_alter_ne by done. auto.
Qed.

Lemma markers_same_effects (f : state -> state) :
  (forall s, effects (f s) = effects s) -> preserves markers_kept (modify f).
Proof.
  intros Hf. apply preserves_modify. intros s e E HE. rewrite Hf. eauto.
Qed.

Lemma markers_invoke f args : preserves markers_kept (invoke f args).
Proof.
  intros s c s'. unfold invoke.
  pose proof (Hhost f args (upd_calls (fun l => l ++ [(f, args)]) s)) as Hk.
  destruct (apply_fn f args _) as [c1 s1]. simpl in Hk.
  intros [= <- <-]. intros e E HE. apply Hk, HE.
Qed.

Ltac pres :=
  repeat first
    [ solve [ auto ]
    | apply preserves_ret; apply _
    | apply preserves_gets; apply _
    | apply preserves_liftO; apply _
    | apply preserves_stuck
    | apply preserves_throw; apply _
    | apply markers_invoke
    | apply markers_same_effects; reflexivity
    | apply markers_upd_effect; reflexivity
    | apply preserves_bind; [ apply _ | | intros ? ]
    | apply preserves_finally; [ apply _ | | ]
    | apply preserves_for_each; [ apply _ | intros ? ]
    | apply preserves_when; [ apply _ | ]
    | match goal with
      | |- preserves _ (if ?b then _ else _) => destruct b
      | |- preserves _ (match ?x with _ => _ end) => destruct x
      end ].

Lemma markers_run e : preserves markers_kept (run e).
Proof. unfold run. pres. Qed.

Lemma markers_upd_computed c f : preserves markers_kept (upd_computed c f).
Proof. unfold upd_computed, get_computed. pres. Qed.

Lemma markers_triggerEffects_with te effs :
  (forall e, preserves markers_kept (te e)) ->
  preserves markers_kept (triggerEffects_with te effs).
Proof. intros Hte. unfold triggerEffects_with, get_effect. pres; apply Hte. Qed.

Lemma markers_triggerRefValue_with te v :
  (forall e, preserves markers_kept (te e)) ->
  preserves markers_kept (triggerRefValue_with te v).
Proof.
  intros Hte. unfold triggerRefValue_with, dep_of, get_dep. pres.
Qed.

Lemma markers_computed_scheduler_with te c :
  (forall e, preserves markers_kept (te e)) ->
  preserves markers_kept (computed_scheduler_with te c).
Proof.
  intros Hte. unfold computed_scheduler_with, get_computed. pres.
Qed.

Lemma markers_triggerEffect n e : preserves markers_kept (triggerEffect n e).
Proof.
  revert e. induction n as [|n IH]; intros e; simpl.
  - apply preserves_stuck.
  - unfold get_effect. pres.
Qed.

Lemma pass_filter (g : bool -> bool) te effs s0 s :
  (forall e, preserves markers_kept (te e)) ->
  markers_kept s0 s ->
  (forall e, e ∈ effs -> is_Some (effects s0 !! e)) ->
  for_each effs (fun e =>
    let* E := get_effect e in when (g (is_computed_effect E)) (te e)) s
  = for_each (filter (fun e => g (marker s0 e) = true) effs) te s.
Proof.
  intros Hte. revert s. induction effs as [|e effs IH]; intros s Hk Hex; [ done |].
  destruct (Hex e) as [E0 HE0]; [ set_solver |].
  destruct (Hk e E0 HE0) as (E & HE & Hm).
  assert (Hmk : marker s0 e = is_computed_effect E).
  { unfold marker. rewrite HE0. done. }
  assert (Hrest : forall e', e' ∈ effs -> is_Some (effects s0 !! e')) by set_solver.
  rewrite filter_cons.
  cbn [for_each]. unfold bind at 1 2, get_effect, liftO. rewrite HE.
  case_decide as Hd; rewrite Hmk in Hd.
  - rewrite Hd. cbn [when for_each]. unfold bind.
    destruct (te e s) as [[[[]|exn] s1]|] eqn:Hte1; try done.
    apply IH; [| done ]. etransitivity; [ exact Hk | eapply Hte, Hte1 ].
  - destruct (g (is_computed_effect E)); [ done |]. cbn [when]. unfold ret.
    by apply IH.
Qed.


Theorem triggerEffects_order n effs s :
  (forall e, e ∈ effs -> is_Some (effects s !! e)) ->
  triggerEffects n effs s = for_each (computed_first s effs) (triggerEffect n) s.
Proof.
  intros Hex. unfold triggerEffects, triggerEffects_with, computed_first.
  rewrite for_each_app. apply bind_ext_at.
  - apply (pass_filter (fun b => b)); [ apply markers_triggerEffect | reflexivity | done ].
  - intros [] s1 E1.
    apply (pass_filter negb); [ apply markers_triggerEffect | | done ].
    eapply preserves_for_each; [ apply _ | | exact E1 ].
    intros e. unfold get_effect. pres. apply markers_triggerEffect.
Qed.
End Markers.
(** ** The call stack of effects *)

Lemma chain_from_inj s p l1 l2 :
  chain_from s p l1 -> chain_from s p l2 -> l1 = l2.
Proof.
  revert p l2. induction l1 as [|x l1 IH]; intros p [|y l2]; simpl; try done.
  - intros -> [? _]. done.
  - intros [-> _] ?. done.
  - intros [-> (X & HX & H1)] [[= <-] (Y & HY & H2)].
    rewrite HX in HY. injection HY as <-. f_equal. eauto.
Qed.

Lemma chain_from_suffix s p a x b :
  chain_from s p (a ++ x :: b) -> chain_from s (Some x) (x :: b).
Proof.
  revert p. induction a as [|y a IH]; intros p; simpl.
  - intros [-> H]. done.
  - intros [-> (Y & HY & H)]. eapply IH, H.
Qed.

Lemma chain_from_NoDup s p l : chain_from s p l -> NoDup l.
Proof.
  revert p. induction l as [|x l IH]; intros p Hc; [ constructor |].
  pose proof Hc as [-> (X & HX & Hl)]. constructor; [| eauto ].
  intros Hin. apply list_elem_of_split in Hin as (a & b & ->).
  pose proof (chain_from_suffix _ _ _ _ _ Hl) as Hs.
  pose proof (chain_from_inj _ _ _ _ Hc Hs) as Heq.
  apply (f_equal length) in Heq. rewrite !length_cons, length_app, length_cons in Heq. lia.
Qed.

Lemma chain_from_dom s p l x : chain_from s p l -> x ∈ l -> is_Some (effects s !! x).
Proof.
  revert p. induction l as [|y l IH]; intros p; simpl; [ set_solver |].
  intros [-> (Y & HY & Hl)] Hin. apply elem_of_cons in Hin as [->|Hin]; eauto.
Qed.

Lemma chain_from_length s p l : chain_from s p l -> length l <= size (effects s).
Proof.
  intros Hc. pose proof (chain_from_NoDup _ _ _ Hc) as Hnd.
  rewrite <- size_dom, <- (size_list_to_set (C := gset eid) l) by done.
  apply subseteq_size. intros x Hx. apply elem_of_list_to_set in Hx.
  apply elem_of_dom. eapply chain_from_dom; eauto.
Qed.

Lemma isAncestor_chain n s p l this :
  chain_from s p l -> length l <= n ->
  isAncestor n s p this = Some (bool_decide (this ∈ l)).
Proof.
  revert p l. induction n as [|n IH]; intros p l Hc Hn.
  - destruct l; [| simpl in Hn; lia ]. simpl in Hc. subst p. done.
  - destruct l as [|x l]; simpl in Hc.
    + subst p. done.
    + destruct Hc as [-> (X & HX & Hl)]. simpl.
      case_bool_decide as Hx.
      * subst x. rewrite bool_decide_true by (apply elem_of_cons; auto). done.
      * rewrite HX. destruct n as [|n'].
        { simpl in Hn. destruct l; [| simpl in Hn; lia ]. simpl in Hl.
          rewrite Hl. simpl.
          rewrite bool_decide_false by (rewrite elem_of_cons, elem_of_nil; intros [?|[]]; done).
          done. }
        rewrite (IH _ l) by (simpl in Hn; auto with lia).
        f_equal. apply bool_decide_ext. rewrite elem_of_cons. intuition congruence.
Qed.

(** ** Re-entrance of an effect *)

Section Reentry.
Context `{Host}.

Lemma triggerEffect_self_skipped n e E s :
  effects s !! e = Some E ->
  activeEffect s = Some e ->
  e_allowRecurse E = false ->
  triggerEffect (S n) e s = Some (Normal tt, s).
Proof.
  intros HE Ha Hr. simpl. unfold bind, get_effect, liftO, gets.
  rewrite HE, Ha, Hr. rewrite bool_decide_true by done. done.
Qed.

Lemma run_on_stack e E l s :
  call_stack s l -> e ∈ l ->
  effects s !! e = Some E -> e_active E = true ->
  run e s = Some (Normal VUndef, s).
Proof.
  intros Hc Hin HE Hact. unfold run, bind, get_effect, liftO, gets.
  rewrite HE, Hact. simpl.
  rewrite (isAncestor_chain _ _ _ l) by (done || by eapply chain_from_length).
  rewrite bool_decide_true by done. done.
Qed.

Lemma triggerEffect_on_stack n e E l s :
  call_stack s l -> e ∈ l ->
  effects s !! e = Some E -> e_active E = true -> e_scheduler E = None ->
  triggerEffect (S n) e s = Some (Normal tt, s).
Proof.
  intros Hc Hin HE Hact Hsch. simpl. unfold bind at 1 2, get_effect, liftO, gets.
  rewrite HE, Hsch.
  destruct (_ || _); [| done ].
  unfold bind. erewrite run_on_stack by eauto. done.
Qed.
End Reentry.

(** C4 (amended).  For an effect on the call stack: a notification naming
    the effect that is running (the top of the stack) is skipped unless the
    effect is marked [allowRecurse]; [run()] on it returns at once without
    calling the body when the effect is active; and a notification naming an
    active effect without a scheduler, wherever it is on the stack, changes
    nothing. *)
Theorem no_reentry `{Host} n e E l s :
  call_stack s l -> e ∈ l -> effects s !! e = Some E ->
  (activeEffect s = Some e -> e_allowRecurse E = false ->
     triggerEffect (S n) e s = Some (Normal tt, s))
  /\ (e_active E = true -> run e s = Some (Normal VUndef, s))
  /\ (e_active E = true -> e_scheduler E = None ->
     triggerEffect (S n) e s = Some (Normal tt, s)).
Proof.
  intros Hc Hin HE. split; [| split ].
  - intros. by eapply triggerEffect_self_skipped.
  - intros. by eapply run_on_stack.
  - intros. by eapply triggerEffect_on_stack.
Qed.

Lemma no_reentry_witness :
  call_stack s_running [0] /\
  @triggerEffect quiet_host 1 0 s_running = Some (Normal tt, s_running) /\
  @run quiet_host 0 s_running = Some (Normal VUndef, s_running).
Proof.
  assert (Hc : call_stack s_running [0]).
  { split; [ reflexivity |]. eexists. split; reflexivity. }
  pose proof (@no_reentry quiet_host 0 0 (plain_effect 7) [0] s_running Hc
                ltac:(apply list_elem_of_singleton; reflexivity)
                ltac:(reflexivity)) as (H1 & H2 & _).
  split; [ exact Hc |]. split.
  - apply H1; reflexivity.
  - apply H2; reflexivity.
Defined.

(** C4 as stated fails for a stopped effect: effect [0] is on the call stack,
    and [run()] calls its function [7] all the same. *)
Lemma run_stopped_on_stack :
  call_stack s_stopped_running [0] /\
  @run quiet_host 0 s_stopped_running
  = Some (Normal VUndef, upd_calls (fun _ => [(7, [])]) s_stopped_running).
Proof.
  split.
  - split; [ reflexivity |]. eexists. split; reflexivity.
  - reflexivity.
Qed.

(** ** Refs *)

Lemma isRef_of_ref s a r : heap s !! a = Some (HRef r) -> isRef s (VObj a) = Some true.
Proof. intros Ha. unfold isRef. destruct (size (heap s)); simpl; by rewrite Ha. Qed.

Lemma bind_Some_normal {A B} (m : M A) (k : A -> M B) s b s' :
  bind m k s = Some (Normal b, s') ->
  exists a s1, m s = Some (Normal a, s1) /\ k a s1 = Some (Normal b, s').
Proof.
  unfold bind. destruct (m s) as [[[a|exn] s1]|]; try done. eauto.
Qed.

(** The box [ref] builds for a value that is not a box is a box. *)
Lemma createRef_isRef v shallow s r s' :
  createRef v shallow s = Some (Normal r, s') -> isRef s' r = Some true.
Proof.
  unfold createRef. intros Hc.
  apply bind_Some_normal in Hc as (isR & s1 & H1 & Hc).
  unfold liftO in H1. destruct (isRef s v) as [b|] eqn:Hb; [| done ].
  injection H1 as <- <-. destruct b.
  - injection Hc as <- <-. done.
  - unfold RefImpl_new in Hc.
    apply bind_Some_normal in Hc as (raw & s1 & _ & Hc).
    apply bind_Some_normal in Hc as (wrapped & s2 & _ & Hc).
    apply bind_Some_normal in Hc as (a & s3 & Ha & Hc).
    injection Hc as <- <-. injection Ha as <- <-.
    eapply isRef_of_ref. simpl. apply lookup_insert_eq.
Qed.



(** Box creation is idempotent: boxing the result of [ref] returns it. *)
Corollary ref_idempotent v s r s' :
  ref v s = Some (Normal r, s') -> ref r s' = Some (Normal r, s').
Proof.
  intros Hc. apply createRef_isRef in Hc.
  unfold ref, createRef, bind, liftO. by rewrite Hc.
Qed.

(** ** Writing to a computed value *)

Lemma ComputedRefImpl_new_heap getter setter ro ssr s c s' :
  ComputedRefImpl_new getter setter ro ssr s = Some (Normal c, s') ->
  exists e,
    heap s' !! c = Some (HComputed
      {| c_setter := setter; c_dep := None; c_isReadonly := ro; c_dirty := true;
         c_effect := e; c_cacheable := negb ssr; c_value := VUndef |})
    /\ console s' = console s /\ calls s' = calls s.
Proof.
  unfold ComputedRefImpl_new. intros Hc.
  apply bind_Some_normal in Hc as (this & s1 & H1 & Hc). injection H1 as <- <-.
  apply bind_Some_normal in Hc as (e & s1 & H1 & Hc).
  apply bind_Some_normal in Hc as ([] & s2 & H2 & Hc).
  apply bind_Some_normal in Hc as ([] & s3 & H3 & Hc).
  apply bind_Some_normal in Hc as ([] & s4 & H4 & Hc).
  injection Hc as <- <-. injection H4 as <-.
  exists e. split; [ simpl; apply lookup_insert_eq |].
  assert (Hupd : forall f sa sb,
            upd_effect e f sa = Some (Normal tt, sb) ->
            console sb = console sa /\ calls sb = calls sa).
  { intros f sa sb. unfold upd_effect, bind, get_effect, liftO, modify.
    destruct (effects sa !! e); [| done ]. intros [= <-]. done. }
  simpl. apply Hupd in H3 as [-> ->]. apply Hupd in H2 as [-> ->].
  unfold ReactiveEffect_new in H1.
  apply bind_Some_normal in H1 as (e' & sa & Ha & H1). injection Ha as <- <-.
  apply bind_Some_normal in H1 as ([] & sb & Hb & H1). injection H1 as <- <-.
  unfold recordEffectScope, bind, gets, liftO in Hb. simpl_state.
  destruct (activeEffectScope s) as [sc|]; simpl_state;
    [| injection Hb as <-; split; reflexivity ].
  destruct (scopes s !! sc) as [sco|]; simpl_state; [| done ].
  destruct (sc_active sco); injection Hb as <-; split; reflexivity.
Qed.

(** A computed value built from a bare getter rejects a write with a
    warning: nothing else changes and nothing is thrown. *)
Lemma computed_getter_only_write `{Host} getter isSSR s c s' v :
  computed (GetterFn getter) isSSR s = Some (Normal c, s') ->
  computed_set_value c v s'
  = Some (Normal tt, upd_console (fun l => l ++ [WarnComputedReadonly]) s').
Proof.
  intros Hc. simpl in Hc. apply ComputedRefImpl_new_heap in Hc as (e & Hh & _).
  unfold computed_set_value, bind, get_computed, liftO. rewrite Hh. done.
Qed.

(** C7, the options form.  A computed value built from an options object with
    [get] alone is marked read-only, and a write to it calls [undefined]: a
    TypeError is thrown and no warning is reported. *)
Theorem computed_options_get_only_write `{Host} get isSSR s c s' v :
  computed (GetterSetter get None) isSSR s = Some (Normal c, s') ->
  isReadonly s' (VObj c) = true /\
  computed_set_value c v s'
  = Some (Throw (TypeError "this._setter is not a function"), s').
Proof.
  intros Hc. simpl in Hc. apply ComputedRefImpl_new_heap in Hc as (e & Hh & _).
  unfold computed_set_value, isReadonly, bind, get_computed, liftO. rewrite Hh. done.
Qed.

Lemma computed_options_get_only_write_witness :
  exists c s',
    computed (GetterSetter 3 None) false initial_state = Some (Normal c, s') /\
    console s' = [] /\
    @computed_set_value quiet_host c (VNum (Int 5)) s'
    = Some (Throw (TypeError "this._setter is not a function"), s').
Proof.
  eexists _, _. split; [ reflexivity |]. split; [ reflexivity |].
  eapply (@computed_options_get_only_write quiet_host 3 false initial_state).
  reflexivity.
Defined.

(** ** Creating and running an effect *)

Lemma upd_effect_at e f E s :
  effects s !! e = Some E ->
  upd_effect e f s = Some (Normal tt, upd_effects (alter f e) s).
Proof. intros HE. unfold upd_effect, bind, get_effect, liftO. by rewrite HE. Qed.

Lemma ReactiveEffect_new_at fn sched s :
  scope_ok s ->
  exists g,
    ReactiveEffect_new fn sched s
    = Some (Normal (fresh (dom (effects s))),
            upd_scopes g (upd_effects (insert (fresh (dom (effects s)))
              {| e_fn := fn; e_scheduler := sched; e_active := true;
                 e_deps := []; e_parent := None; e_computed := None;
                 e_allowRecurse := false; e_onStop := None |}) s)).
Proof.
  intros Hsc. unfold ReactiveEffect_new, new_effect, recordEffectScope, scope_ok in *.
  unfold bind, gets, liftO, modify, ret. simpl_state.
  destruct (activeEffectScope s) as [sc|]; simpl_state.
  - destruct Hsc as [sco Hsco]. rewrite Hsco.
    destruct (sc_active sco); simpl_state.
    + eexists. reflexivity.
    + exists (fun x => x). reflexivity.
  - exists (fun x => x). reflexivity.
Qed.

Lemma chain_from_ext s s' p l :
  (forall x, x ∈ l -> effects s' !! x = effects s !! x) ->
  chain_from s p l -> chain_from s' p l.
Proof.
  revert p. induction l as [|x l IH]; intros p Heq; simpl; [ done |].
  intros [-> (X & HX & Hl)]. split; [ done |]. exists X. split.
  - rewrite Heq; [ done | apply elem_of_cons; auto ].
  - apply IH; [| done ]. intros y Hy. apply Heq, elem_of_cons. auto.
Qed.

Section Run.
Context `{Host}.

(** [run()] of an active effect that is not on the call stack: the function
    is called once, between the set-up and the [finally] block. *)
Lemma run_off_stack e E l s :
  effects s !! e = Some E -> e_active E = true ->
  call_stack s l -> e ∉ l ->
  let r := apply_fn (e_fn E) [] (logged (e_fn E) [] (entered e s)) in
  is_Some (effects r.2 !! e) ->
  run e s = Some (r.1, resumed e (shouldTrack s) r.2).
Proof.
  intros HE Hact Hc Hnin r [E2 HE2].
  unfold run, finally, invoke. munfold. rewrite HE, Hact. cbn [negb].
  rewrite (isAncestor_chain _ _ _ l) by (done || by eapply chain_from_length).
  rewrite bool_decide_false by done. simpl_state.
  rewrite HE. simpl_state.
  rewrite lookup_alter_eq, HE. cbn [fmap option_fmap option_map set_e_parent e_fn].
  fold (entered e s) in *. unfold r in *. clear r.
  destruct (apply_fn _ _ _) as [c s2]. simpl in HE2.
  rewrite HE2. simpl_state. rewrite HE2.
  unfold resumed. simpl. by rewrite HE2.
Qed.

(** [run()] of an effect that is not active: the function is called, and
    nothing else is done. *)
Lemma run_inactive e E s :
  effects s !! e = Some E -> e_active E = false ->
  run e s = Some (apply_fn (e_fn E) [] (logged (e_fn E) [] s)).
Proof.
  intros HE Hact. unfold run, invoke. munfold. by rewrite HE, Hact.
Qed.
End Run.

Lemma recordEffectScope_at e s :
  scope_ok s -> recordEffectScope e s = Some (Normal tt, recorded e s).
Proof.
  intros Hsc. unfold recordEffectScope, recorded, scope_ok in *. munfold.
  destruct (activeEffectScope s) as [sc|]; simpl_state; [| done ].
  destruct Hsc as [sco Hsco]. rewrite Hsco. by destruct (sc_active sco).
Qed.

(** [effect(fn, options)] with a fresh effect [e]: the constructor and
    [extend] lead to the state [created]. *)
Lemma effect_setup `{Host} fn f options s :
  callee s fn = Some f -> scope_ok s -> opt_other options = false ->
  let e := fresh (dom (effects s)) in
  let s1 := created f options s in
  effect fn options s
  = ((if negb (opt_lazy options) then run e ;; ret tt else ret tt) ;;
     let* runner := alloc (HRunner e) in ret (VObj runner)) s1
  /\ effects s1 !! e = Some (extend_effect options (constructed f None))
  /\ (forall x, x <> e -> effects s1 !! x = effects s !! x)
  /\ activeEffect s1 = activeEffect s /\ shouldTrack s1 = shouldTrack s
  /\ calls s1 = calls s /\ heap s1 = heap s.
Proof.
  intros Hf Hsc Hother e s1.
  set (s0 := upd_effects (insert e (constructed f None)) s).
  assert (Hsc0 : scope_ok s0) by exact Hsc.
  assert (Hrec : effects (recorded e s0) = effects s0
                 /\ activeEffect (recorded e s0) = activeEffect s
                 /\ shouldTrack (recorded e s0) = shouldTrack s
                 /\ calls (recorded e s0) = calls s
                 /\ heap (recorded e s0) = heap s).
  { unfold recorded. destruct (activeEffectScope s0) as [sc|]; [| done ].
    destruct (scopes s0 !! sc) as [sco|]; [| done ].
    by destruct (sc_active sco). }
  destruct Hrec as (Heffs & Hae & Hst & Hcalls & Hheap).
  assert (HE1 : effects (recorded e s0) !! e = Some (constructed f None)).
  { rewrite Heffs. apply lookup_insert_eq. }
  split_and!.
  - unfold effect. unfold bind at 1 2 3, liftO at 1. rewrite Hf.
    unfold ReactiveEffect_new, new_effect. unfold bind at 1 2. fold e. fold s0.
    rewrite (recordEffectScope_at e s0 Hsc0). unfold ret at 1. rewrite Hother.
    by rewrite (upd_effect_at e _ _ _ HE1).
  - unfold s1, created. fold e. fold s0. simpl_state.
    by rewrite lookup_alter_eq, HE1.
  - intros x Hx. unfold s1, created. fold e. fold s0. simpl_state.
    rewrite lookup_alter_ne by done. rewrite Heffs.
    unfold s0. simpl_state. by rewrite lookup_insert_ne.
  - exact Hae.
  - exact Hst.
  - exact Hcalls.
  - exact Hheap.
Qed.

(** C10.  [effect(fn, options)], for options that carry no [fn] and none of
    [run], [stop], [deps], [parent], [computed], builds a new effect for the
    function of [fn].  With [lazy] nothing is called: the result is the state
    after the constructor and [extend], with the runner added.  Otherwise the
    function is called once, in the state [s_pre]: its call is the one entry
    added to the log, and the effect is the running one unless the options
    made it inactive.  [effect] ends as that one call does: when the function
    returns, with a runner in the state the call has left; when it throws,
    with what it has thrown and no runner.  The [.effect] of the runner is
    the new effect. *)
Theorem effect_runs_body_once `{Host} fn f options s l :
  callee s fn = Some f -> call_stack s l -> scope_ok s ->
  opt_fn options = None -> opt_other options = false ->
  let e := fresh (dom (effects s)) in
  let s1 := created f options s in
  let active := default true (opt_active options) in
  let s_pre := logged f [] (if active then entered e s1 else s1) in
  let r := apply_fn f [] s_pre in
  let s2 := if active then resumed e (shouldTrack s) r.2 else r.2 in
  let with_runner s' :=
    Some (Normal (VObj (fresh (dom (heap s')))),
          upd_heap (insert (fresh (dom (heap s'))) (HRunner e)) s') in
  effects s !! e = None
  /\ (exists E, effects s1 !! e = Some E /\ e_fn E = f /\ e_active E = active)
  /\ calls s1 = calls s
  /\ calls s_pre = calls s ++ [(f, [])]
  /\ (opt_lazy options = true -> effect fn options s = with_runner s1)
  /\ (opt_lazy options = false -> is_Some (effects r.2 !! e) ->
      effect fn options s
      = match r.1 with
        | Normal _ => with_runner s2
        | Throw exn => Some (Throw exn, s2)
        end
      /\ calls s2 = calls r.2).
Proof.
  intros Hf Hc Hsc Hfn Hother e s1 active s_pre r s2 with_runner.
  destruct (effect_setup fn f options s Hf Hsc Hother)
    as (Heff & HE1 & Hothers & Hae & Hst & Hcalls & Hheap).
  fold e s1 in Heff, HE1, Hothers, Hae, Hst, Hcalls, Hheap.
  assert (Hfresh : effects s !! e = None) by (apply not_elem_of_dom, is_fresh).
  assert (HfnE : e_fn (extend_effect options (constructed f None)) = f).
  { simpl. by rewrite Hfn. }
  assert (HactE : e_active (extend_effect options (constructed f None)) = active).
  { reflexivity. }
  split_and!.
  - exact Hfresh.
  - eexists. split; [ exact HE1 |]. by split.
  - exact Hcalls.
  - unfold s_pre, logged, entered. destruct active; simpl_state; by rewrite Hcalls.
  - intros Hlazy. rewrite Heff, Hlazy. reflexivity.
  - intros Hlazy Hkept.
    assert (Hrun : run e s1 = Some (r.1, s2)).
    { unfold s2, r, s_pre in *. clearbody active. destruct active.
      - assert (Hnin : e ∉ l).
        { intros Hin. eapply chain_from_dom in Hin as [X HX]; [| exact Hc ].
          congruence. }
        assert (Hc1 : call_stack s1 l).
        { unfold call_stack. rewrite Hae. eapply chain_from_ext; [| exact Hc ].
          intros x Hx. apply Hothers. congruence. }
        rewrite <- Hst.
        pose proof (run_off_stack e _ l s1 HE1 HactE Hc1 Hnin) as Hrun.
        rewrite HfnE in Hrun. by apply Hrun.
      - pose proof (run_inactive e _ s1 HE1 HactE) as Hrun.
        rewrite HfnE in Hrun. rewrite Hrun. by destruct (apply_fn _ _ _). }
    split.
    + rewrite Heff, Hlazy. cbn [negb]. unfold bind at 1 2. rewrite Hrun.
      destruct r.1; reflexivity.
    + unfold s2. clearbody active. destruct active; [| done ]. reflexivity.
Qed.

Lemma effect_runs_body_once_witness :
  (exists r s',
     @effect quiet_host (VObj 0) lazy s_one_fun = Some (Normal (VObj r), s') /\
     calls s' = [] /\ heap s' !! r = Some (HRunner 0)) /\
  (exists r s',
     @effect quiet_host (VObj 0) eager s_one_fun = Some (Normal (VObj r), s') /\
     calls s' = [(7, [])] /\ heap s' !! r = Some (HRunner 0) /\
     activeEffect s' = None).
Proof.
  assert (Hf : callee s_one_fun (VObj 0) = Some 7) by reflexivity.
  assert (Hc : call_stack s_one_fun []) by reflexivity.
  assert (Hs : scope_ok s_one_fun) by exact I.
  split.
  - destruct (@effect_runs_body_once quiet_host (VObj 0) 7 lazy s_one_fun []
                Hf Hc Hs eq_refl eq_refl) as (_ & _ & _ & _ & Hlazy & _).
    rewrite (Hlazy eq_refl). eexists _, _. split; [ reflexivity |].
    split; [ reflexivity |]. vm_compute. reflexivity.
  - destruct (@effect_runs_body_once quiet_host (VObj 0) 7 eager s_one_fun []
                Hf Hc Hs eq_refl eq_refl) as (_ & _ & _ & _ & _ & Heager).
    destruct (Heager eq_refl) as [Heff _]; [ vm_compute; eauto |].
    rewrite Heff. eexists _, _. split; [ reflexivity |].
    split; [ reflexivity |]. split; vm_compute; reflexivity.
Defined.

(** The claim as it stands fails for options that carry [fn], which
    [Object.assign] copies over the function of the effect: the function
    handed to [effect] is never called, the other one is.  And when the
    function throws, [effect] throws and returns no runner. *)
Lemma effect_body_replaced_or_throwing :
  callee s_one_fun (VObj 0) = Some 7 /\
  (fun r => (r.1, calls r.2))
    <$> @effect quiet_host (VObj 0) replacing_fn s_one_fun
  = Some (Normal (VObj 1), [(8, [])]) /\
  (fun r => (r.1, calls r.2))
    <$> @effect throwing_host (VObj 0) eager s_one_fun
  = Some (Throw (VStr "boom"), [(7, [])]).
Proof. split_and!; vm_compute; reflexivity. Qed.

(** ** Computed values *)

Lemma toRaw_not_proxy s a :
  get_v_raw s a = Some VUndef -> toRaw s (VObj a) = Some (VObj a).
Proof.
  intros Hr. unfold toRaw. destruct (size (heap s)); simpl; by rewrite Hr.
Qed.

Lemma get_v_raw_computed s c C :
  heap s !! c = Some (HComputed C) -> get_v_raw s c = Some VUndef.
Proof. intros Hc. unfold get_v_raw. by rewrite Hc. Qed.

Lemma same_cache_refl C : same_cache C C.
Proof. by repeat split. Qed.

Lemma same_cache_set_dep C d : same_cache C (set_c_dep d C).
Proof. by repeat split. Qed.

(** [trackEffects] touches the set and the running effect only. *)
Lemma trackEffects_spec d s o s' :
  trackEffects d s = Some (o, s') ->
  o = Normal tt /\ heap s' = heap s /\ calls s' = calls s
  /\ activeEffect s' = activeEffect s /\ shouldTrack s' = shouldTrack s.
Proof.
  unfold trackEffects. munfold.
  destruct (activeEffect s) as [e|] eqn:Ha; [| done ].
  destruct (deps s !! d) as [content|]; simpl_state; [| done ].
  case_bool_decide; simpl_state.
  - intros [= <- <-]. done.
  - destruct (effects s !! e) as [E|] eqn:HE; simpl_state; [| done ].
    rewrite HE. simpl_state. intros [= <- <-]. done.
Qed.

Lemma trackEffects_total d s e :
  activeEffect s = Some e -> is_Some (effects s !! e) -> is_Some (deps s !! d) ->
  exists s', trackEffects d s = Some (Normal tt, s').
Proof.
  intros Ha [E HE] [content Hd]. unfold trackEffects. munfold.
  rewrite Ha, Hd. simpl_state. case_bool_decide; simpl_state; [ by eexists |].
  rewrite HE. simpl_state. rewrite HE. simpl_state. by eexists.
Qed.

(** Reading a computed value records the read and nothing else: no function
    is called, and the cache of the computed value is as it was. *)
Lemma trackRefValue_computed s c C o s' :
  heap s !! c = Some (HComputed C) ->
  trackRefValue (VObj c) s = Some (o, s') ->
  o = Normal tt /\ calls s' = calls s
  /\ activeEffect s' = activeEffect s /\ shouldTrack s' = shouldTrack s
  /\ (forall a, a <> c -> heap s' !! a = heap s !! a)
  /\ exists C', heap s' !! c = Some (HComputed C') /\ same_cache C C'.
Proof.
  intros Hc. unfold trackRefValue, dep_of, set_dep_of, new_dep. munfold.
  destruct (shouldTrack s) eqn:Hst; simpl_state.
  2:{ intros [= <- <-]. repeat split; try done. eauto using same_cache_refl. }
  destruct (activeEffect s) as [e|] eqn:Ha; simpl_state.
  2:{ intros [= <- <-]. repeat split; try done. eauto using same_cache_refl. }
  rewrite (toRaw_not_proxy s c) by (by eapply get_v_raw_computed). simpl_state.
  rewrite Hc. simpl_state.
  destruct (c_dep C) as [d|] eqn:Hd; simpl_state.
  - intros (-> & Hh & Hcalls & Hae & Hsh)%trackEffects_spec.
    rewrite Hh. repeat split; try congruence. eauto using same_cache_refl.
  - rewrite Hc. simpl_state.
    match goal with |- context [trackEffects ?d ?st] =>
      destruct (trackEffects d st) as [[o1 s1]|] eqn:Ht; [| done ] end.
    apply trackEffects_spec in Ht as (-> & Hh & Hcalls & Hae & Hsh).
    simpl_state. intros [= <- <-]. rewrite Hh.
    repeat split; try congruence.
    + intros a Hne. by rewrite lookup_insert_ne.
    + eexists. split; [ apply lookup_insert_eq | apply same_cache_set_dep ].
Qed.

Lemma trackRefValue_computed_total s c C :
  heap s !! c = Some (HComputed C) -> tracking_ok s C ->
  exists s', trackRefValue (VObj c) s = Some (Normal tt, s').
Proof.
  intros Hc Hok. unfold trackRefValue, dep_of, set_dep_of, new_dep. munfold.
  destruct (shouldTrack s) eqn:Hst; simpl_state; [| by eexists ].
  destruct (activeEffect s) as [e|] eqn:Ha; simpl_state; [| by eexists ].
  destruct (Hok Hst e Ha) as [HE Hdep].
  rewrite (toRaw_not_proxy s c) by (by eapply get_v_raw_computed). simpl_state.
  rewrite Hc. simpl_state.
  destruct (c_dep C) as [d|] eqn:Hd; simpl_state.
  - eapply trackEffects_total; eauto.
  - rewrite Hc. simpl_state.
    match goal with |- context [trackEffects ?d ?st] =>
      destruct (trackEffects_total d st e) as [s1 H1] end;
      simpl_state; try done.
    { rewrite lookup_insert_eq. eauto. }
    rewrite H1. by eexists.
Qed.

Section ComputedLazy.
Context `{Host}.

Lemma at_most_one_call_ext s0 s1 s s' :
  calls s0 = calls s -> calls s1 = calls s' ->
  at_most_one_call s s' -> at_most_one_call s0 s1.
Proof. unfold at_most_one_call. intros -> ->. done. Qed.

(** When no function calls another through the library, at most one entry
    has been added to the log. *)
Lemma at_most_one_call_silent s s' :
  (forall f, fn_silent f) -> at_most_one_call s s' ->
  calls s' = calls s \/ exists f, calls s' = calls s ++ [(f, [])].
Proof.
  intros Hsilent [Heq|(f & s_pre & Hpre & Hpost)]; [ by left | right ].
  exists f. by rewrite Hpost, Hsilent.
Qed.

(** [run()] calls the function of the effect at most once. *)
Lemma run_calls e s o s' :
  run e s = Some (o, s') -> at_most_one_call s s'.
Proof.
  unfold run, finally, invoke. munfold.
  destruct (effects s !! e) as [E|] eqn:HE; simpl_state; [| done ].
  destruct (e_active E); cbn [negb].
  2:{ intros [= Happ]. right. exists (e_fn E), (logged (e_fn E) [] s).
      split; [ done |]. by rewrite Happ. }
  destruct (isAncestor _ _ _ _) as [[]|]; simpl_state; try done.
  { intros [= <- <-]. by left. }
  rewrite HE. simpl_state. rewrite lookup_alter_eq, HE.
  cbn [fmap option_fmap option_map set_e_parent e_fn].
  match goal with |- context [apply_fn ?f ?a ?st] =>
    destruct (apply_fn f a st) as [c1 s1] eqn:Happ end.
  simpl_state.
  destruct (effects s1 !! e) as [E1|] eqn:HE1; simpl_state; [| done ].
  rewrite HE1. simpl_state. intros [= <- <-]. right.
  eexists _, _. split; [| rewrite Happ; reflexivity ]. reflexivity.
Qed.

(** The scheduler of a computed value: a no-op when the value is already
    dirty; otherwise it sets the flag and notifies the dependents of the
    computed value. *)
Lemma computed_scheduler_spec n c C s :
  heap s !! c = Some (HComputed C) ->
  computed_scheduler n c s
  = if c_dirty C then Some (Normal tt, s)
    else triggerRefValue n (VObj c)
           (upd_heap (insert c (HComputed (set_c_dirty true C))) s).
Proof.
  intros Hc. unfold computed_scheduler, computed_scheduler_with, triggerRefValue.
  munfold. rewrite Hc. simpl_state. destruct (c_dirty C); cbn [negb]; [ done |].
  rewrite Hc. simpl_state. done.
Qed.

Lemma triggerRefValue_computed n c C s :
  heap s !! c = Some (HComputed C) ->
  triggerRefValue n (VObj c) s
  = match c_dep C with
    | Some d => (let* effs := get_dep d in triggerEffects n effs) s
    | None => Some (Normal tt, s)
    end.
Proof.
  intros Hc. unfold triggerRefValue, triggerRefValue_with, dep_of.
  unfold bind at 1, liftO at 1.
  rewrite (toRaw_not_proxy s c) by (by eapply get_v_raw_computed).
  unfold bind at 1, liftO at 1. rewrite Hc. destruct (c_dep C); done.
Qed.

(** A read of a clean, cacheable computed value. *)
Lemma computed_get_clean c C s :
  heap s !! c = Some (HComputed C) ->
  c_dirty C = false -> c_cacheable C = true -> tracking_ok s C ->
  exists s' C',
    computed_get_value c s = Some (Normal (c_value C), s')
    /\ calls s' = calls s
    /\ heap s' !! c = Some (HComputed C') /\ same_cache C C'.
Proof.
  intros Hc Hd Hca Hok.
  destruct (trackRefValue_computed_total s c C Hc Hok) as [s' Ht].
  destruct (trackRefValue_computed s c C _ _ Hc Ht)
    as (_ & Hcalls & _ & _ & _ & C' & Hc' & Hsame).
  exists s', C'. split; [| done ].
  unfold computed_get_value. unfold bind at 1. rewrite Ht.
  munfold. rewrite Hc'. simpl_state.
  destruct Hsame as (Hd' & Hv' & Hca' & _). rewrite Hd', Hca', Hd, Hca. simpl.
  rewrite Hc'. simpl_state. by rewrite Hv'.
Qed.

(** A read calls at most one function, and a read that returns leaves the
    value it returns in the cache. *)
Lemma computed_get_calls c C s o s' :
  heap s !! c = Some (HComputed C) ->
  computed_get_value c s = Some (o, s') ->
  at_most_one_call s s'
  /\ forall v, o = Normal v ->
       exists C', heap s' !! c = Some (HComputed C') /\ c_value C' = v.
Proof.
  intros Hc. unfold computed_get_value. unfold bind at 1.
  destruct (trackRefValue (VObj c) s) as [[o1 s1]|] eqn:Ht; [| done ].
  destruct (trackRefValue_computed s c C _ _ Hc Ht)
    as (-> & Hcalls & _ & _ & _ & C1 & Hc1 & Hsame).
  unfold bind at 1, get_computed at 1, liftO at 1.
  rewrite Hc1.
  assert (Hlast : forall s2 o s',
    at_most_one_call s1 s2 ->
    (let* C' := get_computed c in ret (c_value C')) s2 = Some (o, s') ->
    at_most_one_call s s'
    /\ forall v, o = Normal v ->
         exists C', heap s' !! c = Some (HComputed C') /\ c_value C' = v).
  { intros s2 o2 s2' Hcs. munfold.
    destruct (heap s2 !! c) as [[| | |C2| |]|] eqn:Hc2; simpl_state; try done.
    intros [= <- <-]. split.
    - by apply (at_most_one_call_ext s s2 s1 s2).
    - intros v [= <-]. eauto. }
  destruct (c_dirty C1 || negb (c_cacheable C1)).
  2:{ unfold bind at 1, ret at 1. apply Hlast. by left. }
  unfold bind at 1.
  match goal with |- match ?m s1 with _ => _ end = _ -> _ =>
    destruct (m s1) as [[[[]|exn] s2]|] eqn:Hm; try done end.
  - intros Hl. eapply Hlast; [| exact Hl ].
    revert Hm. munfold. rewrite Hc1. simpl_state. rewrite lookup_insert_eq. simpl_state.
    destruct (run _ _) as [[[v|exn] s3]|] eqn:Hrun; simpl_state; try done.
    apply run_calls in Hrun. simpl_state.
    destruct (heap s3 !! c) as [[| | |C3| |]|]; simpl_state; try done.
    intros [= <-]. by eapply at_most_one_call_ext; [| | exact Hrun ].
  - intros [= <- <-]. split; [| done ].
    revert Hm. munfold. rewrite Hc1. simpl_state. rewrite lookup_insert_eq. simpl_state.
    destruct (run _ _) as [[[v|exn'] s3]|] eqn:Hrun; simpl_state; try done.
    + destruct (heap s3 !! c) as [[| | |C3| |]|]; simpl_state; done.
    + intros [= <- <-]. apply run_calls in Hrun.
      by eapply at_most_one_call_ext; [| | exact Hrun ].
Qed.
End ComputedLazy.

(** C2 (amended).  For a cacheable computed value: the scheduler does nothing
    when the value is already dirty, and otherwise only sets the dirty flag
    and notifies the dependents of the computed value; a read makes at most
    one call, which adds one entry to the log when the function called calls
    nothing in turn; a read of a clean value calls none and returns the
    cached value; and a second read, with the value still clean, calls
    nothing and returns what the first returned. *)
Theorem computed_is_lazy `{Host} c C s :
  heap s !! c = Some (HComputed C) -> c_cacheable C = true ->
  (forall n,
     computed_scheduler n c s
     = if c_dirty C then Some (Normal tt, s)
       else triggerRefValue n (VObj c)
              (upd_heap (insert c (HComputed (set_c_dirty true C))) s))
  /\ (forall o s1,
        computed_get_value c s = Some (o, s1) ->
        at_most_one_call s s1
        /\ ((forall f, fn_silent f) ->
            calls s1 = calls s \/ exists f, calls s1 = calls s ++ [(f, [])]))
  /\ (c_dirty C = false -> tracking_ok s C ->
        exists s1,
          computed_get_value c s = Some (Normal (c_value C), s1)
          /\ calls s1 = calls s)
  /\ (forall v1 s1 C1,
        computed_get_value c s = Some (Normal v1, s1) ->
        heap s1 !! c = Some (HComputed C1) ->
        c_dirty C1 = false -> c_cacheable C1 = true -> tracking_ok s1 C1 ->
        exists s2,
          computed_get_value c s1 = Some (Normal v1, s2)
          /\ calls s2 = calls s1).
Proof.
  intros Hc Hca. split; [| split; [| split ] ].
  - intros n. by apply computed_scheduler_spec.
  - intros o s1 Hget.
    destruct (computed_get_calls c C s o s1 Hc Hget) as [Hone _].
    split; [ exact Hone |]. intros Hsilent. by apply at_most_one_call_silent.
  - intros Hd Hok.
    destruct (computed_get_clean c C s Hc Hd Hca Hok) as (s1 & C1 & Hget & Hcalls & _).
    eauto.
  - intros v1 s1 C1 Hget Hc1 Hd1 Hca1 Hok1.
    destruct (computed_get_calls c C s _ _ Hc Hget) as [_ Hval].
    destruct (Hval v1 eq_refl) as (C1' & Hc1' & Hv1).
    rewrite Hc1 in Hc1'. injection Hc1' as <-.
    destruct (computed_get_clean c C1 s1 Hc1 Hd1 Hca1 Hok1) as (s2 & C2 & Hget2 & Hcalls & _).
    rewrite Hv1 in Hget2. eauto.
Qed.

Lemma computed_is_lazy_witness :
  (exists C, heap s_computed_read !! 0 = Some (HComputed C)
             /\ c_cacheable C = true /\ c_dirty C = false) /\
  calls s_computed_read = [(3, [])] /\
  exists s2,
    @computed_get_value quiet_host 0 s_computed_read = Some (Normal VUndef, s2)
    /\ calls s2 = [(3, [])].
Proof.
  assert (HC : exists C, heap s_computed_read !! 0 = Some (HComputed C)
                         /\ c_cacheable C = true /\ c_dirty C = false
                         /\ c_value C = VUndef).
  { eexists. split; [ reflexivity |]. split; [ reflexivity |]. split; reflexivity. }
  destruct HC as (C & Hc & Hca & Hd & Hv).
  split; [ exists C; split; [ exact Hc | split; [ exact Hca | exact Hd ] ] |].
  split; [ reflexivity |].
  destruct (@computed_is_lazy quiet_host 0 C s_computed_read Hc Hca)
    as (_ & _ & Hclean & _).
  destruct (Hclean Hd) as (s2 & Hget & Hcalls).
  { unfold tracking_ok. intros _ e He. discriminate He. }
  exists s2. rewrite Hv in Hget. split; [ exact Hget | exact Hcalls ].
Defined.

(** C2 as stated fails for a computed value that is not cacheable (built with
    [isSSR]): two reads in a row call the getter [3] twice. *)
Lemma computed_not_cacheable_recomputes :
  fst <$> (let* c := computed (GetterFn 3) true in
           let* v1 := @computed_get_value quiet_host c in
           let* v2 := @computed_get_value quiet_host c in
           gets calls) initial_state
  = Some (Normal [(3, []); (3, [])]).
Proof. vm_compute. reflexivity. Qed.

(** ** Writing through the [set] trap *)

Lemma hasChanged_same v : hasChanged v v = false.
Proof.
  unfold hasChanged. apply negb_false_iff. by apply Object_is_spec.
Qed.

(** The sameness rule: NaN is NaN, and the two zeros differ; [===] has it the
    other way round. *)
Lemma hasChanged_sameness :
  hasChanged (VNum NaN) (VNum NaN) = false /\
  hasChanged (VNum NegZero) (VNum (Int 0)) = true /\
  StrictEquals (VNum NaN) (VNum NaN) = false /\
  StrictEquals (VNum NegZero) (VNum (Int 0)) = true.
Proof. repeat split. Qed.

Lemma toRaw_fuel_isRef n s v raw :
  toRaw_fuel n s v = Some raw ->
  exists b, isRef_fuel n s v = Some b /\ forall k, isRef_fuel k s raw = Some b.
Proof.
  revert v. induction n as [|n IH]; intros v; destruct v as [| | | | |a];
    simpl; try (intros [= <-]; exists false; split; [ done | by intros [] ]).
  - unfold get_v_raw.
    destruct (heap s !! a) as [[o|t ro sh|r|C|f|e]|] eqn:Ha; try done;
      try case_bool_decide; simpl; try done;
      intros [= <-];
      try (exists false; split; [ done |]; intros []; simpl; by rewrite Ha);
      try (exists true; split; [ done |]; intros []; simpl; by rewrite Ha).
  - unfold get_v_raw.
    destruct (heap s !! a) as [[o|t ro sh|r|C|f|e]|] eqn:Ha; try done;
      try case_bool_decide; simpl; try done;
      try (intros [= <-];
           try (exists false; split; [ done |]; intros []; simpl; by rewrite Ha);
           try (exists true; split; [ done |]; intros []; simpl; by rewrite Ha)).
    apply IH.
Qed.

Lemma toRaw_isRef s v raw :
  toRaw s v = Some raw ->
  exists b, isRef s v = Some b /\ isRef s raw = Some b.
Proof.
  intros Hr. apply toRaw_fuel_isRef in Hr as (b & Hb & Hraw). eauto.
Qed.

Lemma toRaw_update_obj s target o o' v :
  heap s !! target = Some (HObj o) ->
  toRaw (upd_heap (insert target (HObj o')) s) v = toRaw s v.
Proof.
  intros Ht. unfold toRaw. simpl_state.
  rewrite map_size_insert_Some by eauto.
  generalize (size (heap s)). intros n. revert v.
  assert (Hg : forall a, get_v_raw (upd_heap (insert target (HObj o')) s) a = get_v_raw s a).
  { intros a. unfold get_v_raw. simpl_state.
    destruct (decide (a = target)) as [->|Hne].
    - by rewrite lookup_insert_eq, Ht.
    - rewrite lookup_insert_ne by done.
      destruct (heap s !! a) as [[| t ro sh | | | |]|]; done. }
  induction n as [|n IH]; intros [| | | | |a]; simpl; try done;
    rewrite Hg; destruct (get_v_raw s a) as [raw|]; try done;
    destruct (truthy raw); done.
Qed.

Lemma obj_set_defined o key v :
  array_ok o -> hadKey o key = Some true ->
  (isArrayObj o && bool_decide (key = "length") = true ->
   v = VNum (Int (Z.of_N (o_length o)))) ->
  exists r o',
    obj_set o key v = Some (Normal r, o') /\
    (obj_hasOwn o key = true -> r = true /\ obj_get o' key = v).
Proof.
  intros Hok Hhad Hv.
  assert (Hnp : o_props o !! key = None -> bool_decide (key = "__proto__") = false).
  { intros Hk. destruct (decide (key = "__proto__")) as [->|Hkey];
      [| by rewrite bool_decide_false ].
    revert Hhad. unfold hadKey, obj_hasOwn, obj_get_own.
    replace (isIntegerKey "__proto__") with (Some false) by reflexivity.
    rewrite bool_decide_false by done. rewrite andb_false_r, Hk.
    by destruct (isArrayObj o). }
  unfold obj_set, obj_get, obj_hasOwn, obj_get_own.
  destruct (isArrayObj o && bool_decide (key = "length")) eqn:Hlen.
  - rewrite (Hv eq_refl). simpl. unfold ToArrayLength. simpl.
    assert (Hb : (0 <=? Z.of_N (o_length o))%Z && (Z.of_N (o_length o) <? 4294967296)%Z = true).
    { unfold array_ok in Hok. apply andb_true_intro. split; [ lia |].
      apply Z.ltb_lt. lia. }
    rewrite Hb. eexists _, _. split; [ reflexivity |]. intros _. split; [ done |].
    unfold isArrayObj in *. simpl. rewrite Hlen. simpl. by rewrite N2Z.id.
  - destruct (o_props o !! key) as [old|] eqn:Hk; simpl.
    + eexists _, _. split; [ reflexivity |]. intros _. split; [ done |].
      unfold isArrayObj in *. simpl. rewrite Hlen. simpl. by rewrite lookup_insert_eq.
    + rewrite (Hnp eq_refl).
      destruct (o_extensible o); eexists _, _; (split; [ reflexivity | done ]).
Qed.

Section SetTrap.
Context `{Host}.

(** Writing the value a key already has: the assignment is made and
    [trigger] is not called. *)
Lemma set_trap_same shallow n target o key v p s raw :
  heap s !! target = Some (HObj o) -> array_ok o ->
  toRaw s (VObj p) = Some (VObj target) ->
  hadKey o key = Some true ->
  Object_is v (obj_get o key) = true ->
  toRaw s v = Some raw ->
  exists r o',
    obj_set o key (stored_form shallow s v raw) = Some (Normal r, o') /\
    set_trap shallow n target key v (VObj p) s
    = Some (Normal r, upd_heap (insert target (HObj o')) s) /\
    (obj_hasOwn o key = true ->
     r = true /\ obj_get o' key = stored_form shallow s v raw).
Proof.
  intros Ht Hok Hp Hhad Hsame Hraw.
  apply Object_is_spec in Hsame. subst v.
  destruct (toRaw_isRef _ _ _ Hraw) as (b & Hb & Hbraw).
  set (v := obj_get o key) in *.
  set (st := stored_form shallow s v raw).
  assert (Hst : st = v \/ (st = raw /\ negb shallow && negb (isShallow s v)
                                      && negb (isReadonly s v) = true)).
  { unfold st, stored_form. destruct (_ && _); auto. }
  assert (Hbst : isRef s st = Some b).
  { destruct Hst as [-> | [-> _]]; done. }
  destruct (obj_set_defined o key st Hok Hhad) as (r & o' & Hset & Hown).
  { intros Hlen. assert (Hv : v = VNum (Int (Z.of_N (o_length o)))).
    { unfold v, obj_get, obj_get_own. by rewrite Hlen. }
    destruct Hst as [-> | [-> _]]; [ done |].
    rewrite Hv in Hraw. unfold toRaw in Hraw.
    destruct (size (heap s)); simpl in Hraw; by injection Hraw as <-. }
  exists r, o'. split; [ exact Hset |]. split; [| exact Hown ].
  unfold set_trap, Reflect_set. munfold. rewrite Ht. simpl_state. fold v.
  unfold st, stored_form in *. clear st Hst.
  destruct shallow, (isShallow s v) eqn:Hsh, (isReadonly s v) eqn:Hro, b,
    (isArrayObj o) eqn:Harr;
    cbn [negb andb] in *;
    repeat (progress (rewrite ?Hb, ?Hbraw, ?Hraw, ?Hhad, ?Hset, ?Hp, ?Hsh, ?Hro,
                        ?Harr, ?hasChanged_same, ?(toRaw_update_obj _ _ _ _ _ Ht);
                      simpl_state; cbn [negb andb]));
    rewrite ?bool_decide_true by done; reflexivity.
Qed.

Lemma isRef_number s x : isRef s (VNum x) = Some false.
Proof. unfold isRef. by destruct (size (heap s)). Qed.

Lemma toRaw_number s x : toRaw s (VNum x) = Some (VNum x).
Proof. unfold toRaw. by destruct (size (heap s)). Qed.

(** Writing [-0] over [+0]: the assignment is made and [trigger] is called
    for the key. *)
Lemma set_trap_neg_zero shallow n target o key p s :
  heap s !! target = Some (HObj o) ->
  toRaw s (VObj p) = Some (VObj target) ->
  hadKey o key = Some true ->
  o_props o !! key = Some (VNum (Int 0)) -> key <> "length" ->
  set_trap shallow n target key (VNum NegZero) (VObj p) s
  = (trigger n target OpSet (Some key) (VNum NegZero) ;; ret true)
      (upd_heap (insert target
         (HObj (set_o_props (insert key (VNum NegZero)) o))) s).
Proof.
  intros Ht Hp Hhad Hk Hne.
  assert (Hget : obj_get o key = VNum (Int 0)).
  { unfold obj_get, obj_get_own. rewrite bool_decide_false by done.
    rewrite andb_false_r. by rewrite Hk. }
  assert (Hset : obj_set o key (VNum NegZero)
                 = Some (Normal true, set_o_props (insert key (VNum NegZero)) o)).
  { unfold obj_set. rewrite bool_decide_false by done.
    rewrite andb_false_r. by rewrite Hk. }
  unfold set_trap, Reflect_set. munfold. rewrite Ht. simpl_state. rewrite Hget.
  destruct shallow, (isArrayObj o) eqn:Harr;
    cbn [negb andb isReadonly isShallow];
    repeat (progress (rewrite ?isRef_number, ?toRaw_number, ?Hhad, ?Hset, ?Hp,
                        ?Harr, ?(toRaw_update_obj _ _ _ _ _ Ht);
                      simpl_state; cbn [negb andb isReadonly isShallow]));
    rewrite ?bool_decide_true by done;
    change (hasChanged (VNum NegZero) (VNum (Int 0))) with true; cbn iota;
    reflexivity.
Qed.
End SetTrap.

(** C1 (amended).  For a key the target already has (an own property, or an
    index below the length of an array): writing a value that is the same as
    the current one under [Object.is] makes the assignment and does not call
    [trigger], whatever the fuel; NaN over NaN is such a write, and [-0] over
    [+0] is not: there the trap calls [trigger] for the key. *)
Theorem unchanged_write_is_silent `{Host} shallow n target o key p s :
  heap s !! target = Some (HObj o) -> array_ok o ->
  toRaw s (VObj p) = Some (VObj target) ->
  hadKey o key = Some true ->
  (forall v raw,
     Object_is v (obj_get o key) = true -> toRaw s v = Some raw ->
     exists r o',
       obj_set o key (stored_form shallow s v raw) = Some (Normal r, o') /\
       set_trap shallow n target key v (VObj p) s
       = Some (Normal r, upd_heap (insert target (HObj o')) s) /\
       (obj_hasOwn o key = true ->
        r = true /\ obj_get o' key = stored_form shallow s v raw))
  /\ Object_is (VNum NaN) (VNum NaN) = true
  /\ Object_is (VNum NegZero) (VNum (Int 0)) = false
  /\ (o_props o !! key = Some (VNum (Int 0)) -> key <> "length" ->
      set_trap shallow n target key (VNum NegZero) (VObj p) s
      = (trigger n target OpSet (Some key) (VNum NegZero) ;; ret true)
          (upd_heap (insert target
             (HObj (set_o_props (insert key (VNum NegZero)) o))) s)).
Proof.
  intros Ht Hok Hp Hhad. split; [| split; [| split ] ]; try reflexivity.
  - intros v raw Hsame Hraw. by eapply set_trap_same.
  - intros Hk Hne. by apply set_trap_neg_zero.
Qed.

Lemma unchanged_write_is_silent_witness :
  hadKey numbers_object "nan" = Some true /\
  (exists r o',
     @set_trap reading_host false 2 0 "nan" (VNum NaN) (VObj 2) s_watching_numbers
     = Some (Normal r, upd_heap (insert 0 (HObj o')) s_watching_numbers)
     /\ r = true /\ obj_get o' "nan" = VNum NaN) /\
  (fun r => calls r.2)
    <$> @set_trap reading_host false 2 0 "zero" (VNum NegZero) (VObj 2)
          s_watching_numbers
  = Some (calls s_watching_numbers ++ [(8, [])]).
Proof.
  assert (Ht : heap s_watching_numbers !! 0 = Some (HObj numbers_object))
    by (vm_compute; reflexivity).
  assert (Hok : array_ok numbers_object) by reflexivity.
  assert (Hp : toRaw s_watching_numbers (VObj 2) = Some (VObj 0))
    by (vm_compute; reflexivity).
  assert (Hhad : hadKey numbers_object "nan" = Some true)
    by (vm_compute; reflexivity).
  split; [ exact Hhad |]. split.
  - destruct (@unchanged_write_is_silent reading_host false 2 0 numbers_object
                "nan" 2 s_watching_numbers Ht Hok Hp Hhad) as (Hsame & _).
    destruct (Hsame (VNum NaN) (VNum NaN)) as (r & o' & _ & Hset & Hown).
    { vm_compute; reflexivity. }
    { vm_compute; reflexivity. }
    exists r, o'. split; [ exact Hset |]. apply Hown. vm_compute; reflexivity.
  - vm_compute. reflexivity.
Defined.

(** C1 as stated fails for a key the target does not have: the current value
    of [proxy.foo] is [undefined], and writing [undefined] adds the key and
    notifies the effect that read it (its function [7] is called again). *)
Lemma write_to_absent_key_notifies :
  obj_get empty_object "foo" = VUndef /\
  Object_is VUndef (obj_get empty_object "foo") = true /\
  heap s_watching_foo !! 0 = Some (HObj empty_object) /\
  calls s_watching_foo = [(7, [])] /\
  (fun r => (r.1, calls r.2))
    <$> @set_trap reading_host false 2 0 "foo" VUndef (VObj 2) s_watching_foo
  = Some (Normal true, [(7, []); (7, [])]).
Proof. vm_compute. repeat split; reflexivity. Qed.


(** ** The dependency sets a change of [length] resolves *)

Lemma index_key_number k i :
  index_of_key k = Some i -> StringToNumber k = Some (Int (Z.of_N i)).
Proof.
  unfold index_of_key, StringToNumber.
  destruct (digits_value k) as [n|] eqn:Hd; [| done ].
  destruct (canonical k && (n <=? MAX_EXACT)%N) eqn:Hc; [| done ].
  intros [= <-]. apply andb_true_iff in Hc as [_ Hle].
  destruct k; [ done |]. by rewrite Hle.
Qed.


Lemma key_ge_index k i n :
  index_of_key k = Some i ->
  key_ge k (VNum (Int n)) = Some (n <=? Z.of_N i)%Z.
Proof.
  intros Hk. unfold key_ge. simpl. by rewrite (index_key_number k i Hk).
Qed.








(** ** Wrapping *)



Lemma wrap_raw ro sh x o s :
  heap s !! x = Some (HObj o) ->
  wrap ro sh (VObj x) s = createReactiveObject (VObj x) ro sh s.
Proof.
  intros Hx. destruct ro, sh; try reflexivity.
  unfold wrap, reactive. munfold. unfold isReadonly. by rewrite Hx.
Qed.






(** The exception: [readonly] of a reactive proxy is a new, read-only proxy
    of that proxy. *)
Lemma readonly_upgrades_reactive :
  fst <$> (let* p := reactive (VObj 0) in
           let* q := readonly p in
           let* o := liftO (fun s => match q with
                                     | VObj a => heap s !! a
                                     | _ => None
                                     end) in
           ret (p, q, o)) s_one_object
  = Some (Normal (VObj 1, VObj 2, HProxy 1 true false)).
Proof. vm_compute. reflexivity. Qed.

(** ** The order of reactions *)

Lemma quiet_host_keeps_markers : @host_keeps_markers quiet_host.
Proof. intros f args s e E HE. exists E. split; [ exact HE | reflexivity ]. Qed.

(** C3.  When the functions of the host leave the [computed] markers alone,
    [triggerEffects] reacts to the members of a set in two passes: it is the
    same as triggering, one after the other, first the members marked
    computed and then the others, each group in the order of the set.  No
    unmarked effect is triggered before a marked one. *)
Theorem triggerEffects_computed_first `{Host} n effs s :
  host_keeps_markers ->
  (forall e, e ∈ effs -> is_Some (effects s !! e)) ->
  triggerEffects n effs s = for_each (computed_first s effs) (triggerEffect n) s
  /\ computed_first s effs ≡ₚ effs
  /\ forall i j a b,
       computed_first s effs !! i = Some a ->
       computed_first s effs !! j = Some b ->
       marker s a = false -> marker s b = true -> j < i.
Proof.
  intros Hhost Hex. split; [ by apply triggerEffects_order |]. split.
  - unfold computed_first.
    rewrite <- (filter_app_complement (fun e => marker s e = true) effs) at 3.
    apply Permutation_app_head. apply Permutation_refl'. apply list_filter_iff.
    intros e. destruct (marker s e); simpl; split; congruence.
  - unfold computed_first. intros i j a b Ha Hb Hma Hmb.
    set (cs := filter (fun e => marker s e = true) effs) in *.
    set (os := filter (fun e => negb (marker s e) = true) effs) in *.
    destruct (decide (j < length cs)) as [Hj|Hj].
    + destruct (decide (i < length cs)) as [Hi|Hi]; [| lia ].
      rewrite lookup_app_l in Ha by done.
      apply list_elem_of_lookup_2, list_elem_of_filter in Ha as [Ha _]. congruence.
    + rewrite lookup_app_r in Hb by lia.
      apply list_elem_of_lookup_2, list_elem_of_filter in Hb as [Hb _].
      rewrite Hmb in Hb. done.
Qed.

Lemma triggerEffects_computed_first_witness :
  computed_first s_three_effects [1; 0; 2] = [0; 1; 2] /\
  @triggerEffects quiet_host 1 [1; 0; 2] s_three_effects
  = for_each [0; 1; 2] (@triggerEffect quiet_host 1) s_three_effects.
Proof.
  assert (Hcf : computed_first s_three_effects [1; 0; 2] = [0; 1; 2])
    by (vm_compute; reflexivity).
  split; [ exact Hcf |]. rewrite <- Hcf.
  apply (@triggerEffects_computed_first quiet_host 1 [1; 0; 2] s_three_effects
           quiet_host_keeps_markers).
  intros e He. repeat (apply elem_of_cons in He as [->|He]; [ by eexists |]).
  by apply elem_of_nil in He.
Defined.

(** ** The job queue *)

Lemma includes_present q j : j_ref j ∈ job_refs q -> includes q j 0 = true.
Proof.
  unfold includes, job_refs. rewrite drop_0. intros Hin.
  apply list_elem_of_fmap in Hin as (x & Hx & Hin).
  apply existsb_exists. exists x. split.
  - by apply list_elem_of_In.
  - apply Nat.eqb_eq. congruence.
Qed.

Lemma includes_absent q j : includes q j 0 = false -> j_ref j ∉ job_refs q.
Proof.
  intros Hn Hin. apply includes_present in Hin. congruence.
Qed.

(** A job that is in the queue is not queued again. *)
Lemma queueJob_present s j :
  idle s -> j_ref j ∈ job_refs (queue s) -> queueJob j s = Some s.
Proof.
  intros [Hf Hi] Hin. unfold queueJob. rewrite Hf, Hi. simpl.
  rewrite includes_present by done.
  destruct (queue s); [ by apply elem_of_nil in Hin | done ].
Qed.

Lemma queue_queueFlush s : queue (queueFlush s) = queue s.
Proof. unfold queueFlush. by destruct (_ && _). Qed.

Lemma idle_queueFlush q s : idle s -> idle (queueFlush (set_queue q s)).
Proof. intros [Hf Hi]. unfold queueFlush, idle. by destruct (_ && _). Qed.

(** [queueJob] keeps the queue free of duplicates, and keeps the scheduler
    idle. *)
Lemma queueJob_NoDup s j s' :
  idle s -> NoDup (job_refs (queue s)) -> queueJob j s = Some s' ->
  idle s' /\ NoDup (job_refs (queue s')) /\
  (j_ref j ∈ job_refs (queue s) -> s' = s).
Proof.
  intros Hidle Hnd Hq.
  destruct (decide (j_ref j ∈ job_refs (queue s))) as [Hin|Hnin].
  { rewrite queueJob_present in Hq by done. injection Hq as <-. done. }
  split; [| split; [| done ] ]; revert Hq; unfold queueJob;
    destruct (_ && _); try (by intros [= <-]);
    destruct (j_id j) as [id|]; try destruct (findInsertionIndex id s) as [i|];
    try done; intros [= <-]; try by apply idle_queueFlush.
  - rewrite queue_queueFlush. simpl. unfold job_refs, splice_in.
    rewrite fmap_app, fmap_cons.
    apply NoDup_app. unfold job_refs in *.
    rewrite <- (take_drop i (queue s)), fmap_app in Hnd, Hnin.
    apply NoDup_app in Hnd as (H1 & H2 & H3).
    split; [ done |]. split.
    + intros x Hx Hx'. apply elem_of_cons in Hx' as [->|Hx'].
      * apply Hnin, elem_of_app. auto.
      * by eapply H2.
    + constructor; [| done ]. intros Hx. apply Hnin, elem_of_app. auto.
  - rewrite queue_queueFlush. simpl. unfold job_refs in *.
    rewrite fmap_app. apply NoDup_app. split; [ done |]. split.
    + intros x Hx Hx'. apply list_elem_of_singleton in Hx'. by subst.
    + apply NoDup_singleton.
Qed.




(** For jobs with ids, which no caller of [queueJob] builds, the order is
    kept from index 1 on only.  From the initial state, queueing a job with
    id 5 and then a job with id 3 leaves the queue in the order 5, 3: the
    search for the insertion point starts at index [flushIndex + 1 = 1] and
    never looks at the job at index 0. *)
Lemma queueJob_order_lost :
  exists s1 s2,
    queueJob job_five sched_init = Some s1 /\ idle s1 /\
    ascending (queue s1) = true /\
    queueJob job_three s1 = Some s2 /\
    queue s2 = [job_five; job_three] /\
    ascending (queue s2) = false.
Proof.
  eexists _, _. split; [ reflexivity |]. split; [ split; reflexivity |].
  split; [ reflexivity |]. split; [ reflexivity |]. split; reflexivity.
Qed.

(** *** What [queueJob] does keep: the order from index 1 on *)

Lemma getId_cases j : (exists z, getId j = Int z) \/ getId j = Inf false.
Proof. unfold getId. destruct (j_id j); eauto. Qed.

Lemma id_le_refl a : id_le a a.
Proof.
  unfold id_le. destruct (getId_cases a) as [[z ->]| ->]; simpl; [| done ].
  by apply Z.leb_le.
Qed.

Lemma id_le_trans a b c : id_le a b -> id_le b c -> id_le a c.
Proof.
  unfold id_le.
  destruct (getId_cases a) as [[x ->]| ->], (getId_cases b) as [[y ->]| ->],
    (getId_cases c) as [[z ->]| ->]; simpl; try done.
  rewrite !Z.leb_le. lia.
Qed.

Lemma ascending_from_0 q : ascending q = true <-> ascending_from 0 q.
Proof.
  split.
  - induction q as [|x q IH]; intros Hasc a b ja jb _ Hab Ha Hb.
    { by rewrite lookup_nil in Ha. }
    assert (Hq : ascending q = true /\ forall y, q !! 0 = Some y -> id_le x y).
    { simpl in Hasc. destruct q as [|y q']; [ split; [ done | by intros ] |].
      apply andb_true_iff in Hasc as [H1 H2]. split; [ done |].
      intros y' [= <-]. exact H1. }
    destruct Hq as [Hq Hhd].
    assert (Hall : forall k y, q !! k = Some y -> id_le x y).
    { intros k y Hk. destruct q as [|y0 q']; [ by rewrite lookup_nil in Hk |].
      eapply id_le_trans; [ apply (Hhd y0 eq_refl) |].
      eapply (IH Hq 0 k); eauto with lia. }
    destruct a as [|a], b as [|b]; simpl in *; try lia.
    + injection Ha as <-. injection Hb as <-. apply id_le_refl.
    + injection Ha as <-. by eapply Hall.
    + eapply (IH Hq a b); eauto with lia.
  - induction q as [|x q IH]; intros Hm; [ done |].
    simpl. destruct q as [|y q']; [ done |].
    apply andb_true_iff. split.
    + apply (Hm 0 1 x y); auto with lia.
    + apply IH. intros a b ja jb _ Hab Ha Hb.
      apply (Hm (S a) (S b) ja jb); auto with lia.
Qed.

Lemma ascending_from_drop lo q :
  ascending (drop lo q) = true <-> ascending_from lo q.
Proof.
  rewrite ascending_from_0. split.
  - intros Hm a b ja jb Hlo Hab Ha Hb.
    apply (Hm (a - lo) (b - lo) ja jb); [ lia | lia | |];
      rewrite lookup_drop; [ by replace (lo + (a - lo)) with a by lia
                           | by replace (lo + (b - lo)) with b by lia ].
  - intros Hm a b ja jb _ Hab Ha Hb. rewrite lookup_drop in Ha, Hb.
    apply (Hm (lo + a) (lo + b) ja jb); auto with lia.
Qed.

Lemma ushr1_half x : (Z.of_nat x < 2 ^ 32)%Z -> ushr1 x = x / 2.
Proof.
  intros Hz. unfold ushr1.
  rewrite Z.mod_small by lia.
  rewrite Z.shiftr_div_pow2 by lia. change (2 ^ 1)%Z with (Z.of_nat 2).
  rewrite <- Nat2Z.inj_div. apply Nat2Z.id.
Qed.

Lemma lt_ge_id j id :
  number_lt (getId j) (Int id) = false -> number_ge (getId j) (Int id) = true.
Proof.
  destruct (getId_cases j) as [[z ->]| ->]; simpl; [| done ].
  by intros ->%negb_false_iff.
Qed.

Lemma lt_le_id j id :
  number_lt (getId j) (Int id) = true -> number_ge (Int id) (getId j) = true.
Proof.
  destruct (getId_cases j) as [[z ->]| ->]; simpl; [| done ].
  intros Hlt%negb_true_iff. apply Z.leb_gt in Hlt. apply Z.leb_le. lia.
Qed.

Lemma lt_id_down a b id :
  id_le a b -> number_lt (getId b) (Int id) = true ->
  number_lt (getId a) (Int id) = true.
Proof.
  unfold id_le.
  destruct (getId_cases a) as [[x ->]| ->], (getId_cases b) as [[y ->]| ->];
    simpl; try done.
  rewrite Z.leb_le, !negb_true_iff, !Z.leb_gt. lia.
Qed.

Lemma lt_id_up a b id :
  id_le a b -> number_lt (getId a) (Int id) = false ->
  number_lt (getId b) (Int id) = false.
Proof.
  intros Hab Ha. destruct (number_lt (getId b) (Int id)) eqn:Hb; [| done ].
  rewrite (lt_id_down a b id Hab Hb) in Ha. done.
Qed.

(** The binary search of [findInsertionIndex] on a queue that is ascending
    from [lo] on: it ends, at the first index from [lo] whose job does not
    come before [id]. *)
Lemma findInsertionIndex_loop_spec lo q id fuel start end_ :
  (Z.of_nat (length q) < 2 ^ 31)%Z -> ascending_from lo q ->
  lo <= start -> start <= end_ -> end_ <= length q -> end_ - start <= fuel ->
  (forall k j, lo <= k < start -> q !! k = Some j ->
     number_lt (getId j) (Int id) = true) ->
  (forall k j, end_ <= k -> q !! k = Some j ->
     number_lt (getId j) (Int id) = false) ->
  exists i,
    findInsertionIndex_loop fuel q id start end_ = Some i /\
    start <= i <= end_ /\
    (forall k j, lo <= k < i -> q !! k = Some j ->
       number_lt (getId j) (Int id) = true) /\
    (forall k j, i <= k -> q !! k = Some j ->
       number_lt (getId j) (Int id) = false).
Proof.
  intros Hlen Hasc. revert start end_.
  induction fuel as [|fuel IH]; intros start end_ Hlo Hse Hend Hfuel Hbelow Habove.
  - assert (start = end_) as -> by lia. exists end_. simpl.
    rewrite Nat.ltb_irrefl. auto with lia.
  - simpl. destruct (start <? end_) eqn:Hlt.
    2:{ apply Nat.ltb_ge in Hlt. assert (start = end_) as -> by lia.
        exists end_. auto with lia. }
    apply Nat.ltb_lt in Hlt.
    rewrite ushr1_half by lia.
    assert (Hmid : start <= (start + end_) / 2 < end_).
    { split; [ apply Nat.div_le_lower_bound; lia
             | apply Nat.Div0.div_lt_upper_bound; lia ]. }
    set (middle := (start + end_) / 2) in *.
    destruct (lookup_lt_is_Some_2 q middle) as [jm Hjm]; [ lia |].
    rewrite Hjm. destruct (number_lt (getId jm) (Int id)) eqn:Hm.
    + destruct (IH (middle + 1) end_) as (i & Hi & Hr & H1 & H2); try lia; try done.
      { intros k j Hk Hj. destruct (decide (k < start)) as [?|?].
        - apply (Hbelow k j); [ lia | done ].
        - eapply lt_id_down; [| exact Hm ]. apply (Hasc k middle j jm); auto with lia. }
      exists i. split; [ done |]. split; [ lia | done ].
    + destruct (IH start middle) as (i & Hi & Hr & H1 & H2); try lia; try done.
      { intros k j Hk Hj. destruct (decide (end_ <= k)) as [?|?].
        - by apply (Habove k j).
        - eapply lt_id_up; [| exact Hm ]. apply (Hasc middle k jm j); auto with lia. }
      exists i. split; [ done |]. split; [ lia | done ].
Qed.

Lemma splice_in_lookup i j q k :
  i <= length q ->
  splice_in i j q !! k
  = if decide (k < i) then q !! k
    else if decide (k = i) then Some j else q !! (k - 1).
Proof.
  intros Hi. unfold splice_in.
  destruct (decide (k < i)) as [Hk|Hk].
  - rewrite lookup_app_l by (rewrite length_take_le; lia).
    by rewrite lookup_take_lt.
  - rewrite lookup_app_r by (rewrite length_take_le; lia).
    rewrite length_take_le by lia.
    destruct (decide (k = i)) as [->|Hne].
    + by rewrite Nat.sub_diag.
    + rewrite lookup_cons_ne_0 by lia. rewrite lookup_drop. f_equal. lia.
Qed.

(** While no flush is in progress and the queue is short enough for the
    unsigned shift, [queueJob] returns, keeps the scheduler idle and the
    queue free of duplicates, and keeps the queue ascending from index 1 on.
    The job at index 0 is whichever was queued first. *)
Lemma queueJob_keeps_tail_order s j :
  idle s -> (Z.of_nat (length (queue s)) < 2 ^ 31)%Z ->
  ascending_from 1 (queue s) ->
  exists s', queueJob j s = Some s' /\ ascending_from 1 (queue s').
Proof.
  intros [Hf Hi] Hlen Hasc. unfold queueJob. rewrite Hf, Hi. cbn [andb].
  destruct (_ && _); [| by exists s ].
  destruct (j_id j) as [id|] eqn:Hid.
  - unfold findInsertionIndex. rewrite Hi. cbn [Nat.add].
    destruct (queue s) as [|x q] eqn:Hq.
    { simpl. eexists. split; [ reflexivity |]. rewrite queue_queueFlush. simpl.
      intros a b ja jb Ha _ Hja. destruct a as [|a]; [ lia |].
      destruct a; discriminate Hja. }
    rewrite <- Hq in *. assert (Hpos : 1 <= length (queue s)) by (rewrite Hq; simpl; lia).
    destruct (findInsertionIndex_loop_spec 1 (queue s) id (length (queue s)) 1
                (length (queue s)))
      as (i & Hloop & Hr & Hbelow & Habove); try done; try lia.
    { intros k y Hk Hy. apply lookup_lt_Some in Hy. lia. }
    rewrite Hloop. eexists. split; [ reflexivity |]. rewrite queue_queueFlush.
    cbn [queue set_queue].
    assert (Hj : getId j = Int id) by (unfold getId; by rewrite Hid).
    intros a b ja jb Ha Hab. rewrite !splice_in_lookup by lia.
    repeat case_decide; subst; intros Hja Hjb; try lia.
    + by apply (Hasc a b).
    + injection Hjb as <-. unfold id_le. rewrite Hj. apply lt_le_id.
      apply (Hbelow a); [ lia | done ].
    + apply (Hasc a (b - 1)); auto with lia.
    + injection Hja as <-. injection Hjb as <-. apply id_le_refl.
    + injection Hja as <-. unfold id_le. rewrite Hj. apply lt_ge_id.
      apply (Habove (b - 1)); [ lia | done ].
    + apply (Hasc (a - 1) (b - 1)); auto with lia.
  - eexists. split; [ reflexivity |]. rewrite queue_queueFlush. cbn [queue set_queue].
    assert (Hj : getId j = Inf false) by (unfold getId; by rewrite Hid).
    intros a b ja jb Ha Hab Hja Hjb.
    destruct (decide (b < length (queue s))) as [Hb|Hb].
    + rewrite lookup_app_l in Hja, Hjb by lia. by apply (Hasc a b).
    + rewrite lookup_app_r in Hjb by lia.
      destruct (b - length (queue s)) as [|[|?]]; try discriminate Hjb.
      injection Hjb as <-. unfold id_le. rewrite Hj.
      destruct (getId_cases ja) as [[z ->]| ->]; done.
Qed.

(** *** A read of a dirty computed value runs the getter *)

Lemma chain_from_same_parent s s' p l :
  (forall x E, x ∈ l -> effects s !! x = Some E ->
     exists E', effects s' !! x = Some E' /\ e_parent E' = e_parent E) ->
  chain_from s p l -> chain_from s' p l.
Proof.
  revert p. induction l as [|x l IH]; intros p Heq; simpl; [ done |].
  intros [-> (X & HX & Hl)]. split; [ done |].
  destruct (Heq x X) as (X' & HX' & Hp); [ apply elem_of_cons; auto | done |].
  exists X'. split; [ done |]. rewrite Hp. apply IH; [| done ].
  intros y Y Hy HY. apply Heq; [ apply elem_of_cons; auto | done ].
Qed.

Lemma trackEffects_effects d s o s' :
  trackEffects d s = Some (o, s') ->
  forall x E, effects s !! x = Some E ->
    exists E', effects s' !! x = Some E' /\ same_effect E E'.
Proof.
  unfold trackEffects. munfold.
  destruct (activeEffect s) as [e|] eqn:Ha; [| done ].
  destruct (deps s !! d) as [content|]; simpl_state; [| done ].
  case_bool_decide; simpl_state.
  - intros [= <- <-] x E HE. exists E. by repeat split.
  - destruct (effects s !! e) as [Ee|] eqn:HEe; simpl_state; [| done ].
    rewrite HEe. simpl_state. intros [= <- <-] x E HE. simpl_state.
    destruct (decide (x = e)) as [->|Hne].
    + rewrite lookup_alter_eq, HE. eexists. split; [ reflexivity |]. by repeat split.
    + rewrite lookup_alter_ne by done. exists E. by repeat split.
Qed.

Lemma trackRefValue_effects s c C o s' :
  heap s !! c = Some (HComputed C) ->
  trackRefValue (VObj c) s = Some (o, s') ->
  forall x E, effects s !! x = Some E ->
    exists E', effects s' !! x = Some E' /\ same_effect E E'.
Proof.
  intros Hc. unfold trackRefValue, dep_of, set_dep_of, new_dep. munfold.
  assert (Hrefl : forall x E, effects s !! x = Some E ->
            exists E', effects s !! x = Some E' /\ same_effect E E').
  { intros x E HE. exists E. by repeat split. }
  destruct (shouldTrack s); simpl_state; [| by intros [= <- <-] ].
  destruct (activeEffect s) as [e|] eqn:Ha; simpl_state; [| by intros [= <- <-] ].
  rewrite (toRaw_not_proxy s c) by (by eapply get_v_raw_computed). simpl_state.
  rewrite Hc. simpl_state.
  destruct (c_dep C) as [d|]; simpl_state.
  - apply trackEffects_effects.
  - rewrite Hc. simpl_state.
    match goal with |- context [trackEffects ?d ?st] =>
      destruct (trackEffects d st) as [[o1 s1]|] eqn:Ht; [| done ] end.
    intros Hs x E HE.
    pose proof (trackEffects_effects _ _ _ _ Ht x E HE) as HE'.
    destruct o1; by injection Hs as <- <-.
Qed.

(** A read of a dirty computed value whose effect is active and not on the
    call stack, when the getter returns and calls nothing in turn: the getter
    is called exactly once and the value it returns is the value of the
    read. *)
Lemma computed_get_dirty `{Host} c C E l s :
  heap s !! c = Some (HComputed C) -> c_dirty C = true ->
  effects s !! c_effect C = Some E -> e_active E = true ->
  call_stack s l -> c_effect C ∉ l -> tracking_ok s C ->
  fn_returns (e_fn E) -> fn_keeps_effects (e_fn E) ->
  fn_keeps_computed (e_fn E) c -> fn_silent (e_fn E) ->
  exists v s',
    computed_get_value c s = Some (Normal v, s') /\
    calls s' = calls s ++ [(e_fn E, [])].
Proof.
  intros Hc Hd HE Hact Hst Hnin Hok Hret Hke Hkc Hsilent.
  destruct (trackRefValue_computed_total s c C Hc Hok) as [s1 Ht].
  destruct (trackRefValue_computed s c C _ _ Hc Ht)
    as (_ & Hcalls & Hae & _ & _ & C1 & Hc1 & Hd1 & _ & _ & He1 & _).
  destruct (trackRefValue_effects s c C _ _ Hc Ht _ _ HE) as (E1 & HE1 & Hfn & Hact1 & _).
  set (s2 := upd_heap (insert c (HComputed (set_c_dirty false C1))) s1).
  assert (Hst2 : call_stack s2 l).
  { unfold call_stack. change (activeEffect s2) with (activeEffect s1). rewrite Hae.
    eapply chain_from_same_parent; [| exact Hst ].
    intros x X _ HX.
    destruct (trackRefValue_effects s c C _ _ Hc Ht x X HX) as (X' & HX' & _ & _ & Hp & _).
    eauto. }
  rewrite <- He1 in HE1, Hnin.
  set (s_pre := logged (e_fn E1) [] (entered (c_effect C1) s2)).
  pose proof (Hsilent [] s_pre) as Hlog. rewrite <- Hfn in Hlog.
  destruct (apply_fn (e_fn E1) [] s_pre) as [o s3] eqn:Happ.
  destruct (Hret [] s_pre) as [v Hv]. rewrite <- Hfn, Happ in Hv. simpl in Hv. subst o.
  assert (HEpre : effects s_pre !! c_effect C1
                  = Some (set_e_parent (activeEffect s2) E1)).
  { unfold s_pre, s2, logged, entered. simpl_state. by rewrite lookup_alter_eq, HE1. }
  destruct (Hke [] s_pre _ _ HEpre) as (E3 & HE3 & _).
  rewrite <- Hfn, Happ in HE3. simpl in HE3.
  assert (Hcpre : heap s_pre !! c = Some (HComputed (set_c_dirty false C1))).
  { unfold s_pre, s2, logged, entered. simpl_state. apply lookup_insert_eq. }
  destruct (Hkc [] s_pre _ Hcpre) as (C3 & HC3).
  rewrite <- Hfn, Happ in HC3. simpl in HC3.
  pose proof (run_off_stack (c_effect C1) E1 l s2
                HE1 ltac:(congruence) Hst2 Hnin) as Hrun.
  fold s_pre in Hrun. rewrite Happ in Hrun. simpl in Hrun.
  specialize (Hrun ltac:(eauto)).
  exists v. eexists. split.
  - unfold computed_get_value. unfold bind at 1. rewrite Ht.
    munfold. rewrite Hc1. simpl_state. rewrite Hd1, Hd. simpl_state.
    rewrite Hc1. simpl_state. rewrite lookup_insert_eq. simpl_state.
    fold s2. cbn [c_effect set_c_dirty]. rewrite Hrun. unfold resumed. simpl_state.
    rewrite HC3. simpl_state. rewrite lookup_insert_eq. simpl_state. reflexivity.
  - simpl_state. simpl in Hlog. rewrite Hlog. unfold s_pre, s2, logged, entered.
    simpl_state. by rewrite Hcalls, Hfn.
Qed.
(** * Further properties *)

(** ** Pausing and resuming tracking *)

Lemma state_eta s :
  upd_shouldTrack (fun _ => shouldTrack s)
    (upd_trackStack (fun _ => trackStack s) s) = s.
Proof. by destruct s. Qed.

Lemma paused_track target key s :
  shouldTrack s = false -> track target key s = Some (Normal tt, s).
Proof. intros Hs. unfold track. munfold. by rewrite Hs. Qed.

Lemma paused_trackRefValue r s :
  shouldTrack s = false -> trackRefValue r s = Some (Normal tt, s).
Proof. intros Hs. unfold trackRefValue. munfold. by rewrite Hs. Qed.

Lemma reset_after_push b s :
  resetTracking
    (upd_shouldTrack (fun _ => b) (upd_trackStack (fun l => l ++ [shouldTrack s]) s))
  = Some (Normal tt, s).
Proof.
  unfold resetTracking. munfold. rewrite last_snoc. munfold.
  destruct s as [x1 x2 x3 x4 x5 x6 x7 x8 x9 x10 x11 x12 x13 x14 x15].
  unfold upd_shouldTrack, upd_trackStack. simpl_state.
  by rewrite removelast_last.
Qed.

(** X1.  Tracking can be switched off and back: [resetTracking] undoes
    [pauseTracking] and [enableTracking]; between [pauseTracking] and
    [resetTracking] neither [track] nor [trackRefValue] records anything, so
    the whole sequence leaves the state as it was.  With nothing to undo,
    [resetTracking] switches tracking on. *)
Theorem paused_tracking_is_inert target key r s :
  (pauseTracking ;; resetTracking) s = Some (Normal tt, s)
  /\ (enableTracking ;; resetTracking) s = Some (Normal tt, s)
  /\ (pauseTracking ;; track target key ;; trackRefValue r ;; resetTracking) s
     = Some (Normal tt, s)
  /\ (trackStack s = [] ->
      resetTracking s = Some (Normal tt, upd_shouldTrack (fun _ => true) s)).
Proof.
  split; [| split; [| split ] ].
  - unfold pauseTracking. munfold. apply reset_after_push.
  - unfold enableTracking. munfold. apply reset_after_push.
  - unfold pauseTracking. munfold.
    rewrite paused_track by done. rewrite paused_trackRefValue by done.
    apply reset_after_push.
  - intros Hl. unfold resetTracking. munfold. by rewrite Hl.
Qed.
(** ** Subscriptions *)

Lemma map_get_set_eq {V} (m : list (string * V)) k v :
  map_get (map_set m k v) k = Some v.
Proof.
  induction m as [|[k' v'] m IH]; simpl.
  - by rewrite bool_decide_true.
  - case_bool_decide as Hk; simpl.
    + by rewrite bool_decide_true.
    + by rewrite bool_decide_false.
Qed.

Lemma map_get_set_ne {V} (m : list (string * V)) k k' v :
  k' <> k -> map_get (map_set m k v) k' = map_get m k'.
Proof.
  intros Hne. induction m as [|[k0 v0] m IH]; simpl.
  - by rewrite bool_decide_false.
  - case_bool_decide as Hk; simpl.
    + subst k0. rewrite !bool_decide_false by done. done.
    + by rewrite IH.
Qed.

Lemma trackEffects_exact d s e E content :
  activeEffect s = Some e -> effects s !! e = Some E ->
  deps s !! d = Some content ->
  trackEffects d s
  = Some (Normal tt, if bool_decide (e ∈ content) then s else subscribed e d s).
Proof.
  intros Ha HE Hd. unfold trackEffects, subscribed. munfold.
  rewrite Ha, Hd. simpl_state. case_bool_decide; [ done |].
  simpl_state. rewrite HE. simpl_state. rewrite HE. done.
Qed.

Lemma links_subscribed e d s E content :
  links_ok s -> effects s !! e = Some E -> deps s !! d = Some content ->
  links_ok (subscribed e d s).
Proof.
  intros [H1 H2] HE Hd. unfold subscribed. rewrite Hd, HE. split.
  - intros d0 c0 e0. simpl_state. intros Hd0 Hin.
    destruct (decide (d0 = d)) as [->|Hne].
    + rewrite lookup_insert_eq in Hd0. injection Hd0 as <-.
      apply elem_of_app in Hin as [Hin|Hin].
      * destruct (H1 _ _ _ Hd Hin) as (E0 & HE0 & Hd0).
        destruct (decide (e0 = e)) as [->|Hne].
        -- rewrite lookup_alter_eq, HE. eexists. split; [ reflexivity |].
           simpl. apply elem_of_app. right. by apply list_elem_of_singleton.
        -- rewrite lookup_alter_ne by done. eauto.
      * apply list_elem_of_singleton in Hin as ->.
        rewrite lookup_alter_eq, HE. eexists. split; [ reflexivity |].
        simpl. apply elem_of_app. right. by apply list_elem_of_singleton.
    + rewrite lookup_insert_ne in Hd0 by done.
      destruct (H1 _ _ _ Hd0 Hin) as (E0 & HE0 & Hd0').
      destruct (decide (e0 = e)) as [->|Hne'].
      * rewrite lookup_alter_eq, HE. eexists. split; [ reflexivity |].
        simpl. apply elem_of_app. left. congruence.
      * rewrite lookup_alter_ne by done. eauto.
  - intros e0 E0 d0. simpl_state. intros HE0 Hin.
    destruct (decide (e0 = e)) as [->|Hne].
    + rewrite lookup_alter_eq, HE in HE0. injection HE0 as <-. simpl in Hin.
      apply elem_of_app in Hin as [Hin|Hin].
      * destruct (H2 _ _ _ HE Hin) as (c0 & Hc0 & He0).
        destruct (decide (d0 = d)) as [->|Hne].
        -- rewrite lookup_insert_eq. eexists. split; [ reflexivity |].
           apply elem_of_app. right. by apply list_elem_of_singleton.
        -- rewrite lookup_insert_ne by done. eauto.
      * apply list_elem_of_singleton in Hin as ->.
        rewrite lookup_insert_eq. eexists. split; [ reflexivity |].
        apply elem_of_app. right. by apply list_elem_of_singleton.
    + rewrite lookup_alter_ne in HE0 by done.
      destruct (H2 _ _ _ HE0 Hin) as (c0 & Hc0 & He0).
      destruct (decide (d0 = d)) as [->|Hne'].
      * rewrite lookup_insert_eq. eexists. split; [ reflexivity |].
        apply elem_of_app. left. congruence.
      * rewrite lookup_insert_ne by done. eauto.
Qed.

Lemma same_shape_refl E : same_shape E E.
Proof. by repeat split. Qed.

Lemma same_shape_set_deps E l : same_shape E (set_e_deps l E).
Proof. by repeat split. Qed.

Lemma registry_subscribed e d s :
  registry_ok s -> registry_ok (subscribed e d s).
Proof.
  intros Hr. unfold subscribed.
  destruct (deps s !! d) as [content|] eqn:Hd; [| done ].
  destruct (effects s !! e) as [E|]; [| done ].
  intros t m k d0 Ht Hk. simpl_state.
  destruct (decide (d0 = d)) as [->|Hne].
  - by rewrite lookup_insert_eq.
  - rewrite lookup_insert_ne by done. by eapply Hr.
Qed.

(** What [track] has established once the set of the key is known. *)
Lemma tracked_state target key e E m d content s :
  links_ok s -> registry_ok s ->
  activeEffect s = Some e -> shouldTrack s = true ->
  effects s !! e = Some E ->
  targetMap s !! target = Some m -> map_get m key = Some d ->
  deps s !! d = Some content ->
  let s' := if bool_decide (e ∈ content) then s else subscribed e d s in
  exists content' E',
    targetMap s' !! target = Some m
    /\ deps s' !! d = Some content' /\ e ∈ content'
    /\ effects s' !! e = Some E' /\ d ∈ e_deps E' /\ same_shape E E'
    /\ links_ok s' /\ registry_ok s'
    /\ track target key s' = Some (Normal tt, s').
Proof.
  intros Hl Hr Ha Hs HE Ht Hk Hd s'.
  assert (Hgoal : forall content' E',
    targetMap s' !! target = Some m -> deps s' !! d = Some content' ->
    e ∈ content' -> effects s' !! e = Some E' ->
    activeEffect s' = Some e -> shouldTrack s' = true ->
    track target key s' = Some (Normal tt, s')).
  { intros content' E' Ht' Hd' Hin HE' Ha' Hs'. unfold track. munfold.
    rewrite Hs', Ha', Ht'. simpl. rewrite Hk.
    rewrite (trackEffects_exact d s' e E' content') by done.
    by rewrite bool_decide_true. }
  subst s'. case_bool_decide as Hin.
  - destruct Hl as [H1 H2]. destruct (H1 _ _ _ Hd Hin) as (E0 & HE0 & Hd0).
    rewrite HE in HE0. injection HE0 as <-.
    exists content, E. split_and!; try done. by eapply Hgoal.
  - pose proof (links_subscribed e d s E content Hl HE Hd) as Hl'.
    pose proof (registry_subscribed e d s Hr) as Hr'.
    unfold subscribed in *. rewrite Hd, HE in *.
    exists (content ++ [e]), (set_e_deps (e_deps E ++ [d]) E).
    assert (He : e ∈ content ++ [e]).
    { apply elem_of_app. right. by apply list_elem_of_singleton. }
    split_and!; simpl_state; try done;
      try (by rewrite lookup_insert_eq);
      try (by rewrite lookup_alter_eq, HE);
      try (simpl; apply elem_of_app; right; by apply list_elem_of_singleton);
      try apply same_shape_set_deps.
    eapply Hgoal; simpl_state; try done.
    + by rewrite lookup_insert_eq.
    + by rewrite lookup_alter_eq, HE.
Qed.

(** The state in which [track] has made a new set for the key. *)
Lemma new_dep_state target key m s :
  links_ok s -> registry_ok s ->
  (forall k d0, map_get m k = Some d0 -> is_Some (deps s !! d0)) ->
  let d := fresh (dom (deps s)) in
  let s1 := upd_targetMap (insert target (map_set m key d))
              (upd_deps (insert d []) s) in
  links_ok s1 /\ registry_ok s1 /\ deps s1 !! d = Some []
  /\ targetMap s1 !! target = Some (map_set m key d).
Proof.
  intros [H1 H2] Hr Hm d s1.
  assert (Hfresh : deps s !! d = None) by apply not_elem_of_dom, is_fresh.
  split_and!.
  - split.
    + intros d0 c0 e0. subst s1. simpl_state. intros Hd0 Hin.
      destruct (decide (d0 = d)) as [->|Hne].
      * rewrite lookup_insert_eq in Hd0. injection Hd0 as <-.
        by apply elem_of_nil in Hin.
      * rewrite lookup_insert_ne in Hd0 by done. eauto.
    + intros e0 E0 d0. subst s1. simpl_state. intros HE0 Hin.
      destruct (H2 _ _ _ HE0 Hin) as (c0 & Hc0 & He0).
      rewrite lookup_insert_ne by congruence. eauto.
  - intros t m0 k d0. subst s1. simpl_state. intros Ht Hk.
    destruct (decide (d0 = d)) as [->|Hne]; [ by rewrite lookup_insert_eq |].
    rewrite lookup_insert_ne by done.
    destruct (decide (t = target)) as [->|Hnt].
    + rewrite lookup_insert_eq in Ht. injection Ht as <-.
      destruct (decide (k = key)) as [->|Hnk].
      * rewrite map_get_set_eq in Hk. congruence.
      * rewrite map_get_set_ne in Hk by done. eauto.
    + rewrite lookup_insert_ne in Ht by done. eauto.
  - subst s1. simpl_state. by rewrite lookup_insert_eq.
  - subst s1. simpl_state. by rewrite lookup_insert_eq.
Qed.

Lemma track_new target key e E m s :
  links_ok s -> registry_ok s ->
  activeEffect s = Some e -> shouldTrack s = true ->
  effects s !! e = Some E ->
  default [] (targetMap s !! target) = m -> map_get m key = None ->
  (forall k d0, map_get m k = Some d0 -> is_Some (deps s !! d0)) ->
  exists s' depsMap d content E',
    track target key s = Some (Normal tt, s')
    /\ targetMap s' !! target = Some depsMap /\ map_get depsMap key = Some d
    /\ deps s' !! d = Some content /\ e ∈ content
    /\ effects s' !! e = Some E' /\ d ∈ e_deps E' /\ same_shape E E'
    /\ links_ok s' /\ registry_ok s'
    /\ track target key s' = Some (Normal tt, s').
Proof.
  intros Hl Hr Ha Hs HE Hm Hk Hreg.
  destruct (new_dep_state target key m s Hl Hr Hreg) as (Hl1 & Hr1 & Hd1 & Ht1).
  set (d := fresh (dom (deps s))) in *.
  set (s1 := upd_targetMap (insert target (map_set m key d))
               (upd_deps (insert d []) s)) in *.
  destruct (tracked_state target key e E (map_set m key d) d [] s1)
    as (content' & E' & H); try done.
  { apply map_get_set_eq. }
  rewrite bool_decide_false in H by apply not_elem_of_nil.
  eexists _, (map_set m key d), d, content', E'.
  split; [| split; [ apply H | split; [ apply map_get_set_eq | apply H ] ] ].
  unfold track, new_dep. munfold. rewrite Hs, Ha. rewrite Hm, Hk. simpl_state.
  fold d. fold s1.
  rewrite (trackEffects_exact d s1 e E []) by done.
  by rewrite bool_decide_false by apply not_elem_of_nil.
Qed.

(** X2.  With tracking on and an effect running, [track(target, key)]
    subscribes the effect to the key: afterwards the dependency map of the
    target has a set for the key, the set holds the effect and the effect
    lists the set.  Nothing else of the effect changes, the two directions of
    every subscription still agree, and tracking the same key again changes
    nothing. *)
Theorem track_subscribes target key e E s :
  links_ok s -> registry_ok s ->
  activeEffect s = Some e -> shouldTrack s = true ->
  effects s !! e = Some E ->
  exists s' depsMap d content E',
    track target key s = Some (Normal tt, s')
    /\ targetMap s' !! target = Some depsMap /\ map_get depsMap key = Some d
    /\ deps s' !! d = Some content /\ e ∈ content
    /\ effects s' !! e = Some E' /\ d ∈ e_deps E' /\ same_shape E E'
    /\ links_ok s' /\ registry_ok s'
    /\ track target key s' = Some (Normal tt, s').
Proof.
  intros Hl Hr Ha Hs HE.
  destruct (targetMap s !! target) as [m|] eqn:Ht.
  - destruct (map_get m key) as [d|] eqn:Hk.
    + destruct (Hr _ _ _ _ Ht Hk) as [content Hd].
      destruct (tracked_state target key e E m d content s Hl Hr Ha Hs HE Ht Hk Hd)
        as (content' & E' & H).
      eexists _, m, d, content', E'. split; [| split; [ apply H | split; [ exact Hk | apply H ] ] ].
      unfold track. munfold. rewrite Hs, Ha, Ht. simpl. rewrite Hk.
      by rewrite (trackEffects_exact d s e E content).
    + apply (track_new target key e E m); try done.
      * by rewrite Ht.
      * intros k d0 Hk0. by eapply Hr.
  - apply (track_new target key e E []); try done.
    by rewrite Ht.
Qed.

Lemma track_subscribes_witness :
  links_ok s_running /\ registry_ok s_running /\
  exists s' depsMap d content E',
    track 5 "foo" s_running = Some (Normal tt, s')
    /\ targetMap s' !! 5 = Some depsMap /\ map_get depsMap "foo" = Some d
    /\ deps s' !! d = Some content /\ 0 ∈ content
    /\ effects s' !! 0 = Some E' /\ d ∈ e_deps E' /\ same_shape (plain_effect 7) E'
    /\ links_ok s' /\ registry_ok s'
    /\ track 5 "foo" s' = Some (Normal tt, s').
Proof.
  assert (Hl : links_ok s_running).
  { split.
    - intros d content e Hd. unfold s_running, initial_state in Hd. simpl_state.
      by rewrite lookup_empty in Hd.
    - intros e E d HE Hin. unfold s_running, initial_state in HE. simpl_state.
      apply lookup_insert_Some in HE as [[_ <-]|[_ HE]].
      + by apply elem_of_nil in Hin.
      + by rewrite lookup_empty in HE. }
  assert (Hr : registry_ok s_running).
  { intros t m k d Ht. unfold s_running, initial_state in Ht. simpl_state.
    by rewrite lookup_empty in Ht. }
  split; [ exact Hl |]. split; [ exact Hr |].
  exact (track_subscribes 5 "foo" 0 (plain_effect 7) s_running Hl Hr
           eq_refl eq_refl eq_refl).
Defined.

(** ** Stopping an effect *)

Lemma set_delete_idem e l : set_delete e (set_delete e l) = set_delete e l.
Proof.
  unfold set_delete. induction l as [|x l IH]; [ done |].
  rewrite (filter_cons _ x l). case_decide.
  - rewrite filter_cons. case_decide; [| done ]. by rewrite IH.
  - done.
Qed.

Lemma set_delete_absent e l : e ∉ l -> set_delete e l = l.
Proof.
  unfold set_delete. induction l as [|x l IH]; [ done |].
  intros Hn. apply not_elem_of_cons in Hn as [Hne Hn].
  rewrite filter_cons. case_decide; [| done ]. by rewrite IH.
Qed.

Lemma set_delete_gone e l : e ∉ set_delete e l.
Proof. unfold set_delete. rewrite list_elem_of_filter. tauto. Qed.

Lemma cleanup_lookup e l (m : gmap depid (list eid)) d :
  foldl (fun m d => alter (set_delete e) d m) m l !! d
  = (if bool_decide (d ∈ l) then set_delete e else id) <$> m !! d.
Proof.
  revert m. induction l as [|x l IH]; intros m; simpl.
  - by destruct (m !! d).
  - rewrite IH. destruct (decide (d = x)) as [->|Hne].
    + rewrite lookup_alter_eq. rewrite (bool_decide_true (x ∈ x :: l)) by left.
      destruct (m !! x) as [c|]; simpl; [| by case_bool_decide ].
      case_bool_decide; simpl; [ by rewrite set_delete_idem | done ].
    + rewrite lookup_alter_ne by done.
      assert (Hiff : d ∈ x :: l <-> d ∈ l).
      { rewrite elem_of_cons. split; [ by intros [?|?] | by right ]. }
      by rewrite (bool_decide_ext _ _ Hiff).
Qed.

Lemma cleanup_loop e l s :
  (forall d, d ∈ l -> is_Some (deps s !! d)) ->
  for_each l (fun d =>
    let* _ := get_dep d in modify (upd_deps (alter (set_delete e) d))) s
  = Some (Normal tt,
          upd_deps (fun m => foldl (fun m d => alter (set_delete e) d m) m l) s).
Proof.
  revert s. induction l as [|x l IH]; intros s Hall; simpl.
  - unfold ret. by destruct s.
  - destruct (Hall x) as [c Hc]; [ left |]. munfold. rewrite Hc. simpl_state.
    rewrite IH.
    + done.
    + intros d Hin. simpl_state. destruct (decide (d = x)) as [->|Hne].
      * rewrite lookup_alter_eq, Hc. by eexists.
      * rewrite lookup_alter_ne by done. apply Hall. by right.
Qed.

Lemma cleanupEffect_exact e E s :
  links_ok s -> effects s !! e = Some E ->
  cleanupEffect e s = Some (Normal tt, unsubscribed e s).
Proof.
  intros [H1 H2] HE. unfold cleanupEffect.
  rewrite (bind_normal _ _ s E s) by by apply get_effect_at.
  erewrite bind_normal.
  2:{ apply cleanup_loop. intros d Hin.
      destruct (H2 _ _ _ HE Hin) as (c & Hc & _). by eexists. }
  rewrite (upd_effect_at e _ E) by done.
  unfold unsubscribed. do 3 f_equal.
  unfold upd_deps. f_equal. apply map_eq. intros d.
  rewrite cleanup_lookup, lookup_fmap.
  destruct (deps s !! d) as [c|] eqn:Hd; simpl; [| done ].
  case_bool_decide as Hin; [ done |]. simpl. f_equal. symmetry.
  apply set_delete_absent. intros He.
  destruct (H1 _ _ _ Hd He) as (E0 & HE0 & Hd0). congruence.
Qed.

Lemma links_unsubscribed e s : links_ok s -> links_ok (unsubscribed e s).
Proof.
  intros [H1 H2]. unfold unsubscribed. split.
  - intros d c x. simpl_state. rewrite lookup_fmap. intros Hd Hin.
    destruct (deps s !! d) as [c0|] eqn:Hd0; [| done ]. injection Hd as <-.
    apply list_elem_of_filter in Hin as [Hne Hin].
    destruct (H1 _ _ _ Hd0 Hin) as (E0 & HE0 & Hd1).
    rewrite lookup_alter_ne by done. eauto.
  - intros x X d. simpl_state. intros HX Hin.
    destruct (decide (x = e)) as [->|Hne].
    + rewrite lookup_alter_Some in HX. destruct HX as [(_ & X0 & _ & ->)|[? _]]; [| done ].
      by apply elem_of_nil in Hin.
    + rewrite lookup_alter_ne in HX by done.
      destruct (H2 _ _ _ HX Hin) as (c & Hc & Hx).
      rewrite lookup_fmap, Hc. eexists. split; [ reflexivity |].
      apply list_elem_of_filter. done.
Qed.

Section Stop.
Context `{Host}.

Lemma stop_effect_inactive e E s :
  effects s !! e = Some E -> e_active E = false ->
  stop_effect e s = Some (Normal tt, s).
Proof.
  intros HE Hact. unfold stop_effect.
  rewrite (bind_normal _ _ s E s) by by apply get_effect_at. by rewrite Hact.
Qed.

Lemma stop_effect_active e E s :
  links_ok s -> effects s !! e = Some E -> e_active E = true ->
  stop_effect e s
  = ((match e_onStop E with
      | Some f => invoke f [] ;; ret tt
      | None => ret tt
      end) ;; upd_effect e (set_e_active false)) (unsubscribed e s).
Proof.
  intros Hl HE Hact. unfold stop_effect.
  rewrite (bind_normal _ _ s E s) by by apply get_effect_at. rewrite Hact.
  rewrite (bind_normal _ _ s tt (unsubscribed e s)) by by apply (cleanupEffect_exact e E).
  rewrite (bind_normal _ _ _ (set_e_deps [] E) (unsubscribed e s)).
  - done.
  - apply get_effect_at. unfold unsubscribed. simpl_state.
    by rewrite lookup_alter_eq, HE.
Qed.

End Stop.

(** X3.  [stop(runner)] on an active effect, in a state where the two
    directions of every subscription agree: the effect is taken out of every
    dependency set and its own list is emptied, then [onStop] is called if
    there is one, then the effect is marked inactive.  Without [onStop] the
    result is that state: the effect is a member of no set, the other members
    of every set are untouched, and stopping it again changes nothing. *)
Theorem stop_unsubscribes `{Host} runner e E s :
  links_ok s -> heap s !! runner = Some (HRunner e) ->
  effects s !! e = Some E -> e_active E = true ->
  let s1 := unsubscribed e s in
  let s' := upd_effects (alter (set_e_active false) e) s1 in
  (forall f, e_onStop E = Some f ->
     stop runner s = ((invoke f [] ;; ret tt) ;; upd_effect e (set_e_active false)) s1)
  /\ (e_onStop E = None ->
      stop runner s = Some (Normal tt, s')
      /\ stop runner s' = Some (Normal tt, s'))
  /\ effects s' !! e = Some (set_e_active false (set_e_deps [] E))
  /\ (forall x, x <> e -> effects s' !! x = effects s !! x)
  /\ (forall d, deps s' !! d = set_delete e <$> deps s !! d)
  /\ (forall d content, deps s' !! d = Some content -> e ∉ content)
  /\ links_ok s'.
Proof.
  intros Hl Hr HE Hact s1 s'.
  assert (HE1 : effects s1 !! e = Some (set_e_deps [] E)).
  { unfold s1, unsubscribed. simpl_state. by rewrite lookup_alter_eq, HE. }
  assert (HE' : effects s' !! e = Some (set_e_active false (set_e_deps [] E))).
  { unfold s'. simpl_state. by rewrite lookup_alter_eq, HE1. }
  assert (Hstop : stop runner s = stop_effect e s).
  { unfold stop. by rewrite (bind_normal _ _ s (HRunner e) s) by (unfold liftO; by rewrite Hr). }
  split_and!.
  - intros f Hf. rewrite Hstop, (stop_effect_active e E) by done. by rewrite Hf.
  - intros Hnone. split.
    + rewrite Hstop, (stop_effect_active e E) by done. rewrite Hnone.
      fold s1. rewrite (bind_normal _ _ s1 tt s1) by done.
      by rewrite (upd_effect_at e _ (set_e_deps [] E)).
    + unfold stop. rewrite (bind_normal _ _ s' (HRunner e) s').
      * by eapply stop_effect_inactive.
      * unfold liftO, s', s1, unsubscribed. simpl_state. by rewrite Hr.
  - exact HE'.
  - intros x Hne. unfold s', s1, unsubscribed. simpl_state.
    by rewrite !lookup_alter_ne.
  - intros d. unfold s', s1, unsubscribed. simpl_state. by rewrite lookup_fmap.
  - intros d content. unfold s', s1, unsubscribed. simpl_state.
    rewrite lookup_fmap. destruct (deps s !! d); [| done ].
    intros [= <-]. apply set_delete_gone.
  - pose proof (links_unsubscribed e s Hl) as [H1 H2]. fold s1 in H1, H2. split.
    + intros d c x Hd Hin. unfold s' in *. simpl_state.
      destruct (H1 _ _ _ Hd Hin) as (X & HX & Hd').
      destruct (decide (x = e)) as [->|Hne].
      * rewrite lookup_alter_eq, HX. eexists. split; [ reflexivity | done ].
      * rewrite lookup_alter_ne by done. eauto.
    + intros x X d HX Hin. unfold s' in *. simpl_state.
      destruct (decide (x = e)) as [->|Hne].
      * rewrite lookup_alter_eq, HE1 in HX. injection HX as <-.
        by apply elem_of_nil in Hin.
      * rewrite lookup_alter_ne in HX by done. eauto.
Qed.

Lemma links_s_subscribed : links_ok s_subscribed.
Proof.
  split.
  - intros d c e Hd Hin. unfold s_subscribed, initial_state in *. simpl_state.
    apply lookup_insert_Some in Hd as [[<- <-]|[_ Hd]]; [| by rewrite lookup_empty in Hd ].
    apply list_elem_of_singleton in Hin as ->.
    rewrite lookup_insert_eq. eexists. split; [ reflexivity |]. by left.
  - intros e E d HE Hin. unfold s_subscribed, initial_state in *. simpl_state.
    apply lookup_insert_Some in HE as [[<- <-]|[_ HE]]; [| by rewrite lookup_empty in HE ].
    apply list_elem_of_singleton in Hin as ->.
    rewrite lookup_insert_eq. eexists. split; [ reflexivity |]. by left.
Qed.

Lemma stop_unsubscribes_witness :
  links_ok s_subscribed /\
  exists s',
    @stop quiet_host 1 s_subscribed = Some (Normal tt, s')
    /\ @stop quiet_host 1 s' = Some (Normal tt, s')
    /\ deps s' !! 0 = Some []
    /\ links_ok s'.
Proof.
  split; [ exact links_s_subscribed |].
  destruct (@stop_unsubscribes quiet_host 1 0 (set_e_deps [0] (plain_effect 7))
              s_subscribed links_s_subscribed eq_refl eq_refl eq_refl)
    as (_ & Hnone & _ & _ & Hd & _ & Hl).
  destruct (Hnone eq_refl) as [Hs1 Hs2].
  eexists. split; [ exact Hs1 |]. split; [ exact Hs2 |].
  split; [ by rewrite Hd | exact Hl ].
Defined.

(** ** Notifying the subscribers of a key *)

Lemma same_shape_trans E1 E2 E3 :
  same_shape E1 E2 -> same_shape E2 E3 -> same_shape E1 E3.
Proof.
  unfold same_shape, same_effect. intros (H1 & ?) (H2 & ?).
  repeat split; destruct_and?; congruence.
Qed.

Lemma shapes_kept_refl s : shapes_kept s s.
Proof. intros e E HE. exists E. split; [ done | apply same_shape_refl ]. Qed.

Lemma shapes_kept_trans s1 s2 s3 :
  shapes_kept s1 s2 -> shapes_kept s2 s3 -> shapes_kept s1 s3.
Proof.
  intros H12 H23 e E HE. destruct (H12 _ _ HE) as (E2 & HE2 & Hs2).
  destruct (H23 _ _ HE2) as (E3 & HE3 & Hs3).
  exists E3. split; [ done |]. by eapply same_shape_trans.
Qed.

Lemma plain_subscriber_kept s s' e :
  shapes_kept s s' -> plain_subscriber s e ->
  plain_subscriber s' e /\ fn_of s' e = fn_of s e.
Proof.
  intros Hk (E & HE & Ha & Hs & Hc & Hp).
  destruct (Hk _ _ HE) as (E' & HE' & (Hf & Ha' & Hp' & Hs') & Hc' & _).
  split.
  - exists E'. split_and!; congruence.
  - unfold fn_of. by rewrite HE', HE.
Qed.

Section Notify.
Context `{Host}.
Hypothesis Hhost : host_keeps_shapes.

(** A subscriber that is run from outside any effect: its function is called
    once, with the subscriber as the running effect. *)
Lemma run_plain e s :
  activeEffect s = None -> plain_subscriber s e ->
  run e s = Some (run_result e s)
  /\ activeEffect (run_result e s).2 = None
  /\ shapes_kept s (run_result e s).2.
Proof.
  intros Hae (E & HE & Ha & Hs & Hc & Hp).
  assert (Hfn : fn_of s e = e_fn E) by (unfold fn_of; by rewrite HE).
  unfold run_result. rewrite Hfn.
  set (s_pre := logged (e_fn E) [] (entered e s)).
  assert (HEpre : effects s_pre !! e = Some (set_e_parent None E)).
  { unfold s_pre, logged, entered. simpl_state. by rewrite lookup_alter_eq, HE, Hae. }
  destruct (Hhost (e_fn E) [] s_pre e _ HEpre) as (E2 & HE2 & Hshape).
  assert (Hp2 : e_parent E2 = None) by (destruct Hshape as ((_ & _ & Hp2 & _) & _); done).
  split_and!.
  - pose proof (run_off_stack e E [] s HE Ha) as Hrun. fold s_pre in Hrun.
    apply Hrun; [ done | apply not_elem_of_nil | eauto ].
  - cbn [snd]. unfold resumed. simpl_state. by rewrite HE2.
  - cbn [snd]. intros x X HX.
    assert (Hpre : exists X1, effects s_pre !! x = Some X1 /\ same_shape X X1).
    { unfold s_pre, logged, entered. simpl_state. destruct (decide (x = e)) as [->|Hne].
      - rewrite lookup_alter_eq, HX. eexists. split; [ reflexivity |].
        rewrite HE in HX. injection HX as <-. rewrite Hae.
        repeat split; simpl; congruence.
      - rewrite lookup_alter_ne by done. exists X. split; [ done | apply same_shape_refl ]. }
    destruct Hpre as (X1 & HX1 & Hs1).
    destruct (Hhost (e_fn E) [] s_pre x _ HX1) as (X2 & HX2 & Hs2).
    unfold resumed. simpl_state.
    destruct (decide (x = e)) as [->|Hne].
    + rewrite lookup_alter_eq, HX2. eexists. split; [ reflexivity |].
      eapply same_shape_trans; [ exact Hs1 |]. eapply same_shape_trans; [ exact Hs2 |].
      assert (e_parent X2 = None) by congruence.
      repeat split; simpl; congruence.
    + rewrite lookup_alter_ne by done. exists X2. split; [ done |].
      by eapply same_shape_trans.
Qed.

(** When the function calls nothing in turn, its call is the one entry the
    run adds to the log. *)
Lemma run_result_calls e s :
  fn_silent (fn_of s e) ->
  calls (run_result e s).2 = calls s ++ [(fn_of s e, [])].
Proof.
  intros Hsilent. unfold run_result. cbn [snd]. unfold resumed. simpl_state.
  by rewrite Hsilent.
Qed.

Lemma triggerEffect_plain n e s :
  activeEffect s = None -> plain_subscriber s e ->
  triggerEffect (S n) e s = (run e ;; ret tt) s.
Proof.
  intros Hae (E & HE & Ha & Hs & Hc & Hp). cbn [triggerEffect].
  rewrite (bind_normal _ _ s E s) by by apply get_effect_at.
  rewrite (bind_normal _ _ s None s) by (unfold gets; by rewrite Hae).
  rewrite bool_decide_false by done. cbn [negb orb]. by rewrite Hs.
Qed.

Lemma first_pass_plain (te : eid -> M unit) effs s :
  (forall e, e ∈ effs -> plain_subscriber s e) ->
  for_each effs (fun e =>
    let* E := get_effect e in when (is_computed_effect E) (te e)) s
  = Some (Normal tt, s).
Proof.
  induction effs as [|e rest IH]; intros Hall; [ done |]. cbn [for_each].
  destruct (Hall e) as (E & HE & Ha & Hs & Hc & Hp); [ left |].
  rewrite (bind_normal _ _ s tt s).
  - apply IH. intros x Hx. apply Hall. by right.
  - rewrite (bind_normal _ _ s E s) by by apply get_effect_at.
    unfold is_computed_effect. by rewrite Hc.
Qed.

(** One step of the second pass. *)
Lemma second_pass_step n e s :
  activeEffect s = None -> plain_subscriber s e ->
  (let* E := get_effect e in
   when (negb (is_computed_effect E)) (triggerEffect (S n) e)) s
  = match (run_result e s).1 with
    | Normal _ => Some (Normal tt, (run_result e s).2)
    | Throw exn => Some (Throw exn, (run_result e s).2)
    end.
Proof.
  intros Hae Hplain. destruct (run_plain e s Hae Hplain) as (Hrun & _).
  destruct Hplain as (E & HE & Ha & Hs & Hc & Hp).
  rewrite (bind_normal _ _ s E s) by by apply get_effect_at.
  unfold is_computed_effect. rewrite Hc. cbn [negb when].
  rewrite triggerEffect_plain by (done || by exists E).
  unfold bind. rewrite Hrun. by destruct (run_result e s) as [[v|exn] s1].
Qed.

Lemma second_pass_plain n effs : forall s,
  activeEffect s = None ->
  (forall e, e ∈ effs -> plain_subscriber s e) ->
  (forall e, e ∈ effs -> fn_returns (fn_of s e)) ->
  for_each effs (fun e =>
    let* E := get_effect e in
    when (negb (is_computed_effect E)) (triggerEffect (S n) e)) s
  = Some (Normal tt, ran_in_turn effs s)
  /\ activeEffect (ran_in_turn effs s) = None
  /\ shapes_kept s (ran_in_turn effs s).
Proof.
  induction effs as [|e rest IH]; intros s Hae Hall Hret.
  - split_and!; [ done | done | apply shapes_kept_refl ].
  - cbn [for_each ran_in_turn].
    pose proof (Hall e ltac:(left)) as Hplain.
    destruct (run_plain e s Hae Hplain) as (_ & Hae1 & Hk1).
    pose proof (second_pass_step n e s Hae Hplain) as Hstep.
    destruct (Hret e ltac:(left) [] (logged (fn_of s e) [] (entered e s))) as [v Hv].
    change ((run_result e s).1 = Normal v) in Hv. rewrite Hv in Hstep.
    destruct (IH (run_result e s).2 Hae1) as (Hloop & Hae' & Hk').
    { intros x Hx. eapply plain_subscriber_kept; [ exact Hk1 |]. apply Hall. by right. }
    { intros x Hx.
      destruct (plain_subscriber_kept s _ x Hk1) as [_ ->]; [ apply Hall; by right |].
      apply Hret. by right. }
    split_and!.
    + by rewrite (bind_normal _ _ s tt (run_result e s).2).
    + done.
    + by eapply shapes_kept_trans.
Qed.

(** The log after the subscribers have run, when their functions call
    nothing in turn: one entry for each, in order. *)
Lemma ran_in_turn_calls effs : forall s,
  activeEffect s = None ->
  (forall e, e ∈ effs -> plain_subscriber s e) ->
  (forall e, e ∈ effs -> fn_silent (fn_of s e)) ->
  calls (ran_in_turn effs s) = calls s ++ calls_of s effs.
Proof.
  induction effs as [|e rest IH]; intros s Hae Hall Hsilent.
  - unfold calls_of. simpl. by rewrite app_nil_r.
  - cbn [ran_in_turn].
    pose proof (Hall e ltac:(left)) as Hplain.
    destruct (run_plain e s Hae Hplain) as (_ & Hae1 & Hk1).
    rewrite IH; [| done | |].
    + rewrite run_result_calls by (apply Hsilent; by left).
      unfold calls_of. cbn [map]. rewrite <- app_assoc. cbn [app]. do 2 f_equal.
      apply map_ext_in. intros x Hx. f_equal.
      apply plain_subscriber_kept; [ done |]. apply Hall. right.
      by apply list_elem_of_In.
    + intros x Hx. eapply plain_subscriber_kept; [ exact Hk1 |]. apply Hall. by right.
    + intros x Hx.
      destruct (plain_subscriber_kept s _ x Hk1) as [_ ->]; [ apply Hall; by right |].
      apply Hsilent. by right.
Qed.

(** [triggerEffects] over subscribers that have no scheduler and whose
    functions return: each is run once, in the order of the set. *)
Lemma triggerEffects_plain n effs s :
  activeEffect s = None ->
  (forall e, e ∈ effs -> plain_subscriber s e) ->
  (forall e, e ∈ effs -> fn_returns (fn_of s e)) ->
  triggerEffects (S n) effs s = Some (Normal tt, ran_in_turn effs s).
Proof.
  intros Hae Hall Hret.
  destruct (second_pass_plain n effs s Hae Hall Hret) as (Hloop & _).
  unfold triggerEffects, triggerEffects_with.
  by rewrite (bind_normal _ _ s tt s) by by apply first_pass_plain.
Qed.

(** When the function of the first subscriber throws, [triggerEffects] ends
    with that call. *)
Lemma triggerEffects_first_throws n e rest s exn :
  activeEffect s = None ->
  (forall x, x ∈ e :: rest -> plain_subscriber s x) ->
  (run_result e s).1 = Throw exn ->
  triggerEffects (S n) (e :: rest) s = Some (Throw exn, (run_result e s).2).
Proof.
  intros Hae Hall Hthrow.
  unfold triggerEffects, triggerEffects_with.
  rewrite (bind_normal _ _ s tt s) by by apply first_pass_plain.
  cbn [for_each]. apply bind_throw.
  rewrite (second_pass_step n e s Hae) by (apply Hall; by left).
  by rewrite Hthrow.
Qed.

End Notify.

(** ** Writing a primitive value to a property of an ordinary object *)

Lemma primitive_facts s v :
  primitive v ->
  isReadonly s v = false /\ isShallow s v = false
  /\ (forall n, isRef_fuel n s v = Some false)
  /\ (forall n, toRaw_fuel n s v = Some v).
Proof. destruct v; try done; intros _; split_and!; try done; intros n; by destruct n. Qed.

Lemma primitive_isRef s v : primitive v -> isRef s v = Some false.
Proof. intros Hv. apply primitive_facts, Hv. Qed.

Lemma primitive_toRaw s v : primitive v -> toRaw s v = Some v.
Proof. intros Hv. apply primitive_facts, Hv. Qed.

Lemma Reflect_set_writable target o key v s :
  isArrayObj o = false -> writable_key o key ->
  Reflect_set target o key v s
  = Some (Normal true,
          upd_heap (insert target (HObj (set_o_props (insert key v) o))) s).
Proof.
  intros Harr Hw. unfold Reflect_set, obj_set. rewrite Harr. cbn [andb].
  destruct Hw as [Hown|[Hext Hkey]].
  - unfold obj_hasOwn, obj_get_own in Hown. rewrite Harr in Hown.
    cbn [andb] in Hown. by destruct (o_props o !! key).
  - destruct (o_props o !! key) as [old|] eqn:Hk; [ done |].
    rewrite bool_decide_false by done. rewrite Hext.
    by destruct (array_index key).
Qed.


Section WritePlain.
Context `{Host}.

(** The [set] trap on an ordinary object, for primitive values: it assigns,
    then triggers by the case of the key. *)
Lemma set_trap_plain shallow n target o key v p s :
  heap s !! target = Some (HObj o) -> o_type o = TObject ->
  toRaw s (VObj p) = Some (VObj target) ->
  primitive (obj_get o key) -> primitive v ->
  writable_key o key ->
  set_trap shallow n target key v (VObj p) s
  = ((if negb (obj_hasOwn o key) then trigger n target OpAdd (Some key) v
      else if hasChanged v (obj_get o key)
           then trigger n target OpSet (Some key) v
           else ret tt) ;; ret true)
      (upd_heap (insert target (HObj (set_o_props (insert key v) o))) s).
Proof.
  intros Ht Hty Hp Hold Hv Hext.
  destruct (primitive_facts s _ Hold) as (Hro & _ & _ & _).
  destruct (primitive_facts s _ Hv) as (Hrv & Hsv & _ & _).
  assert (Harr : isArrayObj o = false).
  { unfold isArrayObj. rewrite Hty. by apply bool_decide_false. }
  unfold set_trap.
  rewrite (bind_normal _ _ s o s) by (unfold get_obj, liftO; by rewrite Ht).
  rewrite (bind_normal _ _ s false s) by (unfold gets; by rewrite Hro).
  rewrite (bind_normal _ _ s false s)
    by (unfold liftO; by rewrite (primitive_isRef s _ Hold)).
  rewrite (bind_normal _ _ s false s)
    by (unfold liftO; by rewrite (primitive_isRef s _ Hv)).
  cbn [andb].
  rewrite (bind_normal _ _ s (negb shallow) s).
  2:{ destruct shallow; [ done |]. unfold gets. by rewrite Hsv, Hrv. }
  rewrite (bind_normal _ _ s (obj_get o key) s).
  2:{ destruct shallow; cbn [negb]; [ done |].
      unfold liftO. by rewrite (primitive_toRaw s _ Hold). }
  rewrite (bind_normal _ _ s v s).
  2:{ destruct shallow; cbn [negb]; [ done |].
      unfold liftO. by rewrite (primitive_toRaw s _ Hv). }
  rewrite (bind_normal _ _ s false s)
    by (unfold liftO; by rewrite (primitive_isRef s _ Hold)).
  rewrite (bind_normal _ _ s false s)
    by (unfold liftO; by rewrite (primitive_isRef s _ Hv)).
  rewrite andb_false_r. cbn [andb].
  rewrite (bind_normal _ _ s (obj_hasOwn o key) s)
    by (unfold liftO, hadKey; by rewrite Harr).
  set (s1 := upd_heap (insert target (HObj (set_o_props (insert key v) o))) s).
  assert (Hset : Reflect_set target o key v s = Some (Normal true, s1))
    by (by apply Reflect_set_writable).
  rewrite (bind_normal _ _ s true s1) by exact Hset.
  rewrite (bind_normal _ _ s1 (VObj target) s1).
  2:{ unfold liftO, s1. by rewrite (toRaw_update_obj s target o), Hp. }
  rewrite bool_decide_true by done. done.
Qed.

(** [trigger] on an ordinary object whose dependency map is known. *)
Lemma trigger_plain n target o type key v depsMap s :
  heap s !! target = Some (HObj o) -> o_type o = TObject ->
  targetMap s !! target = Some depsMap ->
  type = OpSet \/ type = OpAdd \/ type = OpDelete ->
  trigger n target type (Some key) v s
  = (match type with
     | OpSet =>
         match map_get depsMap key with
         | Some d => let* effs := get_dep d in triggerEffects n effs
         | None => ret tt
         end
     | _ =>
         let* effs := collect_effects [map_get depsMap key; map_get depsMap ""] in
         triggerEffects n (createDep effs)
     end) s.
Proof.
  intros Ht Hty Hm Htype. unfold trigger.
  rewrite (bind_normal _ _ s (Some depsMap) s) by (unfold gets; by rewrite Hm).
  rewrite (bind_normal _ _ s TObject s).
  2:{ unfold liftO, toRawType. destruct (size (heap s)); simpl; by rewrite Ht, Hty. }
  rewrite !bool_decide_false by done.
  unfold trigger_deps. rewrite andb_false_r. cbn [negb app].
  destruct Htype as [->|[->| ->]];
    by rewrite (bind_normal _ _ s _ s) by (unfold liftO; reflexivity).
Qed.

End WritePlain.



Section WriteNotifies.
Context `{Host}.
Hypothesis Hhost : host_keeps_shapes.

Lemma write_set_notifies n target o key v p depsMap d effs s :
  heap s !! target = Some (HObj o) -> o_type o = TObject ->
  toRaw s (VObj p) = Some (VObj target) ->
  obj_hasOwn o key = true -> primitive (obj_get o key) -> primitive v ->
  hasChanged v (obj_get o key) = true ->
  targetMap s !! target = Some depsMap -> map_get depsMap key = Some d ->
  deps s !! d = Some effs ->
  set_trap false (S n) target key v (VObj p) s
  = (triggerEffects (S n) effs ;; ret true)
      (upd_heap (insert target (HObj (set_o_props (insert key v) o))) s).
Proof.
  intros Ht Hty Hp Hhad Hold Hv Hch Hm Hk Hd.
  rewrite (set_trap_plain false (S n) target o key v p s) by (done || by left).
  rewrite Hhad, Hch. cbn [negb].
  set (s1 := upd_heap _ s).
  assert (Htr : trigger (S n) target OpSet (Some key) v s1 = triggerEffects (S n) effs s1).
  { rewrite (trigger_plain (S n) target (set_o_props (insert key v) o) OpSet key v depsMap);
      try done; [| unfold s1; simpl_state; by rewrite lookup_insert_eq | by left ].
    rewrite Hk. by rewrite (bind_normal _ _ s1 effs s1)
      by (unfold get_dep, liftO; unfold s1; simpl_state; by rewrite Hd). }
  unfold bind at 1. rewrite Htr. done.
Qed.

End WriteNotifies.

(** X4.  Writing a changed primitive value to an existing property of an
    ordinary object, through its reactive proxy and from outside any effect,
    runs the effects subscribed to the property.  When their functions
    return, the write returns [true], and the state it leaves is the state
    after the assignment in which each subscriber has been run once, one
    after the other in the order of subscription.  When the functions call
    nothing in turn, the log has one more entry for each. *)
Theorem write_runs_readers `{Host} n target o key v p depsMap d effs s :
  host_keeps_shapes ->
  heap s !! target = Some (HObj o) -> o_type o = TObject ->
  toRaw s (VObj p) = Some (VObj target) ->
  obj_hasOwn o key = true -> primitive (obj_get o key) -> primitive v ->
  hasChanged v (obj_get o key) = true ->
  targetMap s !! target = Some depsMap -> map_get depsMap key = Some d ->
  deps s !! d = Some effs ->
  activeEffect s = None ->
  (forall e, e ∈ effs -> plain_subscriber s e) ->
  (forall e, e ∈ effs -> fn_returns (fn_of s e)) ->
  let s1 := upd_heap (insert target (HObj (set_o_props (insert key v) o))) s in
  set_trap false (S n) target key v (VObj p) s
  = Some (Normal true, ran_in_turn effs s1)
  /\ ((forall e, e ∈ effs -> fn_silent (fn_of s e)) ->
      calls (ran_in_turn effs s1) = calls s ++ calls_of s effs).
Proof.
  intros Hhost Ht Hty Hp Hhad Hold Hv Hch Hm Hk Hd Hae Hplain Hret s1.
  split.
  - rewrite (write_set_notifies n target o key v p depsMap d effs s) by done.
    fold s1. by rewrite (bind_normal _ _ s1 tt (ran_in_turn effs s1))
      by (by apply triggerEffects_plain).
  - intros Hsilent. by rewrite (ran_in_turn_calls Hhost effs s1).
Qed.

(** X5.  In the same situation, when the function of the first subscriber
    throws, the write throws what it has thrown: the function was called in
    the state after the assignment, and the state the write leaves is the
    state that call has left, so that no other subscriber has been run. *)
Theorem throwing_reader_stops_notification `{Host} n target o key v p depsMap d
    e rest s :
  host_keeps_shapes ->
  heap s !! target = Some (HObj o) -> o_type o = TObject ->
  toRaw s (VObj p) = Some (VObj target) ->
  obj_hasOwn o key = true -> primitive (obj_get o key) -> primitive v ->
  hasChanged v (obj_get o key) = true ->
  targetMap s !! target = Some depsMap -> map_get depsMap key = Some d ->
  deps s !! d = Some (e :: rest) ->
  activeEffect s = None ->
  (forall x, x ∈ e :: rest -> plain_subscriber s x) ->
  (forall args s0, exists exn, (apply_fn (fn_of s e) args s0).1 = Throw exn) ->
  let s1 := upd_heap (insert target (HObj (set_o_props (insert key v) o))) s in
  exists exn,
    (run_result e s1).1 = Throw exn
    /\ set_trap false (S n) target key v (VObj p) s
       = Some (Throw exn, (run_result e s1).2)
    /\ (fn_silent (fn_of s e) ->
        calls (run_result e s1).2 = calls s ++ [(fn_of s e, [])]).
Proof.
  intros Hhost Ht Hty Hp Hhad Hold Hv Hch Hm Hk Hd Hae Hplain Hthr s1.
  destruct (Hthr [] (logged (fn_of s1 e) [] (entered e s1))) as [exn Hexn].
  exists exn. split_and!.
  - exact Hexn.
  - rewrite (write_set_notifies n target o key v p depsMap d (e :: rest) s) by done.
    fold s1. apply bind_throw. by apply triggerEffects_first_throws.
  - intros Hsilent. by rewrite run_result_calls.
Qed.

Lemma quiet_host_keeps_shapes : @host_keeps_shapes quiet_host.
Proof. intros f args s e E HE. exists E. split; [ done | apply same_shape_refl ]. Qed.

Lemma throwing_host_keeps_shapes : @host_keeps_shapes throwing_host.
Proof. intros f args s e E HE. exists E. split; [ done | apply same_shape_refl ]. Qed.

Lemma s_two_readers_plain e : e ∈ [1; 0] -> plain_subscriber s_two_readers e.
Proof.
  intros He. apply elem_of_cons in He as [->|He];
    [| apply list_elem_of_singleton in He as -> ];
    eexists; split_and!; reflexivity.
Qed.

Lemma quiet_host_silent f : @fn_silent quiet_host f.
Proof. by intros args s. Qed.

Lemma throwing_host_silent f : @fn_silent throwing_host f.
Proof. by intros args s. Qed.

Lemma write_runs_readers_witness :
  exists s',
    @set_trap quiet_host false 1 0 "count" (VNum (Int 1)) (VObj 1) s_two_readers
    = Some (Normal true, s')
    /\ calls s' = [(8, []); (7, [])]
    /\ heap s' !! 0
       = Some (HObj (set_o_props (insert "count" (VNum (Int 1))) empty_object)).
Proof.
  destruct (@write_runs_readers quiet_host 0 0
              (set_o_props (insert "count" (VNum (Int 0))) empty_object)
              "count" (VNum (Int 1)) 1 [("foo", 0); ("", 1); ("count", 2)] 2 [1; 0]
              s_two_readers quiet_host_keeps_shapes
              eq_refl eq_refl eq_refl eq_refl I I eq_refl eq_refl eq_refl eq_refl eq_refl
              s_two_readers_plain
              (fun e _ args s => ex_intro _ VUndef eq_refl))
    as (Hset & Hcalls).
  eexists. split; [ exact Hset |]. split.
  - apply Hcalls. intros e _. apply quiet_host_silent.
  - vm_compute. reflexivity.
Defined.

Lemma throwing_reader_stops_notification_witness :
  exists exn s',
    @set_trap throwing_host false 1 0 "count" (VNum (Int 1)) (VObj 1) s_two_readers
    = Some (Throw exn, s')
    /\ calls s' = [(8, [])]
    /\ heap s' !! 0
       = Some (HObj (set_o_props (insert "count" (VNum (Int 1))) empty_object)).
Proof.
  destruct (@throwing_reader_stops_notification throwing_host 0 0
              (set_o_props (insert "count" (VNum (Int 0))) empty_object)
              "count" (VNum (Int 1)) 1 [("foo", 0); ("", 1); ("count", 2)] 2 1 [0]
              s_two_readers throwing_host_keeps_shapes
              eq_refl eq_refl eq_refl eq_refl I I eq_refl eq_refl eq_refl eq_refl eq_refl
              s_two_readers_plain
              (fun args s => ex_intro _ (VStr "boom") eq_refl))
    as (exn & Hexn & Hset & Hcalls).
  eexists _, _. split; [ exact Hset |]. split.
  - apply Hcalls. apply throwing_host_silent.
  - vm_compute. reflexivity.
Defined.


Lemma triggerEffects_nil `{Host} n s : triggerEffects n [] s = Some (Normal tt, s).
Proof. done. Qed.







(** ** Proxies and their flags *)


Lemma get_v_raw_obj s x o : heap s !! x = Some (HObj o) -> get_v_raw s x = Some VUndef.
Proof. intros Hx. unfold get_v_raw. by rewrite Hx. Qed.


















Lemma getTargetType_obj s x o :
  heap s !! x = Some (HObj o) ->
  getTargetType x s
  = Some (Normal (if o_skip o then 0
                  else if o_extensible o then targetTypeMap (o_type o) else 0), s).
Proof.
  intros Hx. unfold getTargetType.
  rewrite (bind_normal _ _ s (size (heap s)) s) by done.
  rewrite (bind_normal _ _ s (if o_skip o then VBool true else VUndef) s).
  2:{ destruct (size (heap s)); cbn [get_v_skip];
        by rewrite (bind_normal _ _ s (HObj o) s) by (unfold liftO; by rewrite Hx). }
  destruct (o_skip o); [ done |]. cbn [truthy].
  rewrite (bind_normal _ _ s (o_extensible o) s).
  2:{ unfold liftO. destruct (size (heap s)); cbn [isExtensible_fuel]; by rewrite Hx. }
  destruct (o_extensible o); [| done ]. cbn [negb].
  rewrite (bind_normal _ _ s (o_type o) s); [ done |].
  unfold liftO, toRawType. destruct (size (heap s)); cbn [rawType_fuel]; by rewrite Hx.
Qed.

Lemma createReactiveObject_unobservable ro sh x o s :
  heap s !! x = Some (HObj o) -> proxyMapOf s ro sh !! x = None ->
  o_skip o = true \/ o_extensible o = false \/ targetTypeMap (o_type o) = 0 ->
  createReactiveObject (VObj x) ro sh s = Some (Normal (VObj x), s).
Proof.
  intros Hx Hcache Hun. unfold createReactiveObject.
  rewrite (bind_normal _ _ s true s) by (unfold liftO, isObject; by rewrite Hx).
  cbn [negb].
  rewrite (bind_normal _ _ s VUndef s)
    by (unfold liftO; by rewrite (get_v_raw_obj s x o)).
  rewrite (bind_normal _ _ s false s)
    by (unfold gets, get_v_isReactive; by rewrite Hx).
  cbn [truthy andb].
  rewrite (bind_normal _ _ s None s) by (unfold gets; by rewrite Hcache).
  rewrite (bind_normal _ _ s 0 s); [ done |].
  rewrite (getTargetType_obj s x o Hx).
  destruct Hun as [->|[->| ->]]; [ done | by destruct (o_skip o) |].
  by destruct (o_skip o), (o_extensible o).
Qed.

(** X10.  What cannot be observed is handed back as it is, by each of the
    four wrapping functions: a primitive value with a warning; an ordinary
    object that is marked raw, not extensible or of an unknown type, silently
    and with no proxy made, unless a proxy of it is already cached.  In
    particular an extensible object is never wrapped after [markRaw]; on an
    object that is not extensible and not yet marked, [markRaw] throws and
    marks nothing. *)
Theorem unobservable_returned_as_is ro sh s :
  (forall v, primitive v ->
     wrap ro sh v s
     = Some (Normal v, upd_console (fun l => l ++ [WarnNotReactive v]) s))
  /\ (forall x o,
        heap s !! x = Some (HObj o) -> proxyMapOf s ro sh !! x = None ->
        o_skip o = true \/ o_extensible o = false \/ targetTypeMap (o_type o) = 0 ->
        wrap ro sh (VObj x) s = Some (Normal (VObj x), s))
  /\ (forall x o,
        heap s !! x = Some (HObj o) -> proxyMapOf s ro sh !! x = None ->
        o_extensible o = true ->
        (markRaw x ;; wrap ro sh (VObj x)) s
        = Some (Normal (VObj x), upd_heap (insert x (HObj (set_o_skip true o))) s))
  /\ (forall x o,
        heap s !! x = Some (HObj o) ->
        o_extensible o = false -> o_skip o = false ->
        exists exn, markRaw x s = Some (Throw exn, s)).
Proof.
  split_and!.
  - intros v Hv.
    assert (Hwrap : wrap ro sh v s = createReactiveObject v ro sh s).
    { destruct ro, sh; try done. unfold wrap, reactive.
      rewrite (bind_normal _ _ s false s); [ done |].
      unfold gets. by destruct v. }
    rewrite Hwrap. unfold createReactiveObject.
    rewrite (bind_normal _ _ s false s) by (unfold liftO; by destruct v).
    cbn [negb]. unfold warn. by rewrite (bind_normal _ _ s tt _) by done.
  - intros x o Hx Hcache Hun. rewrite (wrap_raw ro sh x o s Hx).
    by apply (createReactiveObject_unobservable ro sh x o).
  - intros x o Hx Hcache Hext.
    set (s1 := upd_heap (insert x (HObj (set_o_skip true o))) s).
    rewrite (bind_normal _ _ s (VObj x) s1).
    2:{ unfold markRaw. rewrite (bind_normal _ _ s o s)
          by (unfold get_obj, liftO; by rewrite Hx).
        rewrite Hext. cbn [orb]. by rewrite (bind_normal _ _ s tt s1) by done. }
    assert (Hx1 : heap s1 !! x = Some (HObj (set_o_skip true o))).
    { unfold s1. simpl_state. by rewrite lookup_insert_eq. }
    rewrite (wrap_raw ro sh x _ s1 Hx1).
    apply (createReactiveObject_unobservable ro sh x (set_o_skip true o)); try done.
    by left.
  - intros x o Hx Hext Hskip. eexists. unfold markRaw.
    rewrite (bind_normal _ _ s o s) by (unfold get_obj, liftO; by rewrite Hx).
    by rewrite Hext, Hskip.
Qed.
Lemma unobservable_returned_as_is_witness :
  reactive (VNum (Int 1)) s_one_object
  = Some (Normal (VNum (Int 1)),
          upd_console (fun l => l ++ [WarnNotReactive (VNum (Int 1))]) s_one_object)
  /\ readonly (VObj 0) s_closed_object = Some (Normal (VObj 0), s_closed_object)
  /\ (markRaw 0 ;; reactive (VObj 0)) s_one_object
     = Some (Normal (VObj 0),
             upd_heap (insert 0 (HObj (set_o_skip true empty_object))) s_one_object)
  /\ exists exn, markRaw 0 s_closed_object = Some (Throw exn, s_closed_object).
Proof.
  destruct (unobservable_returned_as_is false false s_one_object)
    as (Hprim & _ & Hmark & _).
  destruct (unobservable_returned_as_is true false s_closed_object)
    as (_ & Hraw & _ & Hthrow).
  split; [ exact (Hprim (VNum (Int 1)) I) |].
  split; [ exact (Hraw 0 _ eq_refl eq_refl (or_intror (or_introl eq_refl))) |].
  split; [ exact (Hmark 0 _ eq_refl eq_refl eq_refl) |].
  exact (Hthrow 0 _ eq_refl eq_refl eq_refl).
Defined.

(** ** Reading through a proxy *)

Section GetTrap.
Context `{Host}.




End GetTrap.







(** ** Writing an object through a proxy *)

Section WriteObject.
Context `{Host}.



End WriteObject.



(** ** Deleting a property *)



Section Delete.
Context `{Host}.



End Delete.




Section Roundtrip.
Context `{Host}.



End Roundtrip.



(** ** Refs *)

Lemma trackRefValue_inactive r s :
  activeEffect s = None -> trackRefValue r s = Some (Normal tt, s).
Proof. intros Ha. unfold trackRefValue. munfold. rewrite Ha. by destruct (shouldTrack s). Qed.

Section Refs.
Context `{Host}.

Lemma unref_ref a r s :
  heap s !! a = Some (HRef r) -> activeEffect s = None ->
  unref (VObj a) s = Some (Normal (r_value r), s).
Proof.
  intros Hr Ha. unfold unref.
  rewrite (bind_normal _ _ s true s) by (unfold liftO; by rewrite (isRef_of_ref s a r)).
  unfold read_value.
  rewrite (bind_normal _ _ s (HRef r) s) by (unfold liftO; by rewrite Hr).
  unfold ref_get_value.
  rewrite (bind_normal _ _ s tt s) by (by apply trackRefValue_inactive).
  by rewrite (bind_normal _ _ s r s) by (unfold get_ref, liftO; by rewrite Hr).
Qed.

Lemma unref_ref_value a r v s :
  heap s !! a = Some (HRef r) -> r_value r = v -> activeEffect s = None ->
  unref (VObj a) s = Some (Normal v, s).
Proof. intros Hr <- Ha. by apply unref_ref. Qed.


End Refs.



Section RefWrite.
Context `{Host}.

(** [set value] of a ref, for a primitive value that differs from the one
    held: the assignment, then the notification of the set of the ref. *)
Lemma ref_set_value_changed n a r v s :
  heap s !! a = Some (HRef r) -> primitive v ->
  hasChanged v (r_rawValue r) = true ->
  ref_set_value n a v s
  = (match r_dep r with
     | Some d => let* effs := get_dep d in triggerEffects n effs
     | None => ret tt
     end) (upd_heap (insert a (HRef (set_r_values v v r))) s).
Proof.
  intros Hr Hv Hch.
  destruct (primitive_facts s _ Hv) as (Hro & Hsh & _ & _).
  unfold ref_set_value.
  rewrite (bind_normal _ _ s r s) by (unfold get_ref, liftO; by rewrite Hr).
  rewrite (bind_normal _ _ s false s) by (unfold gets; by rewrite Hsh).
  rewrite (bind_normal _ _ s false s) by (unfold gets; by rewrite Hro).
  rewrite !orb_false_r.
  rewrite (bind_normal _ _ s v s).
  2:{ destruct (r_isShallow r); [ done |]. unfold liftO.
      by rewrite (primitive_toRaw s v Hv). }
  rewrite Hch.
  rewrite (bind_normal _ _ s v s).
  2:{ destruct (r_isShallow r); [ done |]. unfold toReactive.
      rewrite (bind_normal _ _ s false s); [ done |]. unfold liftO. by destruct v. }
  set (s1 := upd_heap (insert a (HRef (set_r_values v v r))) s).
  rewrite (bind_normal _ _ s tt s1).
  2:{ unfold upd_ref.
      by rewrite (bind_normal _ _ s r s) by (unfold get_ref, liftO; by rewrite Hr). }
  assert (Hr1 : heap s1 !! a = Some (HRef (set_r_values v v r))).
  { unfold s1. simpl_state. by rewrite lookup_insert_eq. }
  unfold triggerRefValue, triggerRefValue_with.
  rewrite (bind_normal _ _ s1 (VObj a) s1).
  2:{ unfold liftO. rewrite (toRaw_not_proxy s1 a); [ done |].
      unfold get_v_raw. by rewrite Hr1. }
  rewrite (bind_normal _ _ s1 (r_dep r) s1) by (unfold dep_of, liftO; by rewrite Hr1).
  by destruct (r_dep r).
Qed.

Lemma ref_set_value_same n a r v s :
  heap s !! a = Some (HRef r) -> primitive v ->
  hasChanged v (r_rawValue r) = false ->
  ref_set_value n a v s = Some (Normal tt, s).
Proof.
  intros Hr Hv Hch.
  destruct (primitive_facts s _ Hv) as (Hro & Hsh & _ & _).
  unfold ref_set_value.
  rewrite (bind_normal _ _ s r s) by (unfold get_ref, liftO; by rewrite Hr).
  rewrite (bind_normal _ _ s false s) by (unfold gets; by rewrite Hsh).
  rewrite (bind_normal _ _ s false s) by (unfold gets; by rewrite Hro).
  rewrite !orb_false_r.
  rewrite (bind_normal _ _ s v s).
  2:{ destruct (r_isShallow r); [ done |]. unfold liftO.
      by rewrite (primitive_toRaw s v Hv). }
  by rewrite Hch.
Qed.

End RefWrite.

(** X17.  Writing a primitive value to a ref, from outside any effect.  A
    value that is the same as the one held (NaN over NaN included) changes
    nothing and notifies no one.  A value that differs is stored, and the
    effects that have read the ref are run: when their functions return, the
    state the write leaves is the state after the assignment in which each
    of them has been run once, one after the other in the order of
    subscription; when the functions call nothing in turn, the log has one
    more entry for each.  After the assignment the value written is the
    value read back. *)
Theorem ref_write_notifies `{Host} n a r v effs s :
  host_keeps_shapes ->
  heap s !! a = Some (HRef r) -> primitive v ->
  members s (r_dep r) = Some effs ->
  activeEffect s = None ->
  (forall e, e ∈ effs -> plain_subscriber s e) ->
  (forall e, e ∈ effs -> fn_returns (fn_of s e)) ->
  let s1 := upd_heap (insert a (HRef (set_r_values v v r))) s in
  (hasChanged v (r_rawValue r) = false ->
     ref_set_value (S n) a v s = Some (Normal tt, s))
  /\ (hasChanged v (r_rawValue r) = true ->
      ref_set_value (S n) a v s = Some (Normal tt, ran_in_turn effs s1)
      /\ ((forall e, e ∈ effs -> fn_silent (fn_of s e)) ->
          calls (ran_in_turn effs s1) = calls s ++ calls_of s effs)
      /\ unref (VObj a) s1 = Some (Normal v, s1)).
Proof.
  intros Hhost Hr Hv Hmem Ha Hplain Hret s1. split.
  - intros Hch. by apply (ref_set_value_same (S n) a r).
  - intros Hch. rewrite (ref_set_value_changed (S n) a r v s) by done.
    fold s1.
    assert (Hr1 : heap s1 !! a = Some (HRef (set_r_values v v r))).
    { unfold s1. simpl_state. by rewrite lookup_insert_eq. }
    assert (Htr : triggerEffects (S n) effs s1 = Some (Normal tt, ran_in_turn effs s1)).
    { by apply triggerEffects_plain. }
    split_and!.
    + destruct (r_dep r) as [d|] eqn:Hd; simpl in Hmem.
      * by rewrite (bind_normal _ _ s1 effs s1)
          by (unfold get_dep, liftO, s1; simpl_state; by rewrite Hmem).
      * by injection Hmem as <-.
    + intros Hsilent. by rewrite (ran_in_turn_calls Hhost effs s1).
    + by apply (unref_ref_value a (set_r_values v v r)).
Qed.

Lemma ref_write_notifies_witness :
  @ref_set_value quiet_host 1 0 (VNum (Int 1)) s_ref_watched
  = Some (Normal tt, s_ref_watched)
  /\ @ref_set_value quiet_host 1 0 (VNum (Int 2)) s_ref_watched
     = Some (Normal tt,
             @ran_in_turn quiet_host [0]
               (upd_heap (insert 0 (HRef {| r_isShallow := false; r_dep := Some 0;
                                            r_rawValue := VNum (Int 2);
                                            r_value := VNum (Int 2) |}))
                  s_ref_watched))
  /\ calls (@ran_in_turn quiet_host [0]
               (upd_heap (insert 0 (HRef {| r_isShallow := false; r_dep := Some 0;
                                            r_rawValue := VNum (Int 2);
                                            r_value := VNum (Int 2) |}))
                  s_ref_watched)) = [(7, [])].
Proof.
  assert (Hplain : forall e, e ∈ [0] -> plain_subscriber s_ref_watched e).
  { intros e He. apply list_elem_of_singleton in He as ->.
    eexists. split_and!; reflexivity. }
  destruct (@ref_write_notifies quiet_host 0 0 _ (VNum (Int 1)) [0] s_ref_watched
              quiet_host_keeps_shapes eq_refl I eq_refl eq_refl Hplain
              (fun e _ args s => ex_intro _ VUndef eq_refl)) as [Hsame _].
  destruct (@ref_write_notifies quiet_host 0 0 _ (VNum (Int 2)) [0] s_ref_watched
              quiet_host_keeps_shapes eq_refl I eq_refl eq_refl Hplain
              (fun e _ args s => ex_intro _ VUndef eq_refl)) as [_ Hchanged].
  split; [ exact (Hsame eq_refl) |].
  destruct (Hchanged eq_refl) as (Hw & Hcalls & _).
  split; [ exact Hw |].
  exact (Hcalls (fun e _ => quiet_host_silent _)).
Defined.

Lemma links_ok_ext s s' :
  deps s' = deps s -> effects s' = effects s -> links_ok s -> links_ok s'.
Proof. intros Hd He [H1 H2]. split; rewrite Hd, He; done. Qed.

Lemma links_new_dep s :
  links_ok s -> links_ok (upd_deps (insert (fresh (dom (deps s))) []) s).
Proof.
  intros [H1 H2]. set (d := fresh (dom (deps s))).
  assert (Hfresh : deps s !! d = None) by apply not_elem_of_dom, is_fresh.
  split.
  - intros d0 c0 e0. simpl_state. intros Hd0 Hin.
    destruct (decide (d0 = d)) as [->|Hne].
    + rewrite lookup_insert_eq in Hd0. injection Hd0 as <-.
      by apply elem_of_nil in Hin.
    + rewrite lookup_insert_ne in Hd0 by done. eauto.
  - intros e0 E0 d0. simpl_state. intros HE0 Hin.
    destruct (H2 _ _ _ HE0 Hin) as (c0 & Hc0 & He0).
    rewrite lookup_insert_ne by congruence. eauto.
Qed.

(** Reading a ref whose set is known, inside an effect. *)
Lemma ref_read_tracked a r d content e E s :
  links_ok s -> activeEffect s = Some e -> shouldTrack s = true ->
  effects s !! e = Some E ->
  heap s !! a = Some (HRef r) -> r_dep r = Some d ->
  deps s !! d = Some content ->
  let s' := if bool_decide (e ∈ content) then s else subscribed e d s in
  exists content',
    ref_get_value a s = Some (Normal (r_value r), s')
    /\ heap s' !! a = Some (HRef r)
    /\ deps s' !! d = Some content' /\ e ∈ content'
    /\ links_ok s'
    /\ ref_get_value a s' = Some (Normal (r_value r), s').
Proof.
  intros Hl Ha Hs HE Hr Hd Hc s'.
  assert (Hread : forall s0 content0 E0,
    activeEffect s0 = Some e -> shouldTrack s0 = true ->
    effects s0 !! e = Some E0 -> heap s0 !! a = Some (HRef r) ->
    deps s0 !! d = Some content0 ->
    ref_get_value a s0
    = Some (Normal (r_value r),
            if bool_decide (e ∈ content0) then s0 else subscribed e d s0)).
  { intros s0 content0 E0 Ha0 Hs0 HE0 Hr0 Hc0. unfold ref_get_value.
    set (s0' := if bool_decide (e ∈ content0) then s0 else subscribed e d s0).
    assert (Hr0' : heap s0' !! a = Some (HRef r)).
    { unfold s0', subscribed. case_bool_decide; [ done |]. by rewrite Hc0, HE0. }
    rewrite (bind_normal _ _ s0 tt s0').
    - by rewrite (bind_normal _ _ s0' r s0') by (unfold get_ref, liftO; by rewrite Hr0').
    - unfold trackRefValue.
      rewrite (bind_normal _ _ s0 true s0) by (unfold gets; by rewrite Hs0).
      rewrite (bind_normal _ _ s0 (Some e) s0) by (unfold gets; by rewrite Ha0).
      rewrite (bind_normal _ _ s0 (VObj a) s0).
      2:{ unfold liftO. rewrite (toRaw_not_proxy s0 a); [ done |].
          unfold get_v_raw. by rewrite Hr0. }
      rewrite (bind_normal _ _ s0 (Some d) s0)
        by (unfold dep_of, liftO; by rewrite Hr0, Hd).
      by apply (trackEffects_exact d s0 e E0 content0). }
  rewrite (Hread s content E) by done. fold s'.
  subst s'. case_bool_decide as Hin.
  - exists content. split_and!; try done.
    rewrite (Hread s content E) by done. by rewrite bool_decide_true.
  - pose proof (links_subscribed e d s E content Hl HE Hc) as Hl'.
    unfold subscribed in *. rewrite Hc, HE in *.
    assert (He : e ∈ content ++ [e]).
    { apply elem_of_app. right. by apply list_elem_of_singleton. }
    exists (content ++ [e]). split_and!; simpl_state; try done.
    + by rewrite lookup_insert_eq.
    + erewrite Hread; simpl_state; try done.
      * rewrite bool_decide_true; [ done | exact He ].
      * by rewrite lookup_alter_eq, HE.
      * by rewrite lookup_insert_eq.
Qed.

(** X18.  Reading [ref.value] inside an effect, with tracking on, subscribes
    the effect to the ref: afterwards the ref has a dependency set, made now
    if it had none, and the set holds the effect.  The read answers with the
    value held, the two directions of every subscription still agree, and a
    second read changes nothing. *)
Theorem ref_read_subscribes a r e E s :
  links_ok s -> activeEffect s = Some e -> shouldTrack s = true ->
  effects s !! e = Some E ->
  heap s !! a = Some (HRef r) ->
  (forall d, r_dep r = Some d -> is_Some (deps s !! d)) ->
  exists s' r' d content,
    ref_get_value a s = Some (Normal (r_value r), s')
    /\ heap s' !! a = Some (HRef r') /\ r_dep r' = Some d
    /\ r_value r' = r_value r /\ r_rawValue r' = r_rawValue r
    /\ deps s' !! d = Some content /\ e ∈ content
    /\ links_ok s'
    /\ ref_get_value a s' = Some (Normal (r_value r), s').
Proof.
  intros Hl Ha Hs HE Hr Hdep.
  destruct (r_dep r) as [d|] eqn:Hd.
  - destruct (Hdep d eq_refl) as [content Hc].
    destruct (ref_read_tracked a r d content e E s Hl Ha Hs HE Hr Hd Hc)
      as (content' & Hget & Hr' & Hc' & Hin & Hl' & Hagain).
    eexists _, r, d, content'. split_and!; try done.
  - set (d := fresh (dom (deps s))).
    set (r1 := set_r_dep (Some d) r).
    set (s1 := upd_heap (insert a (HRef r1)) (upd_deps (insert d []) s)).
    assert (Hl1 : links_ok s1).
    { eapply links_ok_ext; [ | | exact (links_new_dep s Hl) ]; done. }
    assert (Hr1 : heap s1 !! a = Some (HRef r1)).
    { unfold s1. simpl_state. by rewrite lookup_insert_eq. }
    assert (Hc1 : deps s1 !! d = Some []).
    { unfold s1. simpl_state. by rewrite lookup_insert_eq. }
    destruct (ref_read_tracked a r1 d [] e E s1 Hl1 Ha Hs HE Hr1 eq_refl Hc1)
      as (content' & Hget & Hr' & Hc' & Hin & Hl' & Hagain).
    rewrite bool_decide_false in Hget, Hr', Hc', Hl', Hagain by apply not_elem_of_nil.
    eexists _, r1, d, content'. split_and!; try done.
    unfold ref_get_value.
    rewrite (bind_normal _ _ s tt (subscribed e d s1)).
    + by rewrite (bind_normal _ _ _ r1 _) by (unfold get_ref, liftO; by rewrite Hr').
    + unfold trackRefValue.
      rewrite (bind_normal _ _ s true s) by (unfold gets; by rewrite Hs).
      rewrite (bind_normal _ _ s (Some e) s) by (unfold gets; by rewrite Ha).
      rewrite (bind_normal _ _ s (VObj a) s).
      2:{ unfold liftO. rewrite (toRaw_not_proxy s a); [ done |].
          unfold get_v_raw. by rewrite Hr. }
      rewrite (bind_normal _ _ s None s)
        by (unfold dep_of, liftO; by rewrite Hr, Hd).
      rewrite (bind_normal _ _ s d (upd_deps (insert d []) s)) by done.
      rewrite (bind_normal _ _ _ tt s1).
      2:{ unfold set_dep_of.
          by rewrite (bind_normal _ _ _ (HRef r) _)
            by (unfold liftO; simpl_state; by rewrite Hr). }
      rewrite (trackEffects_exact d s1 e E []) by done.
      by rewrite bool_decide_false by apply not_elem_of_nil.
Qed.

Lemma ref_read_subscribes_witness :
  exists s' r' d content,
    ref_get_value 0 s_running_ref = Some (Normal (VNum (Int 1)), s')
    /\ heap s' !! 0 = Some (HRef r') /\ r_dep r' = Some d
    /\ deps s' !! d = Some content /\ 0 ∈ content
    /\ links_ok s'.
Proof.
  assert (Hl : links_ok s_running_ref).
  { split.
    - intros d content e Hd. unfold s_running_ref, s_running, initial_state in Hd.
      simpl_state. by rewrite lookup_empty in Hd.
    - intros e E d HE Hin. unfold s_running_ref, s_running, initial_state in HE.
      simpl_state.
      apply lookup_insert_Some in HE as [[_ <-]|[_ HE]].
      + by apply elem_of_nil in Hin.
      + by rewrite lookup_empty in HE. }
  destruct (ref_read_subscribes 0 _ 0 (plain_effect 7) s_running_ref Hl
              eq_refl eq_refl eq_refl eq_refl)
    as (s' & r' & d & content & Hget & Hr & Hd & _ & _ & Hc & Hin & Hl' & _).
  { intros d Hd. discriminate Hd. }
  exists s', r', d, content. by split_and!.
Defined.




(** ** Computed values, from creation to the first reads *)

(** The state [computed] leaves: a dirty record for the new value, and its
    effect. *)
Lemma computed_created arg isSSR s :
  scope_ok s ->
  let c := fresh (dom (heap s)) in
  let e := fresh (dom (effects s)) in
  let getter := match arg with GetterFn g => g | GetterSetter g _ => g end in
  let setter := match arg with
                | GetterFn _ => SetterWarn
                | GetterSetter _ (Some f) => SetterFn f
                | GetterSetter _ None => SetterUndefined
                end in
  let ro := match arg with GetterSetter _ (Some _) => false | _ => true end in
  exists s0,
    computed arg isSSR s = Some (Normal c, s0)
    /\ heap s0 !! c = Some (HComputed
         {| c_setter := setter; c_dep := None; c_isReadonly := ro; c_dirty := true;
            c_effect := e; c_cacheable := negb isSSR; c_value := VUndef |})
    /\ effects s0 !! e
       = Some {| e_fn := getter; e_scheduler := Some (SchedComputed c);
                 e_active := negb isSSR; e_deps := []; e_parent := None;
                 e_computed := Some c; e_allowRecurse := false; e_onStop := None |}
    /\ activeEffect s0 = activeEffect s /\ shouldTrack s0 = shouldTrack s
    /\ calls s0 = calls s /\ console s0 = console s
    /\ (forall a, a <> c -> heap s0 !! a = heap s !! a).
Proof.
  intros Hsc c e getter setter ro.
  assert (Hnew : exists s0,
    ComputedRefImpl_new getter setter ro isSSR s = Some (Normal c, s0)
    /\ heap s0 !! c = Some (HComputed
         {| c_setter := setter; c_dep := None; c_isReadonly := ro; c_dirty := true;
            c_effect := e; c_cacheable := negb isSSR; c_value := VUndef |})
    /\ effects s0 !! e
       = Some {| e_fn := getter; e_scheduler := Some (SchedComputed c);
                 e_active := negb isSSR; e_deps := []; e_parent := None;
                 e_computed := Some c; e_allowRecurse := false; e_onStop := None |}
    /\ activeEffect s0 = activeEffect s /\ shouldTrack s0 = shouldTrack s
    /\ calls s0 = calls s /\ console s0 = console s
    /\ (forall a, a <> c -> heap s0 !! a = heap s !! a)).
  { unfold ComputedRefImpl_new.
    rewrite (bind_normal _ _ s c s) by done.
    destruct (ReactiveEffect_new_at getter (Some (SchedComputed c)) s Hsc) as [g Hg].
    fold e in Hg. rewrite (bind_normal _ _ s e _) by exact Hg.
    erewrite bind_normal; [| eapply upd_effect_at; simpl_state; apply lookup_insert_eq ].
    erewrite bind_normal;
      [| eapply upd_effect_at; simpl_state; rewrite lookup_alter_eq, lookup_insert_eq;
         reflexivity ].
    erewrite bind_normal by reflexivity.
    eexists. split; [ reflexivity |]. simpl_state. split_and!; try done.
    - by rewrite lookup_insert_eq.
    - by rewrite !lookup_alter_eq, lookup_insert_eq.
    - intros a Hne. by rewrite lookup_insert_ne. }
  destruct Hnew as (s0 & Hc & Hrest). exists s0. split; [| exact Hrest ].
  unfold computed. subst getter setter ro. by destruct arg as [g|g [f|]].
Qed.

Section ComputedRead.
Context `{Host}.
Hypothesis Hhost : host_keeps_shapes.

(** The read of a dirty computed value, from outside any effect: one call of
    the getter, made with the effect of the computed value as the running
    one, and the value it returned stored in the record. *)
Lemma computed_read_dirty c C E s :
  heap s !! c = Some (HComputed C) -> c_dirty C = true ->
  effects s !! c_effect C = Some E -> e_active E = true ->
  activeEffect s = None ->
  fn_returns (e_fn E) -> fn_leaves_computed (e_fn E) ->
  let e := c_effect C in
  let s_pre := logged (e_fn E) []
                 (entered e (upd_heap (insert c (HComputed (set_c_dirty false C))) s)) in
  let r := apply_fn (e_fn E) [] s_pre in
  exists v,
    r.1 = Normal v
    /\ let s1 := upd_heap (insert c (HComputed (set_c_value v (set_c_dirty false C))))
                   (resumed e (shouldTrack s) r.2) in
       computed_get_value c s = Some (Normal v, s1)
       /\ activeEffect s1 = None.
Proof.
  intros Hc Hd HE Hact Ha Hret Hleave e s_pre r.
  subst e. set (e := c_effect C) in *.
  set (s2 := upd_heap (insert c (HComputed (set_c_dirty false C))) s) in *.
  destruct (Hret [] s_pre) as [v Hv]. fold r in Hv.
  assert (HEpre : effects s_pre !! e = Some (set_e_parent None E)).
  { unfold s_pre, s2, logged, entered. simpl_state.
    by rewrite lookup_alter_eq, HE, Ha. }
  destruct (Hhost (e_fn E) [] s_pre e _ HEpre) as (E3 & HE3 & ((_ & _ & Hp3 & _) & _)).
  fold r in HE3. simpl in Hp3.
  assert (Hc3 : heap r.2 !! c = Some (HComputed (set_c_dirty false C))).
  { apply (Hleave c [] s_pre (set_c_dirty false C)).
    unfold s_pre, s2, logged, entered. simpl_state. by rewrite lookup_insert_eq. }
  assert (Hrun : run e s2 = Some (Normal v, resumed e (shouldTrack s) r.2)).
  { rewrite (run_off_stack e E [] s2 HE Hact Ha ltac:(apply not_elem_of_nil)).
    - fold s_pre r. by rewrite Hv.
    - fold s_pre r. by rewrite HE3. }
  exists v. split; [ done |]. intros s1. split.
  - unfold computed_get_value.
    rewrite (bind_normal _ _ s tt s) by (by apply trackRefValue_inactive).
    rewrite (bind_normal _ _ s C s) by (unfold get_computed, liftO; by rewrite Hc).
    rewrite Hd. cbn [orb].
    rewrite (bind_normal _ _ s tt s1).
    2:{ rewrite (bind_normal _ _ s tt s2).
        - rewrite (bind_normal _ _ s2 (set_c_dirty false C) s2)
            by (unfold get_computed, liftO, s2; simpl_state; by rewrite lookup_insert_eq).
          cbn [c_effect set_c_dirty]. fold e.
          rewrite (bind_normal _ _ s2 v _) by exact Hrun.
          unfold upd_computed.
          rewrite (bind_normal _ _ _ (set_c_dirty false C) _)
            by (unfold get_computed, liftO, resumed; simpl_state; by rewrite Hc3).
          reflexivity.
        - unfold upd_computed.
          by rewrite (bind_normal _ _ s C s)
            by (unfold get_computed, liftO; by rewrite Hc). }
    rewrite (bind_normal _ _ s1 (set_c_value v (set_c_dirty false C)) s1)
      by (unfold get_computed, liftO, s1; simpl_state; by rewrite lookup_insert_eq).
    reflexivity.
  - unfold s1, resumed. simpl_state. by rewrite HE3, <- Hp3.
Qed.

(** The read of a computed value that is not dirty, from outside any effect. *)
Lemma computed_read_clean c C s :
  heap s !! c = Some (HComputed C) ->
  c_dirty C = false -> c_cacheable C = true -> activeEffect s = None ->
  computed_get_value c s = Some (Normal (c_value C), s).
Proof.
  intros Hc Hd Hca Ha. unfold computed_get_value.
  rewrite (bind_normal _ _ s tt s) by (by apply trackRefValue_inactive).
  rewrite (bind_normal _ _ s C s) by (unfold get_computed, liftO; by rewrite Hc).
  rewrite Hd, Hca. cbn [orb negb].
  rewrite (bind_normal _ _ s tt s) by done.
  by rewrite (bind_normal _ _ s C s) by (unfold get_computed, liftO; by rewrite Hc).
Qed.

End ComputedRead.

(** X20.  A computed value is not evaluated when it is made: [computed]
    calls nothing and leaves a dirty record.  The first read, from outside
    any effect, makes one call of the getter, in the state where the record
    is no longer dirty, the effect of the computed value is the running one
    and tracking is on; it answers with what that call returned and leaves
    the state the call has left, with the value stored and no effect
    running.  The second read answers with the same value and changes
    nothing.  When the getter calls nothing in turn, the log has one entry
    more after the two reads. *)
Theorem computed_first_read `{Host} g s :
  host_keeps_shapes -> fn_returns g -> fn_leaves_computed g ->
  scope_ok s -> activeEffect s = None ->
  let c := fresh (dom (heap s)) in
  let e := fresh (dom (effects s)) in
  exists s0 C,
    computed (GetterFn g) false s = Some (Normal c, s0)
    /\ calls s0 = calls s
    /\ heap s0 !! c = Some (HComputed C) /\ c_effect C = e /\ c_dirty C = true
    /\ let s_pre := logged g []
                      (entered e (upd_heap (insert c (HComputed (set_c_dirty false C))) s0)) in
       let r := apply_fn g [] s_pre in
       activeEffect s_pre = Some e /\ shouldTrack s_pre = true
       /\ calls s_pre = calls s ++ [(g, [])]
       /\ exists v,
            r.1 = Normal v
            /\ let s1 := upd_heap (insert c (HComputed (set_c_value v (set_c_dirty false C))))
                           (resumed e (shouldTrack s0) r.2) in
               computed_get_value c s0 = Some (Normal v, s1)
               /\ computed_get_value c s1 = Some (Normal v, s1)
               /\ (fn_silent g -> calls s1 = calls s ++ [(g, [])]).
Proof.
  intros Hhost Hret Hleave Hsc Ha c e.
  destruct (computed_created (GetterFn g) false s Hsc)
    as (s0 & Hnew & Hc0 & He0 & Ha0 & _ & Hcalls0 & _ & _).
  cbv zeta in Hnew, Hc0, He0. cbn [negb] in Hc0, He0. fold c e in Hnew, Hc0, He0.
  eexists s0, _.
  split; [ exact Hnew |]. split; [ exact Hcalls0 |]. split; [ exact Hc0 |].
  split; [ done |]. split; [ done |].
  intros s_pre r.
  destruct (computed_read_dirty Hhost c _ _ s0 Hc0 eq_refl He0 eq_refl
              ltac:(congruence) Hret Hleave) as (v & Hv & Hget & Ha1).
  cbn [e_fn c_effect] in Hv, Hget, Ha1. fold s_pre r in Hv, Hget, Ha1.
  split; [ done |]. split; [ done |]. split.
  - unfold s_pre, logged, entered. simpl_state. by rewrite Hcalls0.
  - exists v. split; [ exact Hv |]. intros s1.
    split; [| split ].
    + exact Hget.
    + apply (computed_read_clean c (set_c_value v (set_c_dirty false
               {| c_setter := SetterWarn; c_dep := None; c_isReadonly := true;
                  c_dirty := true; c_effect := e; c_cacheable := true;
                  c_value := VUndef |}))); try done.
      unfold s1. simpl_state. by rewrite lookup_insert_eq.
    + intros Hsilent. unfold s1, resumed. simpl_state.
      unfold r. rewrite (Hsilent [] s_pre).
      unfold s_pre, logged, entered. simpl_state. by rewrite Hcalls0.
Qed.

Lemma computed_first_read_witness :
  exists s0 s1,
    computed (GetterFn 3) false initial_state = Some (Normal 0, s0)
    /\ calls s0 = []
    /\ @computed_get_value quiet_host 0 s0 = Some (Normal VUndef, s1)
    /\ @computed_get_value quiet_host 0 s1 = Some (Normal VUndef, s1)
    /\ calls s1 = [(3, [])].
Proof.
  destruct (@computed_first_read quiet_host 3 initial_state quiet_host_keeps_shapes
              (fun args s => ex_intro _ VUndef eq_refl)
              (fun c args s C HC => HC) I eq_refl)
    as (s0 & C & Hnew & Hc0 & _ & _ & _ & _ & _ & _ & v & Hv & Hget & Hget2 & Hcalls).
  injection Hv as <-.
  eexists s0, _. split_and!.
  - exact Hnew.
  - exact Hc0.
  - exact Hget.
  - exact Hget2.
  - exact (Hcalls (quiet_host_silent 3)).
Defined.

(** ** Writing to a computed value *)

(** X21.  A write to a computed value never runs the getter.  Made from a
    bare getter the value is read-only: the write reports a warning and
    changes nothing else.  Made from [get] and [set] it is not read-only: the
    write is one call of [set], with the new value as its argument; it
    leaves the state that call has left, and throws what the call throws.
    When [set] calls nothing in turn, the log has that one entry more. *)
Theorem computed_write_dispatch `{Host} g f isSSR v s :
  scope_ok s ->
  (exists c s0,
     computed (GetterFn g) isSSR s = Some (Normal c, s0)
     /\ isReadonly s0 (VObj c) = true
     /\ computed_set_value c v s0
        = Some (Normal tt, upd_console (fun l => l ++ [WarnComputedReadonly]) s0))
  /\ (exists c s0,
        computed (GetterSetter g (Some f)) isSSR s = Some (Normal c, s0)
        /\ isReadonly s0 (VObj c) = false
        /\ calls s0 = calls s
        /\ computed_set_value c v s0 = (invoke f [v] ;; ret tt) s0
        /\ let r := apply_fn f [v] (logged f [v] s0) in
           computed_set_value c v s0
           = Some (match r.1 with Normal _ => Normal tt | Throw exn => Throw exn end,
                   r.2)
           /\ calls (logged f [v] s0) = calls s ++ [(f, [v])]
           /\ (fn_silent f -> calls r.2 = calls s ++ [(f, [v])])).
Proof.
  intros Hsc. split.
  - destruct (computed_created (GetterFn g) isSSR s Hsc) as (s0 & Hnew & Hc0 & _).
    cbv zeta in *. eexists _, s0. split; [ exact Hnew |]. split.
    + unfold isReadonly. by rewrite Hc0.
    + unfold computed_set_value.
      by rewrite (bind_normal _ _ s0 _ s0) by (unfold get_computed, liftO; by rewrite Hc0).
  - destruct (computed_created (GetterSetter g (Some f)) isSSR s Hsc)
      as (s0 & Hnew & Hc0 & _ & _ & _ & Hcalls & _).
    cbv zeta in Hnew, Hc0. eexists _, s0. split; [ exact Hnew |].
    assert (Hset : computed_set_value (fresh (dom (heap s))) v s0
                   = (invoke f [v] ;; ret tt) s0).
    { unfold computed_set_value.
      by rewrite (bind_normal _ _ s0 _ s0) by (unfold get_computed, liftO; by rewrite Hc0). }
    split; [ unfold isReadonly; by rewrite Hc0 |].
    split; [ done |]. split; [ done |].
    intros r. split; [| split ].
    + rewrite Hset. unfold bind, invoke. fold r.
      by destruct r as [[x|exn] s1].
    + unfold logged. simpl_state. by rewrite Hcalls.
    + intros Hsilent. unfold r. rewrite (Hsilent [v] (logged f [v] s0)).
      unfold logged. simpl_state. by rewrite Hcalls.
Qed.

Lemma computed_write_dispatch_witness :
  exists c s0 s1,
    computed (GetterSetter 3 (Some 4)) false initial_state = Some (Normal c, s0)
    /\ isReadonly s0 (VObj c) = false
    /\ @computed_set_value quiet_host c (VNum (Int 5)) s0 = Some (Normal tt, s1)
    /\ calls s1 = [(4, [VNum (Int 5)])].
Proof.
  destruct (@computed_write_dispatch quiet_host 3 4 false (VNum (Int 5)) initial_state I)
    as [_ (c & s0 & Hnew & Hro & Hc0 & _ & Hset & _ & Hcalls)].
  exists c, s0. eexists. split; [ exact Hnew |]. split; [ exact Hro |].
  split; [ exact Hset |]. exact (Hcalls (quiet_host_silent 4)).
Defined.

(** ** The job queue *)

Lemma findInsertionIndex_loop_total q id fuel start end_ :
  (Z.of_nat (length q) < 2 ^ 31)%Z ->
  start <= end_ -> end_ <= length q -> end_ - start <= fuel ->
  exists i, findInsertionIndex_loop fuel q id start end_ = Some i
            /\ start <= i <= end_.
Proof.
  intros Hlen. revert start end_.
  induction fuel as [|fuel IH]; intros start end_ Hse Hel Hfuel.
  - assert (start = end_) by lia. subst. exists end_. simpl.
    rewrite (proj2 (Nat.ltb_ge _ _)) by lia. split; [ done | lia ].
  - simpl. destruct (start <? end_) eqn:Hlt.
    + apply Nat.ltb_lt in Hlt.
      assert (Hmid : ushr1 (start + end_) = (start + end_) / 2).
      { apply ushr1_half. lia. }
      rewrite Hmid.
      assert (Hlo : start <= (start + end_) / 2).
      { apply Nat.div_le_lower_bound; lia. }
      assert (Hhi : (start + end_) / 2 < end_).
      { apply Nat.Div0.div_lt_upper_bound; lia. }
      destruct (lookup_lt_is_Some_2 q ((start + end_) / 2)) as [j Hj]; [ lia |].
      rewrite Hj. destruct (number_lt (getId j) (Int id)).
      * destruct (IH ((start + end_) / 2 + 1) end_) as (i & Hi & Hr); try lia.
        exists i. split; [ done | lia ].
      * destruct (IH start ((start + end_) / 2)) as (i & Hi & Hr); try lia.
        exists i. split; [ done | lia ].
    + apply Nat.ltb_ge in Hlt. exists start. split; [ done | lia ].
Qed.

Lemma splice_in_Permutation i j q : splice_in i j q ≡ₚ j :: q.
Proof.
  unfold splice_in. rewrite <- Permutation_middle.
  by rewrite take_drop.
Qed.

Lemma includes_iff q j : includes q j 0 = true <-> j_ref j ∈ job_refs q.
Proof.
  split; [| apply includes_present ].
  unfold includes, job_refs. rewrite drop_0. intros Hex.
  apply existsb_exists in Hex as (x & Hx & Heq).
  apply Nat.eqb_eq in Heq. rewrite <- Heq.
  apply list_elem_of_fmap. exists x. split; [ done |]. by apply list_elem_of_In.
Qed.

(** X22.  While no flush is in progress, [queueJob] returns for every queue
    shorter than [2^31], and it never makes a duplicate: a job that is in the
    queue leaves everything as it was; a job that is not is inserted once,
    every other job stays, and a flush is requested unless one is pending
    already. *)
Theorem queueJob_inserts_once s j :
  idle s -> currentPreFlushParentJob s = None ->
  (Z.of_nat (length (queue s)) < 2 ^ 31)%Z ->
  NoDup (job_refs (queue s)) ->
  exists s',
    queueJob j s = Some s'
    /\ idle s' /\ NoDup (job_refs (queue s'))
    /\ (j_ref j ∈ job_refs (queue s) -> s' = s)
    /\ (j_ref j ∉ job_refs (queue s) ->
        queue s' ≡ₚ j :: queue s
        /\ isFlushPending s' = true
        /\ flushRequests s'
           = if isFlushPending s then flushRequests s else S (flushRequests s)).
Proof.
  intros Hidle Hcur Hlen Hnd.
  assert (Htotal : exists s', queueJob j s = Some s').
  { unfold queueJob. destruct (_ && _); [| by eexists ].
    destruct (j_id j) as [id|]; [| by eexists ].
    unfold findInsertionIndex. destruct Hidle as [_ ->]. cbn [Nat.add].
    destruct (decide (1 <= length (queue s))) as [Hpos|Hpos].
    - destruct (findInsertionIndex_loop_total (queue s) id (length (queue s)) 1
                  (length (queue s))) as (i & -> & _); try lia; try done.
      by eexists.
    - destruct (queue s) as [|x q]; [| simpl in Hpos; lia ]. by eexists. }
  destruct Htotal as [s' Hq]. exists s'. split; [ exact Hq |].
  destruct (queueJob_NoDup s j s' Hidle Hnd Hq) as (Hidle' & Hnd' & Hsame).
  split_and!; try done.
  intros Hnin. revert Hq. unfold queueJob.
  destruct Hidle as [Hf Hi]. rewrite Hf, Hi, Hcur. cbn [andb].
  assert (Hinc : includes (queue s) j 0 = false).
  { destruct (includes (queue s) j 0) eqn:Hinc; [| done ].
    by apply includes_iff in Hinc. }
  rewrite Hinc. rewrite orb_true_r. rewrite bool_decide_false by done. cbn [negb andb].
  assert (Hflush : forall q,
    isFlushPending (queueFlush (set_queue q s)) = true
    /\ flushRequests (queueFlush (set_queue q s))
       = if isFlushPending s then flushRequests s else S (flushRequests s)).
  { intros q. unfold queueFlush. cbn [isFlushing isFlushPending set_queue].
    rewrite Hf. cbn [negb andb]. by destruct (isFlushPending s) eqn:Hp. }
  destruct (j_id j) as [id|].
  - destruct (findInsertionIndex id s) as [i|]; [| done ]. intros [= <-].
    rewrite queue_queueFlush. cbn [queue set_queue].
    split; [ apply splice_in_Permutation | apply Hflush ].
  - intros [= <-]. rewrite queue_queueFlush. cbn [queue set_queue].
    split; [| apply Hflush ]. by rewrite Permutation_app_comm.
Qed.

Lemma queueJob_inserts_once_witness :
  exists s1 s2,
    queueJob job_five sched_init = Some s1
    /\ queueJob job_five s1 = Some s1
    /\ queueJob job_three s1 = Some s2
    /\ queue s2 ≡ₚ [job_three; job_five]
    /\ flushRequests s2 = 1.
Proof.
  assert (Hidle : idle sched_init) by done.
  destruct (queueJob_inserts_once sched_init job_five Hidle eq_refl)
    as (s1 & Hq1 & Hidle1 & Hnd1 & _ & Hnew1).
  { done. }
  { apply NoDup_nil_2. }
  assert (Hs1 : s1 = queueFlush (set_queue [job_five] sched_init)).
  { revert Hq1. vm_compute. by intros [= <-]. }
  destruct (queueJob_inserts_once s1 job_five Hidle1) as (s1' & Hq1' & _ & _ & Hsame & _);
    try done.
  { by rewrite Hs1. }
  { by rewrite Hs1. }
  destruct (queueJob_inserts_once s1 job_three Hidle1) as (s2 & Hq2 & _ & _ & _ & Hnew2);
    try done.
  { by rewrite Hs1. }
  { by rewrite Hs1. }
  exists s1, s2. split; [ exact Hq1 |]. split.
  - rewrite Hq1'. f_equal. apply Hsame. rewrite Hs1. vm_compute. by left.
  - split; [ exact Hq2 |].
    destruct Hnew2 as (Hperm & _ & Hreq).
    { rewrite Hs1. vm_compute. intros Hin. apply list_elem_of_singleton in Hin. done. }
    split.
    + rewrite Hperm. by rewrite Hs1.
    + rewrite Hreq. by rewrite Hs1.
Defined.

(** X23.  While no flush is in progress, [queueJob] keeps the queue in
    ascending order of id from index 1 on, a job without id counting as the
    largest; a new job without id goes to the end.  The job at index 0 is
    never displaced: no job is inserted before it, whatever the ids. *)
Theorem queueJob_sorted_from_one s j :
  idle s -> (Z.of_nat (length (queue s)) < 2 ^ 31)%Z ->
  ascending_from 1 (queue s) ->
  exists s',
    queueJob j s = Some s'
    /\ ascending_from 1 (queue s')
    /\ (forall x, queue s !! 0 = Some x -> queue s' !! 0 = Some x)
    /\ (j_id j = None -> queue s' = queue s \/ queue s' = queue s ++ [j]).
Proof.
  intros Hidle Hlen Hasc.
  destruct (queueJob_keeps_tail_order s j Hidle Hlen Hasc) as (s' & Hq & Hasc').
  exists s'. split; [ exact Hq |]. split; [ exact Hasc' |].
  revert Hq. unfold queueJob. destruct (_ && _); [| intros [= <-]; auto ].
  destruct (j_id j) as [id|].
  - unfold findInsertionIndex. destruct Hidle as [_ Hi]. rewrite Hi. cbn [Nat.add].
    destruct (queue s) as [|x q] eqn:Hqs.
    { simpl. intros [= <-]. split; [ done | done ]. }
    rewrite <- Hqs in *.
    assert (Hpos : 1 <= length (queue s)) by (rewrite Hqs; simpl; lia).
    destruct (findInsertionIndex_loop_total (queue s) id (length (queue s)) 1
                (length (queue s))) as (i & Hloop & Hr); try lia; try done.
    rewrite Hloop. intros [= <-]. rewrite queue_queueFlush. cbn [queue set_queue].
    split; [| done ]. intros y Hy.
    rewrite splice_in_lookup by lia. case_decide; [ done | lia ].
  - intros [= <-]. rewrite queue_queueFlush. cbn [queue set_queue]. split.
    + intros y Hy. rewrite lookup_app_l; [ done |]. by apply lookup_lt_Some in Hy.
    + auto.
Qed.

Lemma queueJob_sorted_from_one_witness :
  exists s1 s2,
    queueJob job_five sched_init = Some s1
    /\ queueJob job_three s1 = Some s2
    /\ ascending_from 1 (queue s2)
    /\ queue s2 !! 0 = Some job_five.
Proof.
  assert (Hidle : idle sched_init) by done.
  assert (Hasc0 : ascending_from 1 (queue sched_init)).
  { intros a b ja jb _ _ Ha. by destruct a. }
  destruct (queueJob_sorted_from_one sched_init job_five Hidle ltac:(done) Hasc0)
    as (s1 & Hq1 & Hasc1 & _).
  assert (Hs1 : s1 = queueFlush (set_queue [job_five] sched_init)).
  { revert Hq1. vm_compute. by intros [= <-]. }
  assert (Hidle1 : idle s1) by (by rewrite Hs1).
  destruct (queueJob_sorted_from_one s1 job_three Hidle1) as (s2 & Hq2 & Hasc2 & Hhead & _).
  { by rewrite Hs1. }
  { exact Hasc1. }
  exists s1, s2. split_and!; try done.
  apply Hhead. by rewrite Hs1.
Defined.

(** ** Flushing the queue *)

Lemma id_lt_false_ge a b :
  number_lt (getId a) (getId b) = false -> number_ge (getId a) (getId b) = true.
Proof.
  destruct (getId_cases a) as [[x ->]| ->], (getId_cases b) as [[y ->]| ->];
    simpl; try done.
  by intros ->%negb_false_iff.
Qed.

Lemma id_lt_true_le a b :
  number_lt (getId a) (getId b) = true -> number_ge (getId b) (getId a) = true.
Proof.
  destruct (getId_cases a) as [[x ->]| ->], (getId_cases b) as [[y ->]| ->];
    simpl; try done.
  intros Hlt%negb_true_iff. apply Z.leb_gt in Hlt. apply Z.leb_le. lia.
Qed.

Lemma id_lt_irrefl_eq a b :
  getId a = getId b -> number_lt (getId a) (getId b) = false.
Proof.
  intros ->. destruct (getId_cases b) as [[y ->]| ->]; simpl; [| done ].
  apply negb_false_iff. by apply Z.leb_le.
Qed.

Lemma insert_by_id_Permutation j l : insert_by_id j l ≡ₚ j :: l.
Proof.
  induction l as [|x l IH]; simpl; [ done |].
  destruct (number_lt (getId x) (getId j)); [| done ].
  rewrite IH. apply perm_swap.
Qed.

Lemma sort_by_id_Permutation l : sort_by_id l ≡ₚ l.
Proof.
  induction l as [|x l IH]; simpl; [ done |].
  by rewrite insert_by_id_Permutation, IH.
Qed.

Lemma ascending_cons a l :
  ascending (a :: l) = true <->
  (forall b, head l = Some b -> number_ge (getId b) (getId a) = true)
  /\ ascending l = true.
Proof.
  destruct l as [|b l]; simpl.
  - split; [ intros _; split; [ intros b [=] | done ] | done ].
  - rewrite andb_true_iff. split.
    + intros [Hab Hl]. split; [ intros b' [= <-]; done | done ].
    + intros [Hab Hl]. split; [ by apply Hab | done ].
Qed.

Lemma insert_by_id_ascending j l :
  ascending l = true -> ascending (insert_by_id j l) = true.
Proof.
  induction l as [|x l IH]; [ done |]. intros Hasc.
  cbn [insert_by_id]. destruct (number_lt (getId x) (getId j)) eqn:Hlt.
  - apply ascending_cons in Hasc as [Hhead Hl].
    apply ascending_cons. split; [| by apply IH ].
    intros b Hb. destruct l as [|y l']; simpl in Hb.
    + injection Hb as <-. by apply id_lt_true_le.
    + destruct (number_lt (getId y) (getId j)); injection Hb as <-.
      * by apply Hhead.
      * by apply id_lt_true_le.
  - apply ascending_cons. split; [| done ].
    intros b [= <-]. by apply id_lt_false_ge.
Qed.

Lemma sort_by_id_ascending l : ascending (sort_by_id l) = true.
Proof.
  induction l as [|x l IH]; [ done |]. simpl. by apply insert_by_id_ascending.
Qed.

(** The sort is stable: the jobs of one id keep their order. *)
Lemma sort_by_id_stable k l :
  filter (fun j => getId j = k) (sort_by_id l) = filter (fun j => getId j = k) l.
Proof.
  induction l as [|x l IH]; [ done |]. simpl.
  rewrite (filter_cons _ x l), <- IH. clear IH.
  generalize (sort_by_id l) as s. intros s.
  induction s as [|y s IHs]; simpl.
  - rewrite filter_cons. by case_decide.
  - destruct (number_lt (getId y) (getId x)) eqn:Hlt.
    + rewrite !(filter_cons _ y). rewrite IHs.
      case_decide as Hy; [| done ].
      case_decide as Hx; [| done ].
      rewrite id_lt_irrefl_eq in Hlt by congruence. done.
    + rewrite (filter_cons _ x (y :: s)). done.
Qed.

Lemma flush_state_eta fs :
  set_ran (ran fs) (upd_sched (fun s => set_queue (queue s) s) fs) = fs.
Proof. destruct fs as [s p c i a r e]. by destruct s. Qed.

Section Flush.
Context `{Jobs} (outcome : nat -> completion unit).
Hypothesis Hconst : constant_jobs outcome.

Lemma run_job_constant j fs :
  run_job j fs = (outcome (j_ref j), set_ran (ran fs ++ [j_ref j]) fs).
Proof. unfold run_job. by rewrite Hconst. Qed.

(** The first pass, when the jobs marked [pre] return. *)
Lemma pre_loop_normal rest : forall prefix fuel fs,
  queue (fs_sched fs) = prefix ++ rest ->
  (forall j, j ∈ rest -> j_pre j = true -> outcome (j_ref j) = Normal tt) ->
  length rest <= fuel ->
  flushPreFlushCbs_loop fuel (length prefix) fs
  = Some (Normal tt,
          set_ran (ran fs ++ map j_ref (filter (fun j => j_pre j = true) rest))
            (upd_sched (fun s => set_queue
               (prefix ++ filter (fun j => j_pre j <> true) rest) s) fs)).
Proof.
  induction rest as [|x rest IH]; intros prefix fuel fs Hq Hok Hfuel.
  - destruct fuel; cbn [flushPreFlushCbs_loop];
      rewrite Hq, lookup_ge_None_2 by (rewrite length_app; simpl; lia);
      rewrite filter_nil, app_nil_r; rewrite ?app_nil_r in Hq;
      rewrite <- Hq; simpl; rewrite app_nil_r; by rewrite flush_state_eta.
  - destruct fuel as [|fuel]; [ simpl in Hfuel; lia |].
    cbn [flushPreFlushCbs_loop]. rewrite Hq.
    rewrite (list_lookup_middle prefix rest x (length prefix)) by done.
    rewrite !filter_cons. destruct (j_pre x) eqn:Hpre.
    + rewrite run_job_constant. rewrite (Hok x) by (done || by left).
      rewrite (decide_True (P := true = true)) by done.
      rewrite (decide_False (P := true <> true)) by (intros Hne; by apply Hne).
      rewrite (IH prefix fuel).
      * cbn [ran set_ran upd_sched fs_sched map]. do 2 f_equal.
        rewrite <- app_assoc. reflexivity.
      * cbn [fs_sched set_ran upd_sched queue set_queue]. rewrite Hq.
        by rewrite delete_middle.
      * intros j Hj. apply Hok. by right.
      * simpl in Hfuel. lia.
    + rewrite (decide_False (P := false = true)) by done.
      rewrite (decide_True (P := false <> true)) by done.
      replace (length prefix + 1) with (length (prefix ++ [x]))
        by (rewrite length_app; simpl; lia).
      rewrite (IH (prefix ++ [x]) fuel).
      * rewrite <- app_assoc. reflexivity.
      * by rewrite <- app_assoc.
      * intros j Hj. apply Hok. by right.
      * simpl in Hfuel. lia.
Qed.

(** The main pass. *)
Lemma main_loop todo : forall finished fuel fs,
  queue (fs_sched fs) = finished ++ todo ->
  flushIndex (fs_sched fs) = length finished ->
  length todo <= fuel ->
  let called := filter (fun j => j_ref j ∉ inactive fs) todo in
  flushJobs_loop fuel fs
  = Some (set_reported (reported fs ++ flush_errors outcome called)
            (set_ran (ran fs ++ map j_ref called)
              (upd_sched (set_flushIndex (length finished + length todo)) fs))).
Proof.
  induction todo as [|x todo IH]; intros finished fuel fs Hq Hi Hfuel called.
  - subst called. rewrite filter_nil. simpl. rewrite !app_nil_r, Nat.add_0_r.
    destruct fuel; cbn [flushJobs_loop];
      rewrite Hq, Hi, lookup_ge_None_2 by (rewrite length_app; simpl; lia);
      rewrite <- Hi; destruct fs as [s p c i a r e]; by destruct s.
  - destruct fuel as [|fuel]; [ simpl in Hfuel; lia |].
    cbn [flushJobs_loop]. rewrite Hq, Hi.
    rewrite (list_lookup_middle finished todo x (length finished)) by done.
    subst called. rewrite filter_cons.
    assert (Hlen : length finished + length (x :: todo)
                   = length (finished ++ [x]) + length todo).
    { rewrite length_app. simpl. lia. }
    rewrite Hlen. case_bool_decide as Hin.
    + rewrite decide_False by (intros Hn; by apply Hn).
      erewrite (IH (finished ++ [x]) fuel).
      * reflexivity.
      * cbn [fs_sched upd_sched queue set_flushIndex]. by rewrite Hq, <- app_assoc.
      * cbn [fs_sched upd_sched flushIndex set_flushIndex]. rewrite Hi, length_app.
        simpl. lia.
      * simpl in Hfuel. lia.
    + rewrite decide_True by done.
      unfold callWithErrorHandling. rewrite run_job_constant.
      destruct (outcome (j_ref x)) as [[]|err] eqn:Hout.
      * erewrite (IH (finished ++ [x]) fuel).
        -- cbn [map flush_errors flat_map]. rewrite Hout.
           cbn [app inactive ran reported set_ran upd_sched fs_sched set_reported].
           unfold flush_errors. rewrite <- !app_assoc. reflexivity.
        -- cbn [fs_sched upd_sched set_ran queue set_flushIndex].
           by rewrite Hq, <- app_assoc.
        -- cbn [fs_sched upd_sched set_ran flushIndex set_flushIndex].
           rewrite Hi, length_app. simpl. lia.
        -- simpl in Hfuel. lia.
      * erewrite (IH (finished ++ [x]) fuel).
        -- cbn [map flush_errors flat_map]. rewrite Hout.
           cbn [app inactive ran reported set_ran upd_sched fs_sched set_reported
                handleError].
           unfold flush_errors. rewrite <- !app_assoc. reflexivity.
        -- cbn [fs_sched upd_sched set_ran queue set_flushIndex handleError set_reported].
           by rewrite Hq, <- app_assoc.
        -- cbn [fs_sched upd_sched set_ran flushIndex set_flushIndex handleError
                set_reported].
           rewrite Hi, length_app. simpl. lia.
        -- simpl in Hfuel. lia.
Qed.

End Flush.

Lemma flushPostFlushCbs_nothing `{Jobs} fuel fs :
  pendingPostFlushCbs fs = [] -> flushPostFlushCbs fuel fs = Some (Normal tt, fs).
Proof. intros Hp. unfold flushPostFlushCbs. by rewrite Hp. Qed.

(** X24.  [flushJobs], for jobs that leave the scheduler alone, with nothing
    waiting for the end of the flush.  The jobs marked [pre], from index 1
    on, are called first, in the order of the queue.  The other jobs are
    sorted by id, jobs of one id keeping their order and jobs without id
    coming last, and each is called once in that order unless its [active] is
    [false]; what a job throws is reported and the next job is called.  The
    flush ends with the queue empty and no flush in progress.  The order in
    which the jobs were queued does not matter. *)
Theorem flushJobs_runs_sorted `{Jobs} outcome fuel fs :
  constant_jobs outcome ->
  idle (fs_sched fs) -> pendingPostFlushCbs fs = [] ->
  (forall j, j ∈ pre_jobs (queue (fs_sched fs)) -> outcome (j_ref j) = Normal tt) ->
  length (queue (fs_sched fs)) < fuel ->
  let q := queue (fs_sched fs) in
  let sorted := sort_by_id (main_jobs q) in
  let called := filter (fun j => j_ref j ∉ inactive fs) sorted in
  exists fs',
    flushJobs fuel fs = Some (Normal tt, fs')
    /\ ran fs' = ran fs ++ map j_ref (pre_jobs q) ++ map j_ref called
    /\ reported fs' = reported fs ++ flush_errors outcome called
    /\ queue (fs_sched fs') = [] /\ idle (fs_sched fs')
    /\ isFlushPending (fs_sched fs') = false
    /\ ascending sorted = true /\ sorted ≡ₚ main_jobs q
    /\ forall k, filter (fun j => getId j = k) sorted
                 = filter (fun j => getId j = k) (main_jobs q).
Proof.
  intros Hconst [Hf Hi] Hpend Hpre Hfuel q sorted called.
  assert (Hqdef : queue (fs_sched fs) = q) by done. clearbody q.
  rewrite Hqdef in Hpre, Hfuel.
  destruct fuel as [|fuel]; [ lia |].
  set (fs0 := upd_sched (set_flags true false) fs).
  assert (Hpass : flushPreFlushCbs fuel fs0
            = Some (Normal tt,
                    set_ran (ran fs ++ map j_ref (pre_jobs q))
                      (upd_sched (fun s => set_queue (main_jobs q) s) fs0))).
  { unfold flushPreFlushCbs. cbn [fs0 fs_sched upd_sched isFlushing flushIndex set_flags].
    rewrite Hi. cbn [Nat.add]. fold fs0.
    destruct q as [|x rest].
    - assert (Hfs : set_ran (ran fs ++ map j_ref (pre_jobs []))
                      (upd_sched (fun s => set_queue (main_jobs []) s) fs0) = fs0).
      { unfold fs0, pre_jobs, main_jobs. simpl. rewrite app_nil_r.
        destruct fs as [s p c i a r e]. destruct s. simpl in *. by subst. }
      rewrite Hfs.
      assert (Hnone : queue (fs_sched fs0) !! 1 = None).
      { unfold fs0. cbn [fs_sched upd_sched queue set_flags]. by rewrite Hqdef. }
      destruct fuel; cbn [flushPreFlushCbs_loop]; by rewrite Hnone.
    - unfold pre_jobs, main_jobs. cbn [drop take].
      apply (pre_loop_normal outcome Hconst rest [x] fuel fs0).
      + cbn [fs0 fs_sched upd_sched queue set_flags]. by rewrite Hqdef.
      + intros j Hj Hp. apply Hpre. unfold pre_jobs. cbn [drop].
        by apply list_elem_of_filter.
      + simpl in Hfuel. lia. }
  assert (Hlen : length sorted <= fuel).
  { unfold sorted. rewrite sort_by_id_Permutation. unfold main_jobs.
    rewrite length_app, length_take.
    pose proof (length_filter (fun j => j_pre j <> true) (drop 1 q)) as Hfl.
    rewrite length_drop in Hfl. lia. }
  eexists. split.
  - cbn [flushJobs]. fold fs0. rewrite Hpass.
    erewrite (main_loop outcome Hconst sorted [] fuel).
    + rewrite flushPostFlushCbs_nothing by done. unfold fs0.
      cbn [fs_sched queue set_queue set_flushIndex set_flags length Nat.eqb negb orb
           pendingPostFlushCbs upd_sched set_reported set_ran].
      rewrite Hpend. reflexivity.
    + reflexivity.
    + reflexivity.
    + exact Hlen.
  - cbn [ran reported fs_sched queue upd_sched set_reported set_ran set_queue
         set_flushIndex set_flags isFlushPending inactive fs0].
    split_and!; try done.
    + by rewrite <- app_assoc.
    + apply sort_by_id_ascending.
    + apply sort_by_id_Permutation.
    + intros k. apply sort_by_id_stable.
Qed.

Lemma flushJobs_runs_sorted_witness :
  exists fs',
    @flushJobs (jobs_of sample_outcome) 6 fs_sample = Some (Normal tt, fs')
    /\ ran fs' = [3; 2; 1; 6]
    /\ reported fs' = [(VStr "boom", "scheduler flush")]
    /\ queue (fs_sched fs') = [].
Proof.
  destruct (@flushJobs_runs_sorted (jobs_of sample_outcome) sample_outcome 6 fs_sample)
    as (fs' & Hrun & Hran & Hrep & Hq & _).
  - by intros r fs.
  - done.
  - done.
  - intros j Hj. vm_compute in Hj. apply list_elem_of_singleton in Hj. by subst j.
  - simpl. lia.
  - exists fs'. split_and!; done.
Defined.
(** The first pass, when a job marked [pre] throws. *)
Lemma pre_loop_throw `{Jobs} outcome x after err mid : forall prefix fuel fs,
  constant_jobs outcome ->
  queue (fs_sched fs) = prefix ++ mid ++ x :: after ->
  (forall j, j ∈ mid -> j_pre j = true -> outcome (j_ref j) = Normal tt) ->
  j_pre x = true -> outcome (j_ref x) = Throw err ->
  length mid < fuel ->
  flushPreFlushCbs_loop fuel (length prefix) fs
  = Some (Throw err,
          set_ran (ran fs ++ map j_ref (filter (fun j => j_pre j = true) mid)
                     ++ [j_ref x])
            (upd_sched (fun s => set_queue
               (prefix ++ filter (fun j => j_pre j <> true) mid ++ after) s) fs)).
Proof.
  induction mid as [|y mid IH]; intros prefix fuel fs Hconst Hq Hok Hpre Hout Hfuel.
  - destruct fuel as [|fuel]; [ simpl in Hfuel; lia |].
    cbn [flushPreFlushCbs_loop]. rewrite Hq. cbn [app].
    rewrite (list_lookup_middle prefix after x (length prefix)) by done.
    rewrite Hpre, (run_job_constant outcome Hconst), Hout.
    rewrite !filter_nil. unfold set_ran, upd_sched, set_queue. simpl.
    rewrite Hq. cbn [app]. by rewrite delete_middle.
  - destruct fuel as [|fuel]; [ simpl in Hfuel; lia |].
    cbn [flushPreFlushCbs_loop]. rewrite Hq. cbn [app].
    rewrite (list_lookup_middle prefix (mid ++ x :: after) y (length prefix)) by done.
    rewrite !filter_cons. destruct (j_pre y) eqn:Hy.
    + rewrite (run_job_constant outcome Hconst).
      rewrite (Hok y) by (done || by left).
      rewrite (decide_True (P := true = true)) by done.
      rewrite (decide_False (P := true <> true)) by (intros Hne; by apply Hne).
      rewrite (IH prefix fuel); try done.
      * cbn [ran set_ran upd_sched fs_sched map]. do 2 f_equal.
        rewrite <- !app_assoc. reflexivity.
      * cbn [fs_sched set_ran upd_sched queue set_queue]. rewrite Hq.
        cbn [app]. by rewrite delete_middle.
      * intros j Hj. apply Hok. by right.
      * simpl in Hfuel. lia.
    + rewrite (decide_False (P := false = true)) by done.
      rewrite (decide_True (P := false <> true)) by done.
      replace (length prefix + 1) with (length (prefix ++ [y]))
        by (rewrite length_app; simpl; lia).
      rewrite (IH (prefix ++ [y]) fuel); try done.
      * rewrite <- !app_assoc. reflexivity.
      * rewrite Hq. by rewrite <- app_assoc.
      * intros j Hj. apply Hok. by right.
      * simpl in Hfuel. lia.
Qed.

Lemma queueFlush_while_flushing s :
  isFlushing s = true -> queueFlush s = s.
Proof. intros Hf. unfold queueFlush. by rewrite Hf. Qed.

Lemma queueJob_while_flushing j s s' :
  isFlushing s = true -> queueJob j s = Some s' ->
  flushRequests s' = flushRequests s /\ isFlushing s' = true.
Proof.
  intros Hf. unfold queueJob.
  destruct (_ && negb _); [| by intros [= <-] ].
  destruct (j_id j) as [id|].
  - destruct (findInsertionIndex id s) as [i|]; [| done ].
    intros [= <-]. by rewrite queueFlush_while_flushing.
  - intros [= <-]. by rewrite queueFlush_while_flushing.
Qed.

(** X25.  A job marked [pre] is called by [flushJobs] with nothing to catch
    what it throws.  When such a job throws, the flush ends there with the
    exception: the jobs of the main pass are not called, they stay in the
    queue, and [isFlushing] stays [true].  From then on [queueJob] asks for
    no flush, whatever job it is given. *)
Theorem throwing_pre_job_blocks_scheduler `{Jobs} outcome fuel fs first mid x after err :
  constant_jobs outcome ->
  idle (fs_sched fs) ->
  queue (fs_sched fs) = first :: mid ++ x :: after ->
  (forall j, j ∈ mid -> j_pre j = true -> outcome (j_ref j) = Normal tt) ->
  j_pre x = true -> outcome (j_ref x) = Throw err ->
  S (length mid) < fuel ->
  exists fs',
    flushJobs fuel fs = Some (Throw err, fs')
    /\ ran fs' = ran fs ++ map j_ref (filter (fun j => j_pre j = true) mid) ++ [j_ref x]
    /\ queue (fs_sched fs')
       = first :: filter (fun j => j_pre j <> true) mid ++ after
    /\ isFlushing (fs_sched fs') = true
    /\ forall j s', queueJob j (fs_sched fs') = Some s' ->
         flushRequests s' = flushRequests (fs_sched fs) /\ isFlushing s' = true.
Proof.
  intros Hconst [Hf Hi] Hq Hok Hpre Hout Hfuel.
  destruct fuel as [|fuel]; [ lia |].
  eexists. split.
  - cbn [flushJobs]. unfold flushPreFlushCbs.
    cbn [fs_sched upd_sched isFlushing flushIndex set_flags]. rewrite Hi.
    rewrite (pre_loop_throw outcome x after err mid [first] fuel);
      [ reflexivity | done | by simpl; rewrite Hq | done | done | done | lia ].
  - cbn [ran fs_sched queue upd_sched set_ran set_queue set_flags isFlushing app].
    split_and!; try done.
    intros j s' Hj. apply queueJob_while_flushing in Hj; [| done ].
    by destruct Hj as [-> ->].
Qed.

Lemma throwing_pre_job_blocks_scheduler_witness :
  exists fs',
    @flushJobs (jobs_of sample_outcome) 6 fs_pre_throws = Some (Throw (VStr "boom"), fs')
    /\ ran fs' = [3; 2]
    /\ job_refs (queue (fs_sched fs')) = [1; 6; 4]
    /\ isFlushing (fs_sched fs') = true.
Proof.
  destruct (@throwing_pre_job_blocks_scheduler (jobs_of sample_outcome) sample_outcome 6
              fs_pre_throws
              {| j_ref := 1; j_id := Some 5%Z; j_allowRecurse := false; j_pre := false |}
              [ {| j_ref := 6; j_id := None; j_allowRecurse := false; j_pre := false |};
                {| j_ref := 3; j_id := None; j_allowRecurse := false; j_pre := true |} ]
              {| j_ref := 2; j_id := Some 3%Z; j_allowRecurse := false; j_pre := true |}
              [ {| j_ref := 4; j_id := Some 3%Z; j_allowRecurse := false; j_pre := false |} ]
              (VStr "boom"))
    as (fs' & Hrun & Hran & Hq & Hfl & _).
  - by intros r fs.
  - done.
  - done.
  - intros j Hj _. apply elem_of_cons in Hj as [->|Hj]; [ done |].
    apply list_elem_of_singleton in Hj. by subst j.
  - done.
  - done.
  - simpl. lia.
  - exists fs'. split_and!; try done. by rewrite Hq.
Defined.
(** [[...new Set(array)]] keeps one entry for each function, in the order of
    the first occurrences. *)
Lemma dedupe_step_spec (l : list job) : forall acc,
  NoDup (map j_ref acc) ->
  let out := foldl (fun acc j =>
                      if existsb (fun x => Nat.eqb (j_ref x) (j_ref j)) acc then acc
                      else acc ++ [j]) acc l in
  NoDup (map j_ref out)
  /\ (forall r, r ∈ map j_ref out <-> r ∈ map j_ref acc \/ r ∈ map j_ref l)
  /\ (forall j, j ∈ out -> j ∈ acc \/ j ∈ l).
Proof.
  induction l as [|j l IH]; intros acc Hnd; cbn [foldl].
  - split_and!; [ done | | by left ].
    intros r. simpl. split; [ by left | intros [Hr|Hr]; [ done | by inversion Hr ] ].
  - destruct (existsb (fun x => j_ref x =? j_ref j) acc) eqn:Hex.
    + destruct (IH acc Hnd) as (Hn & Hm & Hj). split_and!; [ done | | ].
      * intros r. rewrite Hm. cbn [map]. rewrite elem_of_cons.
        split; [ intros [Hr|Hr]; auto |].
        intros [Hr|[->|Hr]]; auto. left.
        apply existsb_exists in Hex as (x & Hx & Heq).
        apply Nat.eqb_eq in Heq. rewrite <- Heq.
        apply list_elem_of_fmap_2. by apply list_elem_of_In.
      * intros j' Hj'. destruct (Hj j' Hj'); [ by left | right; by right ].
    + assert (Hfresh : j_ref j ∉ map j_ref acc).
      { intros Hin. apply list_elem_of_fmap in Hin as (x & Hx & Hin).
        assert (Htrue : existsb (fun x => j_ref x =? j_ref j) acc = true).
        { apply existsb_exists. exists x. split; [ by apply list_elem_of_In |].
          apply Nat.eqb_eq. done. }
        congruence. }
      destruct (IH (acc ++ [j])) as (Hn & Hm & Hj).
      { rewrite map_app. apply NoDup_app. split_and!; [ done | | apply NoDup_singleton ].
        intros r Hr Hr'. simpl in Hr'. apply list_elem_of_singleton in Hr'. by subst r. }
      split_and!; [ done | | ].
      * intros r. rewrite Hm. rewrite map_app, elem_of_app. cbn [map].
        rewrite list_elem_of_singleton, elem_of_cons. tauto.
      * intros j' Hj'. destruct (Hj j' Hj') as [Hin|Hin]; [| right; by right ].
        apply elem_of_app in Hin as [Hin|Hin]; [ by left |].
        apply list_elem_of_singleton in Hin. subst j'. right. by left.
Qed.

Lemma dedupe_jobs_spec (l : list job) :
  NoDup (map j_ref (dedupe_jobs l))
  /\ (forall r, r ∈ map j_ref (dedupe_jobs l) <-> r ∈ map j_ref l)
  /\ (forall j, j ∈ dedupe_jobs l -> j ∈ l).
Proof.
  destruct (dedupe_step_spec l []) as (Hn & Hm & Hj); [ apply NoDup_nil_2 |].
  split_and!; [ done | | ].
  - intros r. rewrite Hm. simpl. split; [ intros [Hr|Hr]; [ by inversion Hr | done ] | by right ].
  - intros j Hin. destruct (Hj j Hin) as [Hr|Hr]; [ by inversion Hr | done ].
Qed.

(** The loop over the functions of the running pass, when they return. *)
Lemma post_loop `{Jobs} outcome todo : forall finished fuel fs,
  constant_jobs outcome ->
  currentPostFlushParentJob fs = Some (finished ++ todo) ->
  postFlushIndex fs = length finished ->
  (forall j, j ∈ todo -> outcome (j_ref j) = Normal tt) ->
  length todo <= fuel ->
  flushPostFlushCbs_loop fuel fs
  = Some (Normal tt,
          set_postFlushIndex (length finished + length todo)
            (set_ran (ran fs ++ map j_ref todo) fs)).
Proof.
  induction todo as [|x todo IH]; intros finished fuel fs Hconst Hp Hi Hok Hfuel.
  - destruct fuel; cbn [flushPostFlushCbs_loop];
      rewrite Hp, Hi, lookup_ge_None_2 by (rewrite length_app; simpl; lia);
      simpl; rewrite app_nil_r, Nat.add_0_r, <- Hi;
      by destruct fs.
  - destruct fuel as [|fuel]; [ simpl in Hfuel; lia |].
    cbn [flushPostFlushCbs_loop]. rewrite Hp, Hi.
    rewrite (list_lookup_middle finished todo x (length finished)) by done.
    rewrite (run_job_constant outcome Hconst).
    rewrite (Hok x) by (by left).
    rewrite (IH (finished ++ [x]) fuel); try done.
    + cbn [ran set_ran set_postFlushIndex postFlushIndex map].
      rewrite length_app. cbn [length]. rewrite <- !app_assoc.
      replace (length finished + 1 + length todo)
        with (length finished + S (length todo)) by lia.
      reflexivity.
    + cbn [currentPostFlushParentJob set_ran set_postFlushIndex]. rewrite Hp.
      by rewrite <- app_assoc.
    + cbn [postFlushIndex set_postFlushIndex set_ran]. rewrite Hi, length_app.
      simpl. lia.
    + intros j Hj. apply Hok. by right.
    + simpl in Hfuel. lia.
Qed.

Lemma dedupe_jobs_length (l : list job) : length (dedupe_jobs l) <= length l.
Proof.
  unfold dedupe_jobs.
  assert (Hgen : forall acc,
            length (foldl (fun acc j =>
                      if existsb (fun x => Nat.eqb (j_ref x) (j_ref j)) acc then acc
                      else acc ++ [j]) acc l) <= length acc + length l).
  { induction l as [|j l IH]; intros acc; cbn [foldl]; [ simpl; lia |].
    destruct (existsb _ acc).
    - specialize (IH acc). simpl. lia.
    - specialize (IH (acc ++ [j])). rewrite length_app in IH. simpl in *. lia. }
  apply (Hgen []).
Qed.

(** X26.  [flushPostFlushCbs], outside a running pass, for functions that
    return and leave the scheduler alone: however often a function was
    queued, it is called once; the functions are called in the order of their
    ids, functions of one id in the order in which they were first queued,
    and nothing is left pending. *)
Theorem post_callbacks_run_once_in_order `{Jobs} outcome fuel fs :
  constant_jobs outcome ->
  currentPostFlushParentJob fs = None ->
  (forall j, j ∈ pendingPostFlushCbs fs -> outcome (j_ref j) = Normal tt) ->
  length (pendingPostFlushCbs fs) <= fuel ->
  let order := sort_by_id (dedupe_jobs (pendingPostFlushCbs fs)) in
  exists fs',
    flushPostFlushCbs fuel fs = Some (Normal tt, fs')
    /\ ran fs' = ran fs ++ map j_ref order
    /\ pendingPostFlushCbs fs' = []
    /\ currentPostFlushParentJob fs' = None
    /\ fs_sched fs' = fs_sched fs
    /\ NoDup (map j_ref order)
    /\ (forall r, r ∈ map j_ref order <-> r ∈ map j_ref (pendingPostFlushCbs fs))
    /\ ascending order = true
    /\ forall k, filter (fun j => getId j = k) order
                 = filter (fun j => getId j = k) (dedupe_jobs (pendingPostFlushCbs fs)).
Proof.
  intros Hconst Hparent Hok Hfuel order.
  destruct (dedupe_jobs_spec (pendingPostFlushCbs fs)) as (Hnd & Hmem & Hsub).
  assert (Hperm : order ≡ₚ dedupe_jobs (pendingPostFlushCbs fs))
    by apply sort_by_id_Permutation.
  assert (Hfacts : NoDup (map j_ref order)
                   /\ (forall r, r ∈ map j_ref order
                                 <-> r ∈ map j_ref (pendingPostFlushCbs fs))
                   /\ ascending order = true
                   /\ forall k, filter (fun j => getId j = k) order
                        = filter (fun j => getId j = k)
                            (dedupe_jobs (pendingPostFlushCbs fs))).
  { split_and!.
    - by rewrite Hperm.
    - intros r. by rewrite Hperm.
    - apply sort_by_id_ascending.
    - intros k. apply sort_by_id_stable. }
  destruct (pendingPostFlushCbs fs) as [|c p] eqn:Hp.
  - exists fs. unfold flushPostFlushCbs. rewrite Hp.
    split_and!; try done; try apply Hfacts.
    subst order. simpl. by rewrite app_nil_r.
  - eexists. split.
    + unfold flushPostFlushCbs. rewrite Hp.
      cbn [currentPostFlushParentJob set_pending]. rewrite Hparent.
      fold order.
      rewrite (post_loop outcome order [] fuel); try done.
      * intros j Hj. apply Hok. apply Hsub.
        rewrite <- Hperm. done.
      * pose proof (dedupe_jobs_length (c :: p)) as Hlen.
        rewrite <- Hperm in Hlen. lia.
    + cbn [ran pendingPostFlushCbs currentPostFlushParentJob fs_sched
           set_postFlushIndex set_parent set_ran set_pending].
      split_and!; try done; apply Hfacts.
Qed.

Lemma post_callbacks_run_once_in_order_witness :
  exists fs',
    @flushPostFlushCbs (jobs_of (fun _ => Normal tt)) 4 fs_post_sample
      = Some (Normal tt, fs')
    /\ ran fs' = [4; 1; 6]
    /\ pendingPostFlushCbs fs' = [].
Proof.
  destruct (@post_callbacks_run_once_in_order (jobs_of (fun _ => Normal tt))
              (fun _ => Normal tt) 4 fs_post_sample)
    as (fs' & Hrun & Hran & Hpend & _).
  - by intros r fs.
  - done.
  - done.
  - simpl. lia.
  - exists fs'. split_and!; done.
Defined.
